(** * The download manager of the HyperPlay desktop client

    A shallow embedding of the download manager in
    [src/backend/hyperplay/games.ts] (lines 42-203; the line numbers below
    are those of that file): the persisted task queue, the Finished
    history, the [queueState] flag and the processing loop [initQueue],
    followed by the properties the specification states about them.

    The store [downloadManager] is a finite map from keys to task lists.
    [initQueue] is an [async] function: it runs synchronously up to an
    [await], is suspended there, and is resumed when the awaited promise
    settles.  Between suspension and resumption other calls ([addToQueue],
    [removeFromQueue]) may run.  The embedding keeps this structure: each
    synchronous stretch of the loop is a function on the manager state, a
    suspended loop is a value of type [Suspended], and [exec] runs one
    external event to the next point where every loop is suspended. *)

From stdpp Require Import gmap strings list fin_maps.

Open Scope Z_scope.
Open Scope string_scope.
Open Scope list_scope.

(** ** Data model *)

(** [type DMStatus = 'done' | 'error' | 'abort'] *)
Inductive DMStatus := done_ | error | abort.

(** [type DownloadManagerState = 'idle' | 'running'] *)
Inductive DownloadManagerState := idle | running.

(** The fields of [InstallParams] the download manager reads or writes.
    [size] is optional in the source ([size?: string]); [gameInfo.title]
    is only logged. *)
Record InstallParams := {
  appName : string;
  runner : string;
  path : string;
  platformToInstall : string;
  size : option string;
  gameInfo_title : string
}.

(** [DMQueueElement]; [status] is absent ([None]) until the element is
    finished, and [None] also stands for a stored [null]/[undefined]. *)
Record DMQueueElement := {
  type : string;
  params : InstallParams;
  addToQueueTime : Z;
  startTime : Z;
  endTime : Z;
  status : option DMStatus
}.

(** What [getInstallInfo] resolves to: [installInfo?.manifest?.download_size].
    A [download_size] of [None] stands for [undefined] or [NaN]. *)
Record Manifest := { download_size : option Z }.
Record InstallInfo := { manifest : option Manifest }.

(** A promise settles with a value or with an exception. *)
Inductive Outcome (A : Type) :=
| Returned (a : A)
| Raised (exn : string).
Arguments Returned {A} a.
Arguments Raised {A} exn.

(** The runner operation selected at lines 115-119. *)
Inductive RunnerCall :=
| installQueueElement (p : InstallParams)
| updateQueueElement (p : InstallParams)
| downloadGame (name : string).

(** Observable effects, in the order they happen. *)
Inductive Effect :=
| gameStatusUpdate (name : string) (run folder : option string) (st : string)
| changedDMQueueInformation (elements : list DMQueueElement)
| logError (msg : string)
| logInfo (msg : list string)
| storeSet (key : string) (value : list DMQueueElement)
| storeDelete (key : string)
| getInstallInfo (name run platform : string)
| runnerCall (c : RunnerCall)
| unhandledRejection (exn : string).
(* [unhandledRejection]: the promise of an activation of [initQueue] was
   rejected; [addToQueue] drops that promise (line 166). *)

(** An [initQueue] activation suspended at one of its two [await]s.  The
    local variables that are live across the [await] are kept: [element],
    and at line 102 also the snapshot [queuedElements] taken at line 97. *)
Inductive Suspended :=
| awaiting_getInstallInfo (element : DMQueueElement) (queuedElements : list DMQueueElement)
| awaiting_operation (element : DMQueueElement).

(** The state of the module and of its environment.  [clock] is what
    [Date.now()] answers when it is read next, [later] the answers to the
    readings after that one: time goes on between two readings, also
    within one synchronous stretch of code. *)
Record Manager := {
  downloadManager : gmap string (list DMQueueElement);
  queueState : DownloadManagerState;
  clock : Z;
  later : list Z;
  loops : list Suspended;
  trace : list Effect
}.

(** ** Record updates *)

Definition with_size (s : string) (p : InstallParams) : InstallParams :=
  {| appName := appName p; runner := runner p; path := path p;
     platformToInstall := platformToInstall p; size := Some s;
     gameInfo_title := gameInfo_title p |}.

Definition with_params (p : InstallParams) (e : DMQueueElement) : DMQueueElement :=
  {| type := type e; params := p; addToQueueTime := addToQueueTime e;
     startTime := startTime e; endTime := endTime e; status := status e |}.

Definition with_startTime (t : Z) (e : DMQueueElement) : DMQueueElement :=
  {| type := type e; params := params e; addToQueueTime := addToQueueTime e;
     startTime := t; endTime := endTime e; status := status e |}.

Definition with_endTime (t : Z) (e : DMQueueElement) : DMQueueElement :=
  {| type := type e; params := params e; addToQueueTime := addToQueueTime e;
     startTime := startTime e; endTime := t; status := status e |}.

Definition with_status (s : option DMStatus) (e : DMQueueElement) : DMQueueElement :=
  {| type := type e; params := params e; addToQueueTime := addToQueueTime e;
     startTime := startTime e; endTime := endTime e; status := s |}.

Definition emit (e : Effect) (m : Manager) : Manager :=
  {| downloadManager := downloadManager m; queueState := queueState m;
     clock := clock m; later := later m; loops := loops m;
     trace := trace m ++ [e] |}.

Definition set_queueState (s : DownloadManagerState) (m : Manager) : Manager :=
  {| downloadManager := downloadManager m; queueState := s;
     clock := clock m; later := later m; loops := loops m; trace := trace m |}.

Definition set_clock (t : Z) (m : Manager) : Manager :=
  {| downloadManager := downloadManager m; queueState := queueState m;
     clock := t; later := later m; loops := loops m; trace := trace m |}.

Definition set_later (l : list Z) (m : Manager) : Manager :=
  {| downloadManager := downloadManager m; queueState := queueState m;
     clock := clock m; later := l; loops := loops m; trace := trace m |}.

(** The manager once [Date.now()] has been read: by the next reading the
    clock has gone on to the head of [later]. *)
Definition tick (m : Manager) : Manager :=
  {| downloadManager := downloadManager m; queueState := queueState m;
     clock := hd (clock m) (later m); later := tl (later m);
     loops := loops m; trace := trace m |}.

Definition set_loops (l : list Suspended) (m : Manager) : Manager :=
  {| downloadManager := downloadManager m; queueState := queueState m;
     clock := clock m; later := later m; loops := l; trace := trace m |}.

(** ** The store *)

(** [downloadManager.get(key, [])] *)
Definition store_get (key : string) (m : Manager) : list DMQueueElement :=
  default [] (downloadManager m !! key).

(** [downloadManager.has(key)] *)
Definition store_has (key : string) (m : Manager) : bool :=
  bool_decide (is_Some (downloadManager m !! key)).

(** [downloadManager.set(key, value)] *)
Definition store_set (key : string) (value : list DMQueueElement) (m : Manager) : Manager :=
  emit (storeSet key value)
    {| downloadManager := <[key := value]> (downloadManager m);
       queueState := queueState m; clock := clock m; later := later m;
       loops := loops m; trace := trace m |}.

(** [downloadManager.delete(key)] *)
Definition store_delete (key : string) (m : Manager) : Manager :=
  emit (storeDelete key)
    {| downloadManager := delete key (downloadManager m);
       queueState := queueState m; clock := clock m; later := later m;
       loops := loops m; trace := trace m |}.

(** ** JavaScript helpers *)

(** [Array.prototype.findIndex]; [None] is the result [-1]. *)
Fixpoint findIndex {A : Type} (p : A -> bool) (l : list A) : option nat :=
  match l with
  | [] => None
  | x :: l' => if p x then Some 0%nat else S <$> findIndex p l'
  end.

(** Truthiness of a string: only the empty string is falsy. *)
Definition truthy (s : string) : bool := negb (bool_decide (s = "")).

(** [(el) => el.params.appName === name] *)
Definition has_appName (name : string) (el : DMQueueElement) : bool :=
  bool_decide (appName (params el) = name).

(** [queuedElements[0] = element]: an assignment at index 0 of an empty
    array extends it. *)
Definition assign_head (element : DMQueueElement) (l : list DMQueueElement)
  : list DMQueueElement :=
  match l with
  | [] => [element]
  | _ :: rest => element :: rest
  end.

Definition appNames (l : list DMQueueElement) : list string :=
  (fun el => appName (params el)) <$> l.

(** ** Private functions *)

(** lines 63-66 *)
Definition getFirstQueueElement (m : Manager) : option DMQueueElement :=
  head (store_get "queue" m).

(** The array written by [addToFinished] (lines 69-79). *)
Definition finished_with (element : DMQueueElement) (st : option DMStatus)
    (elements : list DMQueueElement) : list DMQueueElement :=
  match findIndex (has_appName (appName (params element))) elements with
  | Some elementIndex =>
      <[elementIndex := with_status (Some (default abort st)) element]> elements
  | None => elements ++ [with_status st element]
  end.

(** lines 68-86 *)
Definition addToFinished (element : DMQueueElement) (st : option DMStatus)
    (m : Manager) : Manager :=
  let elements := store_get "finished" m in
  let m := store_set "finished" (finished_with element st elements) m in
  emit (logInfo [appName (params element); "added to download manager finished."]) m.

(** ** Public functions *)

(** lines 170-194 *)
Definition removeFromQueue (name : string) (m : Manager) : Manager :=
  if truthy name && store_has "queue" m then
    let elements := store_get "queue" m in
    let '(elements, m) :=
      match findIndex (has_appName name) elements with
      | Some index =>
          let elements := delete index elements in
          (elements, store_set "queue" elements (store_delete "queue" m))
      | None => (elements, m)
      end in
    let m := emit (gameStatusUpdate name None None "done") m in
    let m := emit (logInfo [name; "removed from download manager."]) m in
    emit (changedDMQueueInformation elements) m
  else m.

(** ** The processing loop *)

(** Where a synchronous stretch of the loop body ends: at an [await], at
    the [while] test with the freshly read head, or with an exception. *)
Inductive Segment :=
| suspends (s : Suspended)
| iterates (element : option DMQueueElement)
| throws (exn : string).

(** How an activation of [initQueue] leaves the processor: the [while]
    loop was left (line 126), the activation is suspended at an [await],
    or its promise was rejected. *)
Inductive LoopEnd := exited | parked | rejected (exn : string).

(** Inputs of the manager: the calls of the exported functions (line 203;
    [getQueueInformation] changes nothing) and the settling of an awaited
    promise of the loop at position [i] of [loops].  [elapse] sets the
    clock: what [Date.now()] answers next, and at the readings after
    that. *)
Inductive Input :=
| call_initQueue
| call_addToQueue (element : option DMQueueElement)
| call_removeFromQueue (name : string)
| settle_getInstallInfo (i : nat) (r : Outcome (option InstallInfo))
| settle_operation (i : nat) (r : Outcome (option DMStatus))
| elapse (now : Z) (readings : list Z).

Definition manifest_runner (r : string) : bool :=
  bool_decide (r = "gog") || bool_decide (r = "legendary").

(** lines 115-119: which runner operation is awaited, if any. *)
Definition dispatch (element : DMQueueElement) : option RunnerCall :=
  let r := runner (params element) in
  if manifest_runner r && bool_decide (type element = "install") then
    Some (installQueueElement (params element))
  else if manifest_runner r && bool_decide (type element = "update") then
    Some (updateQueueElement (params element))
  else if bool_decide (r = "hyperplay") then
    Some (downloadGame (appName (params element)))
  else None.

(** lines 121-124, entered with the [status] the awaited operation
    returned (or the synthesized one).  Line 121 reads [Date.now()]. *)
Definition operation_settled (element : DMQueueElement) (st : option DMStatus)
    (m : Manager) : Manager * Segment :=
  let element := with_endTime (clock m) element in
  let m := tick m in
  let m := addToFinished element st m in
  let m := removeFromQueue (appName (params element)) m in
  (m, iterates (getFirstQueueElement m)).

(** lines 111-119 up to the [await] of the dispatched operation.  Line
    111 reads [Date.now()]. *)
Definition size_resolved (element : DMQueueElement)
    (queuedElements : list DMQueueElement) (m : Manager) : Manager * Segment :=
  let element := with_startTime (clock m) element in
  let m := tick m in
  let queuedElements := assign_head element queuedElements in
  let m := store_set "queue" queuedElements m in
  match dispatch element with
  | Some c => (emit (runnerCall c) m, suspends (awaiting_operation element))
  | None => operation_settled element (Some error) m
  end.

(** lines 97-110 up to the [await] of [getInstallInfo]. *)
Definition iteration (element : DMQueueElement) (m : Manager) : Manager * Segment :=
  let queuedElements := store_get "queue" m in
  let m := emit (changedDMQueueInformation queuedElements) m in
  let p := params element in
  if manifest_runner (runner p) then
    (emit (getInstallInfo (appName p) (runner p) (platformToInstall p)) m,
     suspends (awaiting_getInstallInfo element queuedElements))
  else
    size_resolved (with_params (with_size "?? MB" p) element) queuedElements m.

(** The [while] loop, run until the activation is suspended, has left the
    loop or has thrown.  One unit of fuel is used per iteration started;
    [None] means the fuel did not suffice. *)
Fixpoint drive (fuel : nat) (m : Manager) (seg : Segment) : option (LoopEnd * Manager) :=
  match seg with
  | suspends s => Some (parked, set_loops (loops m ++ [s]) m)
  | throws exn => Some (rejected exn, emit (unhandledRejection exn) m)
  | iterates None => Some (exited, set_queueState idle m)
  | iterates (Some element) =>
      match fuel with
      | O => None
      | S fuel' => let '(m', seg') := iteration element m in drive fuel' m' seg'
      end
  end.

(** lines 92-127 *)
Definition initQueue (fuel : nat) (m : Manager) : option (LoopEnd * Manager) :=
  let element := getFirstQueueElement m in
  let m := set_queueState (if element is Some _ then running else idle) m in
  drive fuel m (iterates element).

(** The array written by [addToQueue] (lines 145-155). *)
Definition queue_with (element : DMQueueElement) (elements : list DMQueueElement)
  : list DMQueueElement :=
  match findIndex (has_appName (appName (params element))) elements with
  | Some elementIndex => <[elementIndex := element]> elements
  | None => elements ++ [element]
  end.

(** lines 138-163: everything [addToQueue] does to an accepted element
    before it looks at [queueState]. *)
Definition enqueue (element : DMQueueElement) (m : Manager) : Manager :=
  let p := params element in
  let m := emit (gameStatusUpdate (appName p) (Some (runner p)) (Some (path p)) "queued") m in
  let elements := queue_with element (store_get "queue" m) in
  let m := store_set "queue" elements m in
  let m := emit (logInfo [gameInfo_title p; " was added to the download queue."]) m in
  emit (changedDMQueueInformation elements) m.

(** lines 129-168; [None] is an [undefined] or [null] argument. *)
Definition addToQueue (fuel : nat) (element : option DMQueueElement) (m : Manager)
  : option Manager :=
  match element with
  | None => Some (emit (logError "Can not add undefined element to queue!") m)
  | Some element =>
      let m := enqueue element m in
      match queueState m with
      | idle => snd <$> initQueue fuel m
      | running => Some m
      end
  end.

(** lines 196-201 *)
Definition getQueueInformation (m : Manager)
  : list DMQueueElement * list DMQueueElement :=
  (store_get "queue" m, store_get "finished" m).

Section Processing.

(** [getFileSize] of [backend/utils] renders a byte count; its text is
    not part of the download manager. *)
Variable getFileSize : Z -> string.

(** [installInfo?.manifest?.download_size ? getFileSize(...) : '?? MB'] *)
Definition resolved_size (installInfo : option InstallInfo) : string :=
  match installInfo with
  | Some {| manifest := Some {| download_size := Some n |} |} =>
      if bool_decide (n = 0) then "?? MB" else getFileSize n
  | _ => "?? MB"
  end.

(** lines 105-119, entered when the promise of [getInstallInfo] settles. *)
Definition installInfo_settled (element : DMQueueElement)
    (queuedElements : list DMQueueElement) (r : Outcome (option InstallInfo))
    (m : Manager) : Manager * Segment :=
  match r with
  | Raised exn => (m, throws exn)
  | Returned installInfo =>
      let p := with_size (resolved_size installInfo) (params element) in
      size_resolved (with_params p element) queuedElements m
  end.

(** lines 115-121, entered when the promise of the dispatched operation
    settles; [const { status } = await ...] binds the returned status. *)
Definition operation_result (element : DMQueueElement)
    (r : Outcome (option DMStatus)) (m : Manager) : Manager * Segment :=
  match r with
  | Raised exn => (m, throws exn)
  | Returned st => operation_settled element st m
  end.

(** The activation at position [i] leaves [loops] when it is resumed. *)
Definition resume (i : nat) (m : Manager) : Manager :=
  set_loops (delete i (loops m)) m.

(** One input, run to the point where control returns to the event loop.
    Settling a promise no activation waits for changes nothing. *)
Definition exec (fuel : nat) (i : Input) (m : Manager) : option Manager :=
  match i with
  | call_initQueue => snd <$> initQueue fuel m
  | call_addToQueue element => addToQueue fuel element m
  | call_removeFromQueue name => Some (removeFromQueue name m)
  | settle_getInstallInfo i r =>
      match loops m !! i with
      | Some (awaiting_getInstallInfo element queuedElements) =>
          let '(m', seg) := installInfo_settled element queuedElements r (resume i m) in
          snd <$> drive fuel m' seg
      | _ => Some m
      end
  | settle_operation i r =>
      match loops m !! i with
      | Some (awaiting_operation element) =>
          let '(m', seg) := operation_result element r (resume i m) in
          snd <$> drive fuel m' seg
      | _ => Some m
      end
  | elapse now readings => Some (set_later readings (set_clock now m))
  end.

(** The states the manager can be in after finitely many inputs. *)
Inductive reachable (m0 : Manager) : Manager -> Prop :=
| reachable_start : reachable m0 m0
| reachable_exec m fuel i m' :
    reachable m0 m -> exec fuel i m = Some m' -> reachable m0 m'.

(** [initQueue] does not look at [queueState]; it is [addToQueue] that
    calls it only while the flag says ['idle'] (lines 165-167).  An input
    keeps to this discipline if it is no call of [initQueue] on a manager
    that is not idle. *)
Definition on_idle (i : Input) (m : Manager) : Prop :=
  i = call_initQueue -> queueState m = idle.

(** The states the manager can be in after finitely many inputs that keep
    to the discipline. *)
Inductive reachable_on_idle (m0 : Manager) : Manager -> Prop :=
| reachable_on_idle_start : reachable_on_idle m0 m0
| reachable_on_idle_exec m fuel i m' :
    reachable_on_idle m0 m -> on_idle i m -> exec fuel i m = Some m' ->
    reachable_on_idle m0 m'.

End Processing.

(** The manager at process start: [let queueState = 'idle'], no activation
    of the loop, and whatever the store file holds.  The clock stands at
    [now] until an [elapse] sets it. *)
Definition process_start (store : gmap string (list DMQueueElement)) (now : Z)
  : Manager :=
  {| downloadManager := store; queueState := idle; clock := now; later := [];
     loops := []; trace := [] |}.

(** ** Sample data for the concrete scenarios *)

Definition task (name run ty : string) : DMQueueElement :=
  {| type := ty;
     params := {| appName := name; runner := run; path := "/games";
                  platformToInstall := "linux"; size := None;
                  gameInfo_title := name |};
     addToQueueTime := 0; startTime := 0; endTime := 0; status := None |}.

Definition sample_getFileSize (n : Z) : string :=
  if bool_decide (n < 1024) then "under 1 KB" else "1 KB or more".

(** A sequence of inputs, each given sixteen loop iterations of fuel. *)
Definition run (inputs : list Input) (m : Manager) : option Manager :=
  foldl (fun om i => om ≫= exec sample_getFileSize 16 i) (Some m) inputs.

(** The pending names, the finished names with their statuses, the flag
    and the number of suspended activations. *)
Definition summary (m : Manager)
  : list string * list (string * option DMStatus) * DownloadManagerState * nat :=
  (appNames (store_get "queue" m),
   (fun el => (appName (params el), status el)) <$> store_get "finished" m,
   queueState m, length (loops m)).

(** The runner operations invoked so far, oldest first. *)
Definition runnerCalls (m : Manager) : list RunnerCall :=
  omap (fun e => match e with runnerCall c => Some c | _ => None end) (trace m).

Definition G1 : DMQueueElement := task "G1" "gog" "install".
Definition G2 : DMQueueElement := task "G2" "hyperplay" "install".
Definition G3 : DMQueueElement := task "G3" "sideload" "install".

(** A manager whose loop is under way: two pending tasks, one finished. *)
Definition sample_running : Manager :=
  set_queueState running
    (process_start
       {[ "queue" := [G1; G2]; "finished" := [with_status (Some error) G3] ]} 0).

(** ** Invariants *)

(** What an activation suspended at line 102 will write back at line 113
    holds every name once. *)
Definition snapshot_ok (s : Suspended) : Prop :=
  match s with
  | awaiting_getInstallInfo element queuedElements =>
      NoDup (appNames (assign_head element queuedElements))
  | awaiting_operation _ => True
  end.

(** No name occurs twice in the pending queue or in the Finished history,
    now or after a suspended activation has written its snapshot back. *)
Definition deduplicated (m : Manager) : Prop :=
  NoDup (appNames (store_get "queue" m)) /\
  NoDup (appNames (store_get "finished" m)) /\
  Forall snapshot_ok (loops m).

(** The [while] test is always reached with the head just read. *)
Definition segment_ok (m : Manager) (seg : Segment) : Prop :=
  match seg with
  | suspends s => snapshot_ok s
  | iterates o => o = getFirstQueueElement m
  | throws _ => True
  end.

(** At most one activation of the loop exists, and none while the flag
    says [idle]. *)
Definition single_loop (m : Manager) : Prop :=
  (length (loops m) <= 1)%nat /\ (queueState m = idle -> loops m = []).

(** A task of the name, runner and type of [t] is pending, as the first
    task of that name. *)
Definition first_pending (t : DMQueueElement) (m : Manager) : Prop :=
  exists i el,
    findIndex (has_appName (appName (params t))) (store_get "queue" m) = Some i /\
    store_get "queue" m !! i = Some el /\
    runner (params el) = runner (params t) /\ type el = type t.

(** [t] is a task without runner operation, and the Finished history
    records a task of its name with status ['error']. *)
Definition retired_unsupported (t : DMQueueElement) (m : Manager) : Prop :=
  dispatch t = None /\ manifest_runner (runner (params t)) = false /\
  exists e,
    e ∈ store_get "finished" m /\
    appName (params e) = appName (params t) /\ status e = Some error.

(** ** Further sample states *)

(** The manager after [addToQueue] of a task without name at process
    start. *)
Definition sample_unnamed : Manager :=
  default (process_start ∅ 0)
    (addToQueue 16 (Some (task "" "gog" "install")) (process_start ∅ 0)).

(** The manager after [addToQueue(G1)] at process start: the loop is
    suspended at the size lookup of G1. *)
Definition sample_lookup : Manager :=
  default (process_start ∅ 0)
    (run [call_addToQueue (Some G1)] (process_start ∅ 0)).

(** The manager after [addToQueue(G2)] at process start: the loop is
    suspended at the download of G2. *)
Definition sample_download : Manager :=
  default (process_start ∅ 0)
    (run [call_addToQueue (Some G2)] (process_start ∅ 0)).

(** The manager after the download of G2 has returned ['done']. *)
Definition sample_done : Manager :=
  default (process_start ∅ 0)
    (run [call_addToQueue (Some G2);
          settle_operation 0 (Returned (Some done_))] (process_start ∅ 0)).

(** The manager after G2 was removed from the queue while its download
    is awaited. *)
Definition sample_emptied : Manager :=
  default (process_start ∅ 0)
    (run [call_addToQueue (Some G2); call_removeFromQueue "G2"]
       (process_start ∅ 0)).

(** The same manager after a direct call of [initQueue]. *)
Definition sample_orphaned : Manager :=
  default (process_start ∅ 0)
    (run [call_addToQueue (Some G2); call_removeFromQueue "G2"; call_initQueue]
       (process_start ∅ 0)).

(** The manager after the size lookup of G1 has returned no manifest. *)
Definition sample_install : Manager :=
  default (process_start ∅ 0)
    (run [call_addToQueue (Some G1);
          settle_getInstallInfo 0 (Returned None)] (process_start ∅ 0)).

(** A manager restarted on a persisted queue of three tasks. *)
Definition sample_restart : Manager :=
  process_start {[ "queue" := [G1; G2; G3] ]} 0.

(** ** The loop run without interference *)

Section Undisturbed.

Variable getFileSize : Z -> string.

(** What the size lookup of a task returns and what its operation returns,
    by name. *)
Variable lookup_result : string -> option InstallInfo.
Variable outcome : string -> option DMStatus.

(** Settles the promise the first suspended activation waits for, and the
    promises awaited after it, [n] at most; every promise settles with a
    value.  Nothing else happens in between. *)
Fixpoint settle_all (fuel n : nat) (m : Manager) : option Manager :=
  match loops m with
  | [] => Some m
  | s :: _ =>
      match n with
      | O => None
      | S n' =>
          let i :=
            match s with
            | awaiting_getInstallInfo el _ =>
                settle_getInstallInfo 0 (Returned (lookup_result (appName (params el))))
            | awaiting_operation el =>
                settle_operation 0 (Returned (outcome (appName (params el))))
            end in
          exec getFileSize fuel i m ≫= settle_all fuel n'
      end
  end.

(** The task as it is dispatched: with the size the lookup gave, or the
    placeholder for a runner without lookup. *)
Definition sized (el : DMQueueElement) : DMQueueElement :=
  with_params
    (with_size
       (if manifest_runner (runner (params el))
        then resolved_size getFileSize (lookup_result (appName (params el)))
        else "?? MB")
       (params el))
    el.

(** The status the task is retired with. *)
Definition retired_status (el : DMQueueElement) : option DMStatus :=
  match dispatch el with
  | Some _ => outcome (appName (params el))
  | None => Some error
  end.

(** The Finished history after the tasks of [q] have been retired in
    order.  Each task takes two readings of the clock, for its start and
    for its end; the first reading is [now], the following ones are those
    of [readings]. *)
Fixpoint history_after (now : Z) (readings : list Z) (q h : list DMQueueElement)
  : list DMQueueElement :=
  match q with
  | [] => h
  | el :: q' =>
      let finish := hd now readings in
      history_after (hd finish (tl readings)) (tl (tl readings)) q'
        (finished_with (with_endTime finish (with_startTime now (sized el)))
           (retired_status el) h)
  end.

(** The history [h] has an entry under [name] that was made from a task
    of [q] of that name: it has the parameters of the task with the size
    set, and the status the task was retired with. *)
Definition recorded_from (q h : list DMQueueElement) (name : string) : Prop :=
  exists e el,
    e ∈ h /\ el ∈ q /\ appName (params el) = name /\
    params e = params (sized el) /\
    (forall s, retired_status el = Some s -> status e = Some s).

(** The state [m3] in which the next task is taken up, after the head
    [el] of the queue of [m] was retired: [rest] is pending. *)
Definition next_up (el : DMQueueElement) (rest : list DMQueueElement)
    (m m3 : Manager) : Prop :=
  store_get "queue" m3 = rest /\ loops m3 = [] /\
  clock m3 = clock (tick (tick m)) /\ later m3 = later (tick (tick m)) /\
  store_get "finished" m3 =
    finished_with
      (with_endTime (clock (tick m)) (with_startTime (clock m) (sized el)))
      (retired_status el) (store_get "finished" m) /\
  runnerCalls m3 =
    runnerCalls m ++ match dispatch (sized el) with Some c => [c] | None => [] end.

End Undisturbed.

(** ** The HyperPlay library

    The other two files gathered in [games.ts]: the availability tests of
    [backend/hyperplay/games] (lines 1-42) and the library manager
    [backend/hyperplay/library] (lines 204-510).  The library is the value
    stored under the key ['games'] of [hpLibraryStore]; an absent or
    [undefined] property is [None]. *)

Module HyperPlay.

(** [Partial<InstalledInfo>]: the properties the code reads, and the
    number of own properties besides them. *)
Module Install.
Record t := {
  platform : option string;
  executable : option string;
  version : option string;
  channelName : option string;
  others : nat
}.
End Install.

Record Channel := { channel_version : string }.

Record PlatformInfo := {
  external_url : option string;
  downloadSize : string;
  installSize : string
}.

Record ReleaseMeta := {
  releaseMeta_image : option string;
  platforms : gmap string PlatformInfo
}.

(** [systemRequirements] stands for its [JSON.stringify] text. *)
Record ProjectMeta := {
  name : string;
  description : string;
  short_description : string;
  projectMeta_image : option string;
  main_capsule : option string;
  systemRequirements : string
}.

(** [HyperPlayRelease], an entry of the listing API. *)
Module Release.
Record t := {
  _id : string;
  accountName : string;
  accountMeta_name : option string;
  projectName : string;
  projectMeta : ProjectMeta;
  releaseName : string;
  releaseMeta : ReleaseMeta;
  channels : option (gmap string Channel);
  releases : list string
}.
End Release.

Record Req := { minimum : string; recommended : string; req_title : string }.

Record Extra := {
  about_description : string;
  about_shortDescription : string;
  reqs : list Req;
  storeUrl : string
}.

(** [GameInfo], an entry of the library. *)
Module Game.
Record t := {
  app_name : string;
  extra : Extra;
  thirdPartyManagedApp : option string;
  web3_supported : bool;
  runner : string;
  title : string;
  art_square : option string;
  art_cover : option string;
  is_installed : bool;
  cloud_save_enabled : bool;
  namespace : string;
  developer : option string;
  store_url : string;
  folder_name : string;
  save_folder : string;
  is_mac_native : bool;
  is_linux_native : bool;
  canRunOffline : bool;
  install : Install.t;
  releaseMeta : option ReleaseMeta;
  version : option string;
  channels : option (gmap string Channel);
  releases : list string;
  browserUrl : option string
}.
End Game.

(** [isWindows], [isMac] and [isLinux] of [backend/constants]. *)
Record Host := { isWindows : bool; isMac : bool; isLinux : bool }.

(** ['63f685cd069b92b74c6d5778'], the id served from [test.json]. *)
Definition testId : string := "63f685cd069b92b74c6d5778".

(** Truthiness of an optional string. *)
Definition truthy_opt (o : option string) : bool :=
  match o with
  | Some s => truthy s
  | None => false
  end.

(** [a || b] *)
Definition or_else (a b : option string) : option string :=
  if truthy_opt a then a else b.

(** [String.prototype.toLowerCase] on the ASCII letters.  Other bytes are
    kept; no other character is mapped to an ASCII letter of ['linux'],
    so the comparison at line 36 is not affected. *)
Definition lower_ascii (c : Ascii.ascii) : Ascii.ascii :=
  let n := Ascii.nat_of_ascii c in
  if (65 <=? n)%nat && (n <=? 90)%nat then Ascii.ascii_of_nat (n + 32) else c.

Fixpoint toLowerCase (s : string) : string :=
  match s with
  | EmptyString => EmptyString
  | String c s' => String (lower_ascii c) (toLowerCase s')
  end.

(** The properties every object inherits from [Object.prototype]:
    [object[key]] is defined for them although [key] is no own property. *)
Definition inherited_property (key : string) : bool :=
  bool_decide
    (key ∈ ["constructor"; "__proto__"; "hasOwnProperty"; "isPrototypeOf";
            "propertyIsEnumerable"; "toLocaleString"; "toString"; "valueOf";
            "__defineGetter__"; "__defineSetter__"; "__lookupGetter__";
            "__lookupSetter__"]).

(** What a plain object answers for a key: the value of an own property
    and, for a key that is no own property, what [Object.prototype] holds
    under that name, if anything. *)
Inductive Property (A : Type) :=
| own (a : A)
| inherited
| undefined.
Arguments own {A} a.
Arguments inherited {A}.
Arguments undefined {A}.

(** [object[key]], for an object with the own properties [object]. *)
Definition get {A : Type} (object : gmap string A) (key : string) : Property A :=
  match object !! key with
  | Some a => own a
  | None => if inherited_property key then inherited else undefined
  end.

(** [Object.keys(val.install).length] *)
Definition install_keys (i : Install.t) : nat :=
  ((if Install.platform i is Some _ then 1 else 0) +
   (if Install.executable i is Some _ then 1 else 0) +
   (if Install.version i is Some _ then 1 else 0) +
   (if Install.channelName i is Some _ then 1 else 0) +
   Install.others i)%nat.

(** [{}] *)
Definition no_install : Install.t :=
  {| Install.platform := None; Install.executable := None;
     Install.version := None; Install.channelName := None;
     Install.others := 0 |}.

(** [{ platform: 'web' }] *)
Definition web_install : Install.t :=
  {| Install.platform := Some "web"; Install.executable := None;
     Install.version := None; Install.channelName := None;
     Install.others := 0 |}.

(** *** [backend/hyperplay/games] *)

(** lines 5-15; [hpGameInfo] is what [getHyperPlayGameInfo(appName)]
    returned, [existsSync] the file system.  Reading a property of
    [undefined] throws. *)
Definition isHpGameAvailable (existsSync : string -> bool)
    (hpGameInfo : option Game.t) : Outcome bool :=
  match hpGameInfo with
  | Some info =>
      if bool_decide (Install.platform (Game.install info) = Some "web") then
        Returned true
      else
        match Install.executable (Game.install info) with
        | Some exe => if truthy exe then Returned (existsSync exe) else Returned false
        | None => Returned false
        end
  | None => Raised "TypeError"
  end.

(** lines 17-42 *)
Definition isHpGameNative (host : Host) (hpGameInfo : option Game.t)
  : Outcome bool :=
  match hpGameInfo with
  | None => Raised "TypeError"
  | Some info =>
      match Install.platform (Game.install info) with
      | Some platform =>
          if truthy platform then
            if bool_decide (platform = "web") then Returned true
            else if isWindows host then Returned true
            else if isMac host && bool_decide (platform = "Mac") then Returned true
            else
              let plat := toLowerCase platform in
              if isLinux host && bool_decide (plat = "linux") then Returned true
              else Returned false
          else Returned false
      | None => Returned false
      end
  end.

(** The properties of an entry that say which game it is and how it is
    installed. *)
Definition identity (g : Game.t)
  : string * string * string * option string * bool * Install.t *
    option string * bool * bool :=
  (Game.app_name g, Game.runner g, Game.title g, Game.version g,
   Game.is_installed g, Game.install g, Game.browserUrl g,
   Game.is_mac_native g, Game.is_linux_native g).

(** *** [backend/hyperplay/library] *)

Section Library.

(** The release of [test.json]. *)
Variable testJson : Release.t.

(** lines 219-237, once the listing has arrived: the own properties of
    [hpStoreGameMap]; the map is read with [get].  The assignment of line
    231 makes a release with the [_id] ['__proto__'] the prototype of the
    map; the release is kept under that key here, as the map answers with
    it for that key.  That the map would then also answer for the names of
    the fields of that release is not modelled. *)
Definition getHyperPlayReleaseMap (hpStoreGameReleases : list Release.t)
  : gmap string Release.t :=
  let hpStoreGameMap :=
    foldl (fun map val => <[Release._id val := val]> map) ∅ hpStoreGameReleases in
  <[testId := testJson]> hpStoreGameMap.

(** lines 263-307: the entry made for a release. *)
Definition gameInfo_of (data : Release.t) : Game.t :=
  let meta := Release.releaseMeta data in
  let project := Release.projectMeta data in
  let web := platforms meta !! "web" in
  let isWebGame := bool_decide (is_Some web) in
  let supportedPlatforms := (map_to_list (platforms meta)).*1 in
  let store := "https://store.hyperplay.xyz/game/" +:+ Release.projectName data in
  {| Game.app_name := Release._id data;
     Game.extra :=
       {| about_description := description project;
          about_shortDescription := short_description project;
          reqs := [ {| minimum := systemRequirements project;
                       recommended := systemRequirements project;
                       req_title := name project |} ];
          storeUrl := store |};
     Game.thirdPartyManagedApp := None;
     Game.web3_supported := true;
     Game.runner := "hyperplay";
     Game.title := name project;
     Game.art_square :=
       or_else (projectMeta_image project) (releaseMeta_image meta);
     Game.art_cover := or_else (main_capsule project) (releaseMeta_image meta);
     Game.is_installed := isWebGame;
     Game.cloud_save_enabled := false;
     Game.namespace := "";
     Game.developer :=
       or_else (Release.accountMeta_name data) (Some (Release.accountName data));
     Game.store_url := store;
     Game.folder_name := Release.projectName data;
     Game.save_folder := "";
     Game.is_mac_native := existsb (String.prefix "darwin") supportedPlatforms;
     Game.is_linux_native := existsb (String.prefix "linux") supportedPlatforms;
     Game.canRunOffline := false;
     Game.install := if isWebGame then web_install else no_install;
     Game.releaseMeta := Some meta;
     Game.version := Some (Release.releaseName data);
     Game.channels := Release.channels data;
     Game.releases := Release.releases data;
     Game.browserUrl := web ≫= external_url |}.

(** [(val) => val.app_name === appId] *)
Definition is_game (appId : string) (val : Game.t) : bool :=
  bool_decide (Game.app_name val = appId).

(** lines 239-310.  [response] is what the request for the listing of
    [appId] settles with; it is only made for an id that is not in the
    library and is not [testId].  The result is the library written to the
    store, [None] when nothing is written. *)
Definition addGameToLibrary (appId : string)
    (response : Outcome (list Release.t)) (currentLibrary : list Game.t)
  : Outcome (option (list Game.t)) :=
  if existsb (is_game appId) currentLibrary then Returned None
  else
    let data :=
      if bool_decide (appId <> testId) then
        match response with
        | Returned res_data =>
            match head res_data with
            | Some data => Returned data
            | None => Raised "TypeError"
            end
        | Raised exn => Raised exn
        end
      else Returned testJson in
    match data with
    | Returned data => Returned (Some (currentLibrary ++ [gameInfo_of data]))
    | Raised exn => Raised exn
    end.

(** lines 370-398: the entry that replaces [currentInfo]. *)
Definition refreshed (currentInfo : Game.t) (data : Release.t) : Game.t :=
  let meta := Release.releaseMeta data in
  let project := Release.projectMeta data in
  {| Game.app_name := Game.app_name currentInfo;
     Game.extra :=
       {| about_description := description project;
          about_shortDescription := short_description project;
          reqs := [ {| minimum := systemRequirements project;
                       recommended := systemRequirements project;
                       req_title := name project |} ];
          storeUrl := storeUrl (Game.extra currentInfo) |};
     Game.thirdPartyManagedApp := Game.thirdPartyManagedApp currentInfo;
     Game.web3_supported := Game.web3_supported currentInfo;
     Game.runner := Game.runner currentInfo;
     Game.title := Game.title currentInfo;
     Game.art_square :=
       or_else (projectMeta_image project)
         (or_else (releaseMeta_image meta) (Game.art_square currentInfo));
     Game.art_cover :=
       or_else (releaseMeta_image meta)
         (or_else (main_capsule project) (Game.art_cover currentInfo));
     Game.is_installed := Game.is_installed currentInfo;
     Game.cloud_save_enabled := Game.cloud_save_enabled currentInfo;
     Game.namespace := Game.namespace currentInfo;
     Game.developer :=
       or_else (Release.accountMeta_name data) (Some (Release.accountName data));
     Game.store_url := Game.store_url currentInfo;
     Game.folder_name := Game.folder_name currentInfo;
     Game.save_folder := Game.save_folder currentInfo;
     Game.is_mac_native := Game.is_mac_native currentInfo;
     Game.is_linux_native := Game.is_linux_native currentInfo;
     Game.canRunOffline := Game.canRunOffline currentInfo;
     Game.install := Game.install currentInfo;
     Game.releaseMeta := Some meta;
     Game.version := Game.version currentInfo;
     Game.channels := Release.channels data;
     Game.releases := Release.releases data;
     Game.browserUrl := Game.browserUrl currentInfo |}.

(** lines 362-401.  The result is the library written to the store,
    [None] when the function returns at line 366 without writing. *)
Definition refreshHPGameInfo (appId : string) (data : Release.t)
    (currentLibrary : list Game.t) : option (list Game.t) :=
  match findIndex (is_game appId) currentLibrary with
  | None => None
  | Some gameIndex =>
      match currentLibrary !! gameIndex with
      | Some currentInfo =>
          Some (<[gameIndex := refreshed currentInfo data]> currentLibrary)
      | None => None
      end
  end.


(** lines 420-425: [gameData], what is used as the release of a game
    id. *)
Definition data_for (hpStoreGameMap : gmap string Release.t) (gameId : string)
  : Property Release.t :=
  if bool_decide (gameId = testId) then own testJson
  else get hpStoreGameMap gameId.

(** A release stands for the game id. *)
Definition has_release (hpStoreGameMap : gmap string Release.t)
    (gameId : string) : bool :=
  if data_for hpStoreGameMap gameId is own _ then true else false.



(** What a refresh makes of one entry, given the releases at hand. *)
Definition refresh_entry (hpStoreGameMap : gmap string Release.t) (g : Game.t)
  : Game.t :=
  match data_for hpStoreGameMap (Game.app_name g) with
  | own data => refreshed g data
  | _ => g
  end.

(** lines 487-489 *)
Definition gameIsInstalled (val : Game.t) : bool :=
  bool_decide (0 < install_keys (Game.install val))%nat.

(** [listingMap[val.app_name]?.releaseName]: no property of
    [Object.prototype] has a [releaseName]. *)
Definition releaseName_of (listed : Property Release.t) : option string :=
  match listed with
  | own release => Some (Release.releaseName release)
  | _ => None
  end.

(** [if (differs) updateableGames.push(val.app_name)] *)
Definition push_when (differs : bool) (val : Game.t)
    (updateableGames : list string) : Outcome (list string) :=
  if differs then Returned (updateableGames ++ [Game.app_name val])
  else Returned updateableGames.

(** lines 460-485: what the callback does for one game to
    [updateableGames].  For a channel that is not among the channels
    [val.channels[channelName]] is [undefined] and reading its [version]
    throws, unless the name is an inherited property, whose [version] is
    [undefined]. *)
Definition updateable_game (listingMap : gmap string Release.t)
    (val : Game.t) (updateableGames : list string) : Outcome (list string) :=
  let inst := Game.install val in
  let deprecated :=
    push_when
      (bool_decide
         (Install.version inst <>
          releaseName_of (get listingMap (Game.app_name val))))
      val updateableGames in
  if bool_decide (Install.platform inst = Some "web") then Returned updateableGames
  else if negb (gameIsInstalled val) then Returned updateableGames
  else
    match Game.channels val, Install.channelName inst with
    | Some channels, Some channelName =>
        if truthy channelName then
          match channels !! channelName with
          | Some channel =>
              push_when
                (bool_decide
                   (Install.version inst <> Some (channel_version channel)))
                val updateableGames
          | None =>
              if inherited_property channelName then
                push_when (bool_decide (Install.version inst <> None))
                  val updateableGames
              else Raised "TypeError"
          end
        else deprecated
    | _, _ => deprecated
    end.

(** The games the callback goes on with after lines 461-465: installed,
    and not on the web. *)
Definition update_candidate (val : Game.t) : Prop :=
  Install.platform (Game.install val) <> Some "web" /\
  gameIsInstalled val = true.

(** An update candidate whose install names a channel that its channels
    do not hold (and that no object inherits). *)
Definition tracks_unknown_channel (val : Game.t) : Prop :=
  update_candidate val /\
  exists channels channelName,
    Game.channels val = Some channels /\
    Install.channelName (Game.install val) = Some channelName /\
    channelName <> "" /\ channels !! channelName = None /\
    inherited_property channelName = false.

(** The names the callback adds for one game. *)
Definition update_of (listingMap : gmap string Release.t) (val : Game.t)
  : list string :=
  match updateable_game listingMap val [] with
  | Returned names => names
  | Raised _ => []
  end.

(** lines 454-492 *)
Definition listUpdateableGames (listing : Outcome (list Release.t))
    (currentHpLibrary : list Game.t) : Outcome (list string) :=
  match listing with
  | Raised exn => Raised exn
  | Returned hpStoreGameReleases =>
      let listingMap := getHyperPlayReleaseMap hpStoreGameReleases in
      foldl (fun acc val =>
               match acc with
               | Returned updateableGames =>
                   updateable_game listingMap val updateableGames
               | Raised exn => Raised exn
               end)
            (Returned []) currentHpLibrary
  end.

End Library.

(** *** Sample data *)

Definition sample_platform : PlatformInfo :=
  {| external_url := Some "https://play.example/game";
     downloadSize := "1024"; installSize := "2048" |}.

(** A release with one platform and the channel ['main']. *)
Definition sample_release (id platform channel_v : string) : Release.t :=
  {| Release._id := id;
     Release.accountName := "studio";
     Release.accountMeta_name := None;
     Release.projectName := "game";
     Release.projectMeta :=
       {| name := "Game"; description := ""; short_description := "";
          projectMeta_image := None; main_capsule := None;
          systemRequirements := "{}" |};
     Release.releaseName := channel_v;
     Release.releaseMeta :=
       {| releaseMeta_image := None;
          platforms := {[ platform := sample_platform ]} |};
     Release.channels := Some {[ "main" := {| channel_version := channel_v |} ]};
     Release.releases := [] |}.

Definition with_install (i : Install.t) (g : Game.t) : Game.t :=
  {| Game.app_name := Game.app_name g; Game.extra := Game.extra g;
     Game.thirdPartyManagedApp := Game.thirdPartyManagedApp g;
     Game.web3_supported := Game.web3_supported g;
     Game.runner := Game.runner g; Game.title := Game.title g;
     Game.art_square := Game.art_square g; Game.art_cover := Game.art_cover g;
     Game.is_installed := Game.is_installed g;
     Game.cloud_save_enabled := Game.cloud_save_enabled g;
     Game.namespace := Game.namespace g; Game.developer := Game.developer g;
     Game.store_url := Game.store_url g; Game.folder_name := Game.folder_name g;
     Game.save_folder := Game.save_folder g;
     Game.is_mac_native := Game.is_mac_native g;
     Game.is_linux_native := Game.is_linux_native g;
     Game.canRunOffline := Game.canRunOffline g;
     Game.install := i;
     Game.releaseMeta := Game.releaseMeta g; Game.version := Game.version g;
     Game.channels := Game.channels g; Game.releases := Game.releases g;
     Game.browserUrl := Game.browserUrl g |}.

(** An install of version [v] that tracks the channel [channel]. *)
Definition installed_at (v channel : string) : Install.t :=
  {| Install.platform := Some "windows_amd64";
     Install.executable := Some "C:/games/game.exe";
     Install.version := Some v;
     Install.channelName := Some channel;
     Install.others := 0 |}.

Definition sample_testJson : Release.t := sample_release testId "web" "1.0".

Definition sample_web : Game.t := gameInfo_of (sample_release "web-game" "web" "1.0").

Definition sample_native : Game.t :=
  with_install (installed_at "1.0" "main")
    (gameInfo_of (sample_release "native-game" "windows_amd64" "1.0")).

(** A game installed at an older version than its channel has. *)
Definition sample_outdated : Game.t :=
  with_install (installed_at "0.9" "main")
    (gameInfo_of (sample_release "outdated-game" "windows_amd64" "1.0")).

(** A game whose install tracks a channel the game does not have. *)
Definition sample_stray : Game.t :=
  with_install (installed_at "1.0" "beta")
    (gameInfo_of (sample_release "stray-game" "windows_amd64" "1.0")).

Definition sample_library : list Game.t := [sample_web; sample_native].

(** The listing with a newer release of the native game. *)
Definition sample_listing : list Release.t :=
  [sample_release "native-game" "windows_amd64" "2.0"].

Definition windows : Host := {| isWindows := true; isMac := false; isLinux := false |}.
Definition linux : Host := {| isWindows := false; isMac := false; isLinux := true |}.

End HyperPlay.

(** * Properties *)

(** ** Lists *)

Lemma findIndex_Some {A : Type} (p : A -> bool) (l : list A) (i : nat) :
  findIndex p l = Some i ->
  exists x, l !! i = Some x /\ p x = true /\
    forall j y, (j < i)%nat -> l !! j = Some y -> p y = false.
Proof.
  revert i. induction l as [|a l IH]; intros i H; simpl in H; [discriminate|].
  destruct (p a) eqn:Hpa.
  - injection H as <-. exists a. split; [reflexivity|]. split; [assumption|].
    intros j y Hj. lia.
  - destruct (findIndex p l) as [k|] eqn:Hk; simpl in H; [|discriminate].
    injection H as <-. destruct (IH k eq_refl) as (x & Hx & Hpx & Hmin).
    exists x. split; [exact Hx|]. split; [exact Hpx|].
    intros [|j] y Hj Hy; simpl in Hy.
    + injection Hy as <-. exact Hpa.
    + apply (Hmin j y); [lia | exact Hy].
Qed.

Lemma findIndex_None {A : Type} (p : A -> bool) (l : list A) :
  findIndex p l = None <-> Forall (fun x => p x = false) l.
Proof.
  induction l as [|a l IH]; simpl.
  - split; [constructor | reflexivity].
  - destruct (p a) eqn:Hpa.
    + split; [discriminate|]. intros H. inversion H; congruence.
    + destruct (findIndex p l); simpl.
      * split; [discriminate|]. intros H. inversion H as [|? ? _ Hl]; subst.
        apply IH in Hl. discriminate.
      * split; [|reflexivity]. intros _. constructor; [exact Hpa|].
        apply IH. reflexivity.
Qed.

Lemma findIndex_snoc {A : Type} (p : A -> bool) (l : list A) (x : A) :
  findIndex p l = None ->
  findIndex p (l ++ [x]) = if p x then Some (length l) else None.
Proof.
  induction l as [|a l IH]; simpl; [by destruct (p x)|].
  destruct (p a); [discriminate|].
  destruct (findIndex p l); simpl; [discriminate|]. intros _.
  rewrite (IH eq_refl). by destruct (p x).
Qed.

Lemma findIndex_insert_same {A : Type} (p : A -> bool) (l : list A) (i : nat)
    (x : A) :
  findIndex p l = Some i -> p x = true -> findIndex p (<[i := x]> l) = Some i.
Proof.
  revert i. induction l as [|a l IH]; intros i; simpl; [discriminate|].
  destruct (p a) eqn:Hpa.
  - intros [= <-] Hx. simpl. by rewrite Hx.
  - destruct (findIndex p l) as [k|]; simpl; [|discriminate].
    intros [= <-] Hx. simpl. rewrite Hpa. by rewrite (IH k eq_refl Hx).
Qed.

Lemma has_appName_true (name : string) (el : DMQueueElement) :
  has_appName name el = true <-> appName (params el) = name.
Proof. unfold has_appName. apply bool_decide_eq_true. Qed.

Lemma has_appName_false (name : string) (el : DMQueueElement) :
  has_appName name el = false <-> appName (params el) <> name.
Proof. unfold has_appName. apply bool_decide_eq_false. Qed.

Lemma findIndex_appName_None (name : string) (l : list DMQueueElement) :
  findIndex (has_appName name) l = None <-> name ∉ appNames l.
Proof.
  rewrite findIndex_None. unfold appNames. rewrite Forall_forall. split.
  - intros H Hin. apply list_elem_of_fmap in Hin as (x & -> & Hx).
    apply H in Hx. apply has_appName_false in Hx. congruence.
  - intros H x Hx. apply has_appName_false. intros Heq. apply H.
    apply list_elem_of_fmap. exists x. split; [congruence | exact Hx].
Qed.

Lemma findIndex_appName_Some (name : string) (l : list DMQueueElement) (i : nat) :
  findIndex (has_appName name) l = Some i ->
  exists old, l !! i = Some old /\ appName (params old) = name /\
    forall j y, (j < i)%nat -> l !! j = Some y -> appName (params y) <> name.
Proof.
  intros H. apply findIndex_Some in H as (x & Hx & Hp & Hmin).
  exists x. split; [exact Hx|]. split; [apply has_appName_true; exact Hp|].
  intros j y Hj Hy. apply has_appName_false. apply (Hmin j y Hj Hy).
Qed.

Lemma findIndex_appName_elem (name : string) (l : list DMQueueElement) :
  name ∈ appNames l -> exists i, findIndex (has_appName name) l = Some i.
Proof.
  intros Hin. destruct (findIndex (has_appName name) l) as [i|] eqn:H.
  - exists i. reflexivity.
  - apply findIndex_appName_None in H. contradiction.
Qed.

Lemma appNames_insert_same (l : list DMQueueElement) (i : nat)
    (old new : DMQueueElement) :
  l !! i = Some old -> appName (params old) = appName (params new) ->
  appNames (<[i := new]> l) = appNames l.
Proof.
  intros Hl Hn. unfold appNames. rewrite list_fmap_insert.
  apply list_insert_id. rewrite list_lookup_fmap, Hl. simpl. congruence.
Qed.

Lemma appNames_app (l k : list DMQueueElement) :
  appNames (l ++ k) = appNames l ++ appNames k.
Proof. unfold appNames. apply fmap_app. Qed.

Lemma NoDup_appNames_snoc (l : list DMQueueElement) (el : DMQueueElement) :
  NoDup (appNames l) -> appName (params el) ∉ appNames l ->
  NoDup (appNames (l ++ [el])).
Proof.
  intros Hnd Hnotin. rewrite appNames_app. apply NoDup_app.
  split; [exact Hnd|]. split.
  - intros x Hx Hx'. simpl in Hx'. apply list_elem_of_singleton in Hx'. congruence.
  - simpl. apply NoDup_singleton.
Qed.

Lemma NoDup_appNames_delete (l : list DMQueueElement) (i : nat) :
  NoDup (appNames l) -> NoDup (appNames (delete i l)).
Proof.
  intros H. unfold appNames. rewrite list_fmap_delete.
  eapply sublist_NoDup; [exact H | apply sublist_delete].
Qed.

Lemma NoDup_queue_with (t : DMQueueElement) (l : list DMQueueElement) :
  NoDup (appNames l) -> NoDup (appNames (queue_with t l)).
Proof.
  intros H. unfold queue_with.
  destruct (findIndex _ l) as [i|] eqn:Hi.
  - apply findIndex_appName_Some in Hi as (old & Hold & Hn & _).
    rewrite (appNames_insert_same l i old t Hold Hn). exact H.
  - apply findIndex_appName_None in Hi. apply NoDup_appNames_snoc; assumption.
Qed.

Lemma NoDup_finished_with (el : DMQueueElement) (st : option DMStatus)
    (l : list DMQueueElement) :
  NoDup (appNames l) -> NoDup (appNames (finished_with el st l)).
Proof.
  intros H. unfold finished_with.
  destruct (findIndex _ l) as [i|] eqn:Hi.
  - apply findIndex_appName_Some in Hi as (old & Hold & Hn & _).
    rewrite (appNames_insert_same l i old _ Hold); [exact H | exact Hn].
  - apply findIndex_appName_None in Hi. apply NoDup_appNames_snoc; assumption.
Qed.

(** ** The store and the private functions *)

Lemma store_get_set_eq (key : string) (v : list DMQueueElement) (m : Manager) :
  store_get key (store_set key v m) = v.
Proof. unfold store_get, store_set. simpl. by rewrite lookup_insert_eq. Qed.

Lemma store_get_set_ne (key key' : string) (v : list DMQueueElement) (m : Manager) :
  key <> key' -> store_get key' (store_set key v m) = store_get key' m.
Proof. intros H. unfold store_get, store_set. simpl. by rewrite lookup_insert_ne. Qed.

Lemma store_has_false (key : string) (m : Manager) :
  store_has key m = false -> store_get key m = [].
Proof.
  unfold store_has, store_get. intros H. apply bool_decide_eq_false in H.
  destruct (downloadManager m !! key) eqn:E; [|reflexivity].
  exfalso. apply H. eauto.
Qed.

Lemma store_has_true (key : string) (m : Manager) :
  store_has key m = true <-> is_Some (downloadManager m !! key).
Proof. unfold store_has. apply bool_decide_eq_true. Qed.

Lemma store_has_nonempty (key : string) (m : Manager) :
  store_get key m <> [] -> store_has key m = true.
Proof.
  intros H. destruct (store_has key m) eqn:E; [reflexivity|].
  apply store_has_false in E. contradiction.
Qed.

Lemma addToFinished_store (el : DMQueueElement) (st : option DMStatus) (m : Manager) :
  downloadManager (addToFinished el st m) =
  <["finished" := finished_with el st (store_get "finished" m)]> (downloadManager m).
Proof. reflexivity. Qed.

Lemma addToFinished_finished (el : DMQueueElement) (st : option DMStatus) (m : Manager) :
  store_get "finished" (addToFinished el st m) =
  finished_with el st (store_get "finished" m).
Proof. unfold store_get at 1. rewrite addToFinished_store. by rewrite lookup_insert_eq. Qed.

Lemma addToFinished_queue (el : DMQueueElement) (st : option DMStatus) (m : Manager) :
  downloadManager (addToFinished el st m) !! "queue" = downloadManager m !! "queue".
Proof. rewrite addToFinished_store. by rewrite lookup_insert_ne. Qed.

Lemma addToFinished_trace (el : DMQueueElement) (st : option DMStatus) (m : Manager) :
  trace (addToFinished el st m) =
  trace m ++ [storeSet "finished" (finished_with el st (store_get "finished" m));
              logInfo [appName (params el); "added to download manager finished."]].
Proof. unfold addToFinished, store_set, emit. simpl. by rewrite <- app_assoc. Qed.

Lemma removeFromQueue_store (name : string) (m : Manager) :
  downloadManager (removeFromQueue name m) =
  if truthy name && store_has "queue" m then
    match findIndex (has_appName name) (store_get "queue" m) with
    | Some index => <["queue" := delete index (store_get "queue" m)]> (downloadManager m)
    | None => downloadManager m
    end
  else downloadManager m.
Proof.
  unfold removeFromQueue.
  destruct (truthy name && store_has "queue" m); [|reflexivity].
  destruct (findIndex _ _); simpl; [apply insert_delete_eq | reflexivity].
Qed.

Lemma removeFromQueue_queue (name : string) (m : Manager) :
  store_get "queue" (removeFromQueue name m) =
  if truthy name then
    match findIndex (has_appName name) (store_get "queue" m) with
    | Some index => delete index (store_get "queue" m)
    | None => store_get "queue" m
    end
  else store_get "queue" m.
Proof.
  unfold store_get at 1. rewrite removeFromQueue_store.
  destruct (truthy name); simpl; [|reflexivity].
  destruct (store_has "queue" m) eqn:Hhas.
  - destruct (findIndex _ _); [by rewrite lookup_insert_eq | reflexivity].
  - apply store_has_false in Hhas. fold (store_get "queue" m).
    rewrite Hhas. reflexivity.
Qed.

Lemma removeFromQueue_finished (name : string) (m : Manager) :
  downloadManager (removeFromQueue name m) !! "finished" =
  downloadManager m !! "finished".
Proof.
  rewrite removeFromQueue_store.
  destruct (truthy name && store_has "queue" m); [|reflexivity].
  destruct (findIndex _ _); [by rewrite lookup_insert_ne | reflexivity].
Qed.

Lemma removeFromQueue_flags (name : string) (m : Manager) :
  queueState (removeFromQueue name m) = queueState m /\
  loops (removeFromQueue name m) = loops m /\
  clock (removeFromQueue name m) = clock m /\
  later (removeFromQueue name m) = later m.
Proof.
  unfold removeFromQueue.
  destruct (truthy name && store_has "queue" m); [|done].
  destruct (findIndex _ _); done.
Qed.

(** The effects of [removeFromQueue] when its guard holds: the store
    writes of a removal, if any, then the two notifications. *)
Lemma removeFromQueue_trace (name : string) (m : Manager) :
  truthy name && store_has "queue" m = true ->
  trace (removeFromQueue name m) =
  trace m ++
  match findIndex (has_appName name) (store_get "queue" m) with
  | Some index => [storeDelete "queue";
                   storeSet "queue" (delete index (store_get "queue" m))]
  | None => []
  end ++
  [gameStatusUpdate name None None "done";
   logInfo [name; "removed from download manager."];
   changedDMQueueInformation (store_get "queue" (removeFromQueue name m))].
Proof.
  intros Hg. rewrite removeFromQueue_queue.
  apply andb_true_iff in Hg as Htruthy. destruct Htruthy as [-> _].
  unfold removeFromQueue. rewrite Hg.
  destruct (findIndex _ _); simpl; rewrite <- !app_assoc; reflexivity.
Qed.

Lemma removeFromQueue_guard_false (name : string) (m : Manager) :
  truthy name && store_has "queue" m = false -> removeFromQueue name m = m.
Proof. intros H. unfold removeFromQueue. by rewrite H. Qed.

(** ** The segments of the loop body keep the invariants *)

Lemma appNames_assign_head (e e' : DMQueueElement) (q : list DMQueueElement) :
  appName (params e') = appName (params e) ->
  appNames (assign_head e' q) = appNames (assign_head e q).
Proof. intros H. destruct q; simpl; congruence. Qed.

Lemma appNames_assign_head_same (e : DMQueueElement) (q : list DMQueueElement) :
  head q = Some e -> appNames (assign_head e q) = appNames q.
Proof. destruct q; simpl; [discriminate|]. intros [= ->]. reflexivity. Qed.

Lemma operation_settled_flags (el : DMQueueElement) (st : option DMStatus)
    (m : Manager) :
  queueState (operation_settled el st m).1 = queueState m /\
  loops (operation_settled el st m).1 = loops m.
Proof.
  unfold operation_settled. simpl.
  destruct (removeFromQueue_flags (appName (params el))
              (addToFinished (with_endTime (clock m) el) st (tick m))) as (-> & -> & _).
  done.
Qed.

Lemma operation_settled_segment (el : DMQueueElement) (st : option DMStatus)
    (m : Manager) :
  (operation_settled el st m).2 =
  iterates (getFirstQueueElement (operation_settled el st m).1).
Proof. reflexivity. Qed.

Lemma operation_settled_queue (el : DMQueueElement) (st : option DMStatus)
    (m : Manager) :
  store_get "queue" (operation_settled el st m).1 =
  if truthy (appName (params el)) then
    match findIndex (has_appName (appName (params el))) (store_get "queue" m) with
    | Some index => delete index (store_get "queue" m)
    | None => store_get "queue" m
    end
  else store_get "queue" m.
Proof.
  unfold operation_settled. simpl. rewrite removeFromQueue_queue.
  unfold store_get. rewrite addToFinished_queue. reflexivity.
Qed.

Lemma operation_settled_finished (el : DMQueueElement) (st : option DMStatus)
    (m : Manager) :
  store_get "finished" (operation_settled el st m).1 =
  finished_with (with_endTime (clock m) el) st (store_get "finished" m).
Proof.
  unfold operation_settled. simpl. unfold store_get at 1.
  rewrite removeFromQueue_finished.
  exact (addToFinished_finished (with_endTime (clock m) el) st (tick m)).
Qed.

Lemma operation_settled_deduplicated (el : DMQueueElement) (st : option DMStatus)
    (m : Manager) :
  deduplicated m ->
  deduplicated (operation_settled el st m).1 /\
  segment_ok (operation_settled el st m).1 (operation_settled el st m).2.
Proof.
  intros (Hq & Hf & Hl). split; [|reflexivity]. split; [|split].
  - rewrite operation_settled_queue. destruct (truthy _); [|exact Hq].
    destruct (findIndex _ _); [by apply NoDup_appNames_delete | exact Hq].
  - rewrite operation_settled_finished. by apply NoDup_finished_with.
  - destruct (operation_settled_flags el st m) as (_ & ->). exact Hl.
Qed.

Lemma size_resolved_flags (el : DMQueueElement) (q : list DMQueueElement)
    (m : Manager) :
  queueState (size_resolved el q m).1 = queueState m /\
  loops (size_resolved el q m).1 = loops m.
Proof.
  unfold size_resolved. destruct (dispatch _); [done|].
  destruct (operation_settled_flags (with_startTime (clock m) el) (Some error)
              (store_set "queue" (assign_head (with_startTime (clock m) el) q)
                 (tick m)))
    as (-> & ->).
  done.
Qed.

Lemma size_resolved_deduplicated (el : DMQueueElement) (q : list DMQueueElement)
    (m : Manager) :
  NoDup (appNames (assign_head el q)) ->
  NoDup (appNames (store_get "finished" m)) ->
  Forall snapshot_ok (loops m) ->
  deduplicated (size_resolved el q m).1 /\
  segment_ok (size_resolved el q m).1 (size_resolved el q m).2.
Proof.
  intros Hq Hf Hl.
  assert (Hm : deduplicated
            (store_set "queue" (assign_head (with_startTime (clock m) el) q)
               (tick m))).
  { split; [|split]; [| |exact Hl].
    - rewrite store_get_set_eq.
      rewrite (appNames_assign_head el); [exact Hq | reflexivity].
    - rewrite store_get_set_ne; [exact Hf | done]. }
  unfold size_resolved. destruct (dispatch _).
  - split; [exact Hm | exact I].
  - by apply operation_settled_deduplicated.
Qed.

Lemma iteration_flags (el : DMQueueElement) (m : Manager) :
  queueState (iteration el m).1 = queueState m /\
  loops (iteration el m).1 = loops m.
Proof.
  unfold iteration. destruct (manifest_runner _); [done|].
  apply (size_resolved_flags _ _ (emit _ m)).
Qed.

Lemma iteration_deduplicated (el : DMQueueElement) (m : Manager) :
  deduplicated m -> getFirstQueueElement m = Some el ->
  deduplicated (iteration el m).1 /\
  segment_ok (iteration el m).1 (iteration el m).2.
Proof.
  intros (Hq & Hf & Hl) Hhead. unfold getFirstQueueElement in Hhead.
  unfold iteration. destruct (manifest_runner _).
  - split; [by split|]. simpl.
    rewrite (appNames_assign_head_same _ _ Hhead). exact Hq.
  - apply (size_resolved_deduplicated _ _ (emit _ m)); [|exact Hf|exact Hl].
    rewrite (appNames_assign_head el); [|reflexivity].
    rewrite (appNames_assign_head_same _ _ Hhead). exact Hq.
Qed.

Lemma iteration_iterates (el : DMQueueElement) (m : Manager)
    (o : option DMQueueElement) :
  (iteration el m).2 = iterates o -> o = getFirstQueueElement (iteration el m).1.
Proof.
  unfold iteration. destruct (manifest_runner _); [discriminate|].
  unfold size_resolved. destruct (dispatch _); [discriminate|].
  rewrite operation_settled_segment. by intros [= <-].
Qed.

Section Properties.

Variable getFileSize : Z -> string.

(** ** The loop keeps the invariants *)

Lemma installInfo_settled_flags (el : DMQueueElement) (q : list DMQueueElement)
    (r : Outcome (option InstallInfo)) (m : Manager) :
  queueState (installInfo_settled getFileSize el q r m).1 = queueState m /\
  loops (installInfo_settled getFileSize el q r m).1 = loops m.
Proof. destruct r; simpl; [apply size_resolved_flags | done]. Qed.

Lemma operation_result_flags (el : DMQueueElement) (r : Outcome (option DMStatus))
    (m : Manager) :
  queueState (operation_result el r m).1 = queueState m /\
  loops (operation_result el r m).1 = loops m.
Proof. destruct r; simpl; [apply operation_settled_flags | done]. Qed.

Lemma drive_deduplicated (fuel : nat) (m : Manager) (seg : Segment)
    (e : LoopEnd) (m' : Manager) :
  deduplicated m -> segment_ok m seg -> drive fuel m seg = Some (e, m') ->
  deduplicated m'.
Proof.
  revert m seg. induction fuel as [|fuel IH]; intros m seg Hm Hseg Hrun;
    destruct seg as [s|[el|]|exn]; simpl in Hrun; try discriminate;
    try (injection Hrun as <- <-).
  1,4: destruct Hm as (Hq & Hf & Hl); split; [exact Hq|]; split; [exact Hf|];
       simpl; apply Forall_app; split; [exact Hl|]; by constructor.
  1,2,4,5: exact Hm.
  simpl in Hseg. symmetry in Hseg.
  destruct (iteration_deduplicated el m Hm Hseg) as [Hm1 Hseg1].
  destruct (iteration el m) as [m1 seg1]. by apply (IH m1 seg1).
Qed.

Lemma resume_deduplicated (i : nat) (m : Manager) :
  deduplicated m -> deduplicated (resume i m).
Proof.
  intros (Hq & Hf & Hl). split; [exact Hq|]. split; [exact Hf|]. simpl.
  by apply Forall_delete.
Qed.

Lemma enqueue_queue (t : DMQueueElement) (m : Manager) :
  store_get "queue" (enqueue t m) = queue_with t (store_get "queue" m).
Proof. unfold enqueue, store_get. simpl. by rewrite lookup_insert_eq. Qed.

Lemma enqueue_finished (t : DMQueueElement) (m : Manager) :
  downloadManager (enqueue t m) !! "finished" = downloadManager m !! "finished".
Proof. unfold enqueue. simpl. by rewrite lookup_insert_ne. Qed.

Lemma enqueue_deduplicated (t : DMQueueElement) (m : Manager) :
  deduplicated m -> deduplicated (enqueue t m).
Proof.
  intros (Hq & Hf & Hl). split; [|split]; [| |exact Hl].
  - rewrite enqueue_queue. by apply NoDup_queue_with.
  - unfold store_get. rewrite enqueue_finished. exact Hf.
Qed.

Lemma removeFromQueue_deduplicated (name : string) (m : Manager) :
  deduplicated m -> deduplicated (removeFromQueue name m).
Proof.
  intros (Hq & Hf & Hl). split; [|split].
  - rewrite removeFromQueue_queue. destruct (truthy name); [|exact Hq].
    destruct (findIndex _ _); [by apply NoDup_appNames_delete | exact Hq].
  - unfold store_get. rewrite removeFromQueue_finished. exact Hf.
  - destruct (removeFromQueue_flags name m) as (_ & -> & _). exact Hl.
Qed.

Lemma initQueue_deduplicated (fuel : nat) (m : Manager) (e : LoopEnd)
    (m' : Manager) :
  deduplicated m -> initQueue fuel m = Some (e, m') -> deduplicated m'.
Proof.
  intros Hm Hrun. unfold initQueue in Hrun.
  eapply drive_deduplicated; [| |exact Hrun]; [exact Hm | reflexivity].
Qed.

Lemma exec_deduplicated (fuel : nat) (i : Input) (m m' : Manager) :
  deduplicated m -> exec getFileSize fuel i m = Some m' -> deduplicated m'.
Proof.
  intros Hm Hrun.
  destruct i as [|[t|]|name|i r|i r|now readings]; cbn [exec addToQueue] in Hrun.
  - destruct (initQueue fuel m) as [[e m1]|] eqn:Hinit; simpl in Hrun;
      [|discriminate].
    injection Hrun as <-. by eapply initQueue_deduplicated.
  - apply (enqueue_deduplicated t) in Hm.
    destruct (queueState (enqueue t m)).
    + destruct (initQueue fuel (enqueue t m)) as [[e m1]|] eqn:Hinit;
        simpl in Hrun; [|discriminate].
      injection Hrun as <-. by eapply initQueue_deduplicated.
    + by injection Hrun as <-.
  - by injection Hrun as <-.
  - injection Hrun as <-. by apply removeFromQueue_deduplicated.
  - destruct (loops m !! i) as [[el q|el]|] eqn:Hi;
      [|by injection Hrun as <-..].
    assert (Hs : snapshot_ok (awaiting_getInstallInfo el q)).
    { destruct Hm as (_ & _ & Hl). eapply Forall_lookup_1; eauto. }
    apply (resume_deduplicated i) in Hm.
    destruct r as [info|exn]; cbn [installInfo_settled] in Hrun.
    + destruct Hm as (Hq & Hf & Hl).
      destruct (size_resolved_deduplicated
                  (with_params (with_size (resolved_size getFileSize info)
                                  (params el)) el) q (resume i m))
        as [Hm1 Hseg1]; [|exact Hf|exact Hl|].
      { rewrite (appNames_assign_head el); [exact Hs | reflexivity]. }
      destruct (size_resolved _ q (resume i m)) as [m1 seg1].
      destruct (drive fuel m1 seg1) as [[e m2]|] eqn:Hd; simpl in Hrun;
        [|discriminate].
      injection Hrun as <-. by eapply drive_deduplicated.
    + destruct fuel; simpl in Hrun; by injection Hrun as <-.
  - destruct (loops m !! i) as [[el q|el]|] eqn:Hi;
      [by injection Hrun as <-| |by injection Hrun as <-].
    apply (resume_deduplicated i) in Hm.
    destruct r as [st|exn]; cbn [operation_result] in Hrun.
    + destruct (operation_settled_deduplicated el st (resume i m) Hm)
        as [Hm1 Hseg1].
      destruct (operation_settled el st (resume i m)) as [m1 seg1].
      destruct (drive fuel m1 seg1) as [[e m2]|] eqn:Hd; simpl in Hrun;
        [|discriminate].
      injection Hrun as <-. by eapply drive_deduplicated.
    + destruct fuel; simpl in Hrun; by injection Hrun as <-.
  - by injection Hrun as <-.
Qed.

Lemma reachable_deduplicated (m0 m : Manager) :
  deduplicated m0 -> reachable getFileSize m0 m -> deduplicated m.
Proof.
  intros H0 Hreach. induction Hreach as [|m fuel i m' _ IH Hexec]; [exact H0|].
  by eapply exec_deduplicated.
Qed.

(** ** The trace only grows *)

Lemma emit_prefix (e : Effect) (m : Manager) : trace m `prefix_of` trace (emit e m).
Proof. by exists [e]. Qed.

Lemma store_set_prefix (key : string) (v : list DMQueueElement) (m : Manager) :
  trace m `prefix_of` trace (store_set key v m).
Proof. by exists [storeSet key v]. Qed.

Lemma removeFromQueue_prefix (name : string) (m : Manager) :
  trace m `prefix_of` trace (removeFromQueue name m).
Proof.
  destruct (truthy name && store_has "queue" m) eqn:Hg.
  - rewrite (removeFromQueue_trace name m Hg). by eexists.
  - by rewrite (removeFromQueue_guard_false name m Hg).
Qed.

Lemma operation_settled_prefix (el : DMQueueElement) (st : option DMStatus)
    (m : Manager) :
  trace m `prefix_of` trace (operation_settled el st m).1.
Proof.
  unfold operation_settled. simpl.
  etrans; [|apply removeFromQueue_prefix].
  rewrite addToFinished_trace. by eexists.
Qed.

Lemma size_resolved_prefix (el : DMQueueElement) (q : list DMQueueElement)
    (m : Manager) :
  trace m `prefix_of` trace (size_resolved el q m).1.
Proof.
  unfold size_resolved. destruct (dispatch _).
  - simpl. rewrite <- app_assoc. by eexists.
  - etrans; [|apply operation_settled_prefix].
    exact (store_set_prefix _ _ (tick m)).
Qed.

Lemma iteration_prefix (el : DMQueueElement) (m : Manager) :
  trace m `prefix_of` trace (iteration el m).1.
Proof.
  unfold iteration. destruct (manifest_runner _).
  - simpl. rewrite <- app_assoc. by eexists.
  - etrans; [|apply size_resolved_prefix]. apply emit_prefix.
Qed.

Lemma drive_prefix (fuel : nat) (m : Manager) (seg : Segment) (e : LoopEnd)
    (m' : Manager) :
  drive fuel m seg = Some (e, m') -> trace m `prefix_of` trace m'.
Proof.
  revert m seg. induction fuel as [|fuel IH]; intros m seg Hrun;
    destruct seg as [s|[el|]|exn]; simpl in Hrun; try discriminate;
    try (injection Hrun as <- <-); try done; try apply emit_prefix.
  pose proof (iteration_prefix el m) as Hit.
  destruct (iteration el m) as [m1 seg1]. etrans; [exact Hit|]. by eapply IH.
Qed.

Lemma enqueue_trace (t : DMQueueElement) (m : Manager) :
  trace (enqueue t m) =
  trace m ++
  [gameStatusUpdate (appName (params t)) (Some (runner (params t)))
     (Some (path (params t))) "queued";
   storeSet "queue" (store_get "queue" (enqueue t m));
   logInfo [gameInfo_title (params t); " was added to the download queue."];
   changedDMQueueInformation (store_get "queue" (enqueue t m))].
Proof.
  rewrite enqueue_queue. unfold enqueue, store_set, emit. simpl.
  rewrite <- !app_assoc. reflexivity.
Qed.

Lemma addToQueue_prefix (fuel : nat) (t : DMQueueElement) (m m' : Manager) :
  addToQueue fuel (Some t) m = Some m' ->
  trace (enqueue t m) `prefix_of` trace m'.
Proof.
  cbn [addToQueue]. destruct (queueState (enqueue t m)).
  - destruct (initQueue fuel (enqueue t m)) as [[e m1]|] eqn:Hinit;
      simpl; [|discriminate].
    intros [= <-]. unfold initQueue in Hinit. by apply drive_prefix in Hinit.
  - by intros [= <-].
Qed.

(** ** Enqueueing *)


(** ** The Finished history *)

Lemma finished_with_overwrite (el : DMQueueElement) (st : option DMStatus)
    (h : list DMQueueElement) :
  appName (params el) ∈ appNames h ->
  exists i old,
    h !! i = Some old /\ appName (params old) = appName (params el) /\
    (forall j y, (j < i)%nat -> h !! j = Some y ->
       appName (params y) <> appName (params el)) /\
    finished_with el st h = <[i := with_status (Some (default abort st)) el]> h.
Proof.
  intros Hin. apply findIndex_appName_elem in Hin as [i Hi].
  pose proof (findIndex_appName_Some _ h i Hi) as (old & Hold & Hn & Hmin).
  exists i, old. unfold finished_with. by rewrite Hi.
Qed.

Lemma finished_with_append (el : DMQueueElement) (st : option DMStatus)
    (h : list DMQueueElement) :
  appName (params el) ∉ appNames h ->
  finished_with el st h = h ++ [with_status st el].
Proof.
  intros Hnotin. apply findIndex_appName_None in Hnotin.
  unfold finished_with. by rewrite Hnotin.
Qed.

Lemma finished_with_elem (el : DMQueueElement) (s : DMStatus)
    (h : list DMQueueElement) :
  with_status (Some s) el ∈ finished_with el (Some s) h.
Proof.
  destruct (decide (appName (params el) ∈ appNames h)) as [Hin|Hnotin].
  - destruct (finished_with_overwrite el (Some s) h Hin)
      as (i & old & Hold & _ & _ & ->).
    apply list_elem_of_lookup. exists i.
    apply list_lookup_insert_eq. by apply lookup_lt_Some in Hold.
  - rewrite (finished_with_append el (Some s) h Hnotin).
    apply elem_of_app. right. apply list_elem_of_singleton. reflexivity.
Qed.

Lemma finished_with_entry (el : DMQueueElement) (st : option DMStatus)
    (h : list DMQueueElement) :
  exists e,
    e ∈ finished_with el st h /\ params e = params el /\ type e = type el /\
    startTime e = startTime el /\ endTime e = endTime el /\
    (forall s, st = Some s -> status e = Some s).
Proof.
  unfold finished_with. destruct (findIndex _ h) as [i|] eqn:Hi.
  - apply findIndex_appName_Some in Hi as (old & Hold & _).
    exists (with_status (Some (default abort st)) el). split.
    + apply list_elem_of_lookup. exists i.
      apply list_lookup_insert_eq. by apply lookup_lt_Some in Hold.
    + do 4 (split; [reflexivity|]). by intros s ->.
  - exists (with_status st el).
    split; [apply elem_of_app; right; by left|].
    do 4 (split; [reflexivity|]). by intros s ->.
Qed.

(** C3. For every Finished history and every retired task,
    [addToFinished] keeps the history deduplicated by name: an entry with
    the name of the task is overwritten in place by the task tagged with
    the status the dispatched operation returned, otherwise the tagged
    task is appended.  The tagged task is the task in every field but
    [status], which is the returned status.  This is also what the loop
    does when it retires a task: the entry it records has the status the
    operation returned and the time of line 121 as its end.  A history
    without duplicate names has none afterwards, nor after any sequence of
    inputs. *)
Theorem addToFinished_deduplicates (element : DMQueueElement) (s : DMStatus)
    (m : Manager) :
  let name := appName (params element) in
  let h := store_get "finished" m in
  let h' := store_get "finished" (addToFinished element (Some s) m) in
  let tagged (e : DMQueueElement) :=
    status e = Some s /\ params e = params element /\ type e = type element /\
    addToQueueTime e = addToQueueTime element /\
    startTime e = startTime element /\ endTime e = endTime element in
  (name ∈ appNames h ->
     exists i old,
       h !! i = Some old /\ appName (params old) = name /\
       h' = <[i := with_status (Some s) element]> h /\
       h' !! i = Some (with_status (Some s) element) /\
       length h' = length h /\
       (forall j, j <> i -> h' !! j = h !! j)) /\
  (name ∉ appNames h -> h' = h ++ [with_status (Some s) element]) /\
  with_status (Some s) element ∈ h' /\
  tagged (with_status (Some s) element) /\
  (exists e, e ∈ h' /\ tagged e) /\
  store_get "finished" (operation_result element (Returned (Some s)) m).1 =
    store_get "finished"
      (addToFinished (with_endTime (clock m) element) (Some s) m) /\
  (exists e,
     e ∈ store_get "finished" (operation_result element (Returned (Some s)) m).1 /\
     status e = Some s /\ params e = params element /\
     startTime e = startTime element /\ endTime e = clock m) /\
  (NoDup (appNames h) -> NoDup (appNames h')) /\
  (forall m1, deduplicated m -> reachable getFileSize m m1 ->
     NoDup (appNames (store_get "finished" m1))).
Proof.
  intros name h h' tagged. subst h' tagged. rewrite addToFinished_finished.
  fold h.
  split; [|split; [|split; [|split; [|split; [|split; [|split; [|split]]]]]]].
  - intros Hin.
    destruct (finished_with_overwrite element (Some s) h Hin)
      as (i & old & Hold & Hn & _ & ->).
    exists i, old. split; [exact Hold|]. split; [exact Hn|].
    split; [reflexivity|]. apply lookup_lt_Some in Hold as Hlt.
    split; [by apply list_lookup_insert_eq|].
    split; [apply length_insert|].
    intros j Hj. apply list_lookup_insert_ne. congruence.
  - apply finished_with_append.
  - apply finished_with_elem.
  - done.
  - exists (with_status (Some s) element).
    split; [apply finished_with_elem | done].
  - cbn [operation_result]. rewrite operation_settled_finished.
    by rewrite addToFinished_finished.
  - exists (with_status (Some s) (with_endTime (clock m) element)).
    split; [|done]. cbn [operation_result].
    rewrite operation_settled_finished. apply finished_with_elem.
  - apply NoDup_finished_with.
  - intros m1 Hm Hreach.
    by destruct (reachable_deduplicated m m1 Hm Hreach) as (_ & Hf & _).
Qed.

(** C10. In [addToFinished] a null or undefined status is recorded as
    ['abort'] when the task overwrites an entry of the same name, and is
    stored as it is when the task is appended: the fallback applies on the
    overwrite path only. *)
Theorem addToFinished_abort_fallback (element : DMQueueElement) (m : Manager) :
  let name := appName (params element) in
  let h := store_get "finished" m in
  let h' := store_get "finished" (addToFinished element None m) in
  (name ∈ appNames h ->
     exists i old,
       h !! i = Some old /\ appName (params old) = name /\
       h' = <[i := with_status (Some abort) element]> h /\
       h' !! i = Some (with_status (Some abort) element) /\
       status (with_status (Some abort) element) = Some abort) /\
  (name ∉ appNames h ->
     h' = h ++ [with_status None element] /\
     last h' = Some (with_status None element) /\
     status (with_status None element) = None).
Proof.
  intros name h h'. subst h'. rewrite addToFinished_finished. fold h. split.
  - intros Hin.
    destruct (finished_with_overwrite element None h Hin)
      as (i & old & Hold & Hn & _ & ->).
    exists i, old. split; [exact Hold|]. split; [exact Hn|].
    split; [reflexivity|]. split; [|reflexivity].
    apply list_lookup_insert_eq. by apply lookup_lt_Some in Hold.
  - intros Hnotin. rewrite (finished_with_append element None h Hnotin).
    split; [reflexivity|]. split; [apply last_snoc | reflexivity].
Qed.

(** ** Dispatch *)

Lemma runnerCalls_emit (e : Effect) (m : Manager) :
  runnerCalls (emit e m) =
  runnerCalls m ++ match e with runnerCall c => [c] | _ => [] end.
Proof. unfold runnerCalls. simpl. rewrite omap_app. by destruct e. Qed.

Lemma runnerCalls_store_set (key : string) (v : list DMQueueElement) (m : Manager) :
  runnerCalls (store_set key v m) = runnerCalls m.
Proof.
  unfold runnerCalls. simpl. rewrite omap_app. simpl. apply app_nil_r.
Qed.

Lemma runnerCalls_addToFinished (el : DMQueueElement) (st : option DMStatus)
    (m : Manager) :
  runnerCalls (addToFinished el st m) = runnerCalls m.
Proof.
  unfold runnerCalls. rewrite addToFinished_trace, omap_app. simpl.
  apply app_nil_r.
Qed.

Lemma runnerCalls_removeFromQueue (name : string) (m : Manager) :
  runnerCalls (removeFromQueue name m) = runnerCalls m.
Proof.
  destruct (truthy name && store_has "queue" m) eqn:Hg.
  - unfold runnerCalls. rewrite (removeFromQueue_trace name m Hg).
    rewrite !omap_app. destruct (findIndex _ _); simpl; apply app_nil_r.
  - by rewrite (removeFromQueue_guard_false name m Hg).
Qed.

Lemma runnerCalls_operation_settled (el : DMQueueElement) (st : option DMStatus)
    (m : Manager) :
  runnerCalls (operation_settled el st m).1 = runnerCalls m.
Proof.
  unfold operation_settled. simpl.
  by rewrite runnerCalls_removeFromQueue, runnerCalls_addToFinished.
Qed.




(** ** Removal *)

(** C9. [removeFromQueue] emits a [gameStatusUpdate] notification with
    status ['done'] and a [changedDMQueueInformation] notification exactly
    when the name is non-empty and the store has the key ['queue'], also
    when no task of that name is pending and nothing is removed; when the
    name is empty or the key is absent it emits nothing and writes nothing
    to the store. *)
Theorem removeFromQueue_notifies_under_guard (name : string) (m : Manager) :
  let q := store_get "queue" m in
  let m' := removeFromQueue name m in
  (name <> "" -> is_Some (downloadManager m !! "queue") ->
     exists writes,
       trace m' =
       trace m ++ writes ++
       [gameStatusUpdate name None None "done";
        logInfo [name; "removed from download manager."];
        changedDMQueueInformation (store_get "queue" m')] /\
       (name ∉ appNames q ->
          writes = [] /\ downloadManager m' = downloadManager m) /\
       (name ∈ appNames q ->
          writes = [storeDelete "queue"; storeSet "queue" (store_get "queue" m')])) /\
  (name = "" \/ downloadManager m !! "queue" = None -> m' = m).
Proof.
  intros q m'. subst m'. split.
  - intros Hname Hkey.
    assert (Hg : truthy name && store_has "queue" m = true).
    { apply andb_true_iff. split.
      - unfold truthy. by rewrite (bool_decide_eq_false_2 _ Hname).
      - by apply store_has_true. }
    rewrite (removeFromQueue_trace name m Hg).
    eexists. split; [reflexivity|]. fold q. split.
    + intros Hnotin. apply findIndex_appName_None in Hnotin as Hnone.
      rewrite Hnone. split; [reflexivity|].
      rewrite removeFromQueue_store, Hg. fold q. by rewrite Hnone.
    + intros Hin. apply findIndex_appName_elem in Hin as [i Hi]. rewrite Hi.
      rewrite removeFromQueue_queue. fold q. rewrite Hi.
      apply andb_true_iff in Hg as [-> _]. reflexivity.
  - intros Hcase. apply removeFromQueue_guard_false.
    destruct Hcase as [->|Hnone]; [reflexivity|].
    apply andb_false_iff. right. unfold store_has.
    apply bool_decide_eq_false. rewrite Hnone. by intros [x Hx].
Qed.

(** C8, as the code has it.  For a non-empty name [removeFromQueue]
    removes the first pending task of that name, leaving the other tasks
    in order; for a name that is not pending, and for the empty name, the
    store is left as it was.  In no case are the Finished history, the
    manager state or a suspended loop touched. *)
Theorem removeFromQueue_frame (name : string) (m : Manager) :
  let q := store_get "queue" m in
  let m' := removeFromQueue name m in
  (name <> "" -> name ∈ appNames q ->
     exists i old,
       q !! i = Some old /\ appName (params old) = name /\
       (forall j y, (j < i)%nat -> q !! j = Some y -> appName (params y) <> name) /\
       store_get "queue" m' = delete i q /\
       length (store_get "queue" m') = Nat.pred (length q)) /\
  (name ∉ appNames q -> downloadManager m' = downloadManager m) /\
  (name = "" -> m' = m) /\
  downloadManager m' !! "finished" = downloadManager m !! "finished" /\
  queueState m' = queueState m /\
  loops m' = loops m.
Proof.
  intros q m'. subst m'. split; [|split; [|split; [|split]]].
  - intros Hname Hin. apply findIndex_appName_elem in Hin as [i Hi].
    pose proof (findIndex_appName_Some name q i Hi) as (old & Hold & Hn & Hmin).
    exists i, old. split; [exact Hold|]. split; [exact Hn|].
    split; [exact Hmin|].
    rewrite removeFromQueue_queue. fold q. rewrite Hi. unfold truthy.
    rewrite (bool_decide_eq_false_2 _ Hname). simpl.
    split; [reflexivity|]. rewrite length_delete; [lia | eauto].
  - intros Hnotin. apply findIndex_appName_None in Hnotin.
    rewrite removeFromQueue_store. fold q. rewrite Hnotin.
    by destruct (truthy name && store_has "queue" m).
  - intros ->. reflexivity.
  - apply removeFromQueue_finished.
  - destruct (removeFromQueue_flags name m) as (H1 & H2 & _). by split.
Qed.

Lemma finished_with_other (el e : DMQueueElement) (st : option DMStatus)
    (h : list DMQueueElement) :
  e ∈ h -> appName (params e) <> appName (params el) ->
  e ∈ finished_with el st h.
Proof.
  intros He Hne. unfold finished_with.
  destruct (findIndex _ h) as [i|] eqn:Hi.
  - apply findIndex_appName_Some in Hi as (old & Hold & Hn & _).
    apply list_elem_of_lookup in He as [j Hj].
    apply list_elem_of_lookup. exists j.
    rewrite list_lookup_insert_ne; [exact Hj|].
    intros ->. rewrite Hold in Hj. injection Hj as ->. congruence.
  - apply elem_of_app. by left.
Qed.

Lemma dispatch_same_kind (x y : DMQueueElement) :
  runner (params x) = runner (params y) -> type x = type y ->
  dispatch x = None -> dispatch y = None.
Proof.
  unfold dispatch. intros Hr Hty. rewrite Hr, Hty.
  destruct (manifest_runner _ && bool_decide (type y = "install"));
    [discriminate|].
  destruct (manifest_runner _ && bool_decide (type y = "update"));
    [discriminate|].
  by destruct (bool_decide (runner (params y) = "hyperplay")).
Qed.

Lemma first_pending_enqueue (t : DMQueueElement) (m : Manager) :
  first_pending t (enqueue t m).
Proof.
  assert (Ht : has_appName (appName (params t)) t = true)
    by (by apply has_appName_true).
  unfold first_pending. rewrite enqueue_queue. unfold queue_with.
  destruct (findIndex _ (store_get "queue" m)) as [i|] eqn:Hi.
  - exists i, t. rewrite (findIndex_insert_same _ _ i t Hi Ht).
    apply findIndex_appName_Some in Hi as (old & Hold & _).
    split; [reflexivity|]. split; [|done].
    apply list_lookup_insert_eq. by apply lookup_lt_Some in Hold.
  - exists (length (store_get "queue" m)), t.
    rewrite (findIndex_snoc _ _ t Hi), Ht.
    split; [reflexivity|]. split; [|done].
    by apply list_lookup_middle.
Qed.

Lemma first_pending_elem (t : DMQueueElement) (m : Manager) :
  first_pending t m -> appName (params t) ∈ appNames (store_get "queue" m).
Proof.
  intros (i & el & Hi & _).
  apply findIndex_appName_Some in Hi as (old & Hold & Hn & _).
  unfold appNames. apply list_elem_of_fmap. exists old.
  split; [done|]. by eapply list_elem_of_lookup_2.
Qed.

(** An iteration keeps the first task of a name pending, unless that task
    is the head and is retired within the iteration; this happens to a
    task without runner operation only. *)
Lemma iteration_pending_or_retired (t el : DMQueueElement) (m : Manager) :
  getFirstQueueElement m = Some el ->
  first_pending t m \/ retired_unsupported t m ->
  first_pending t (iteration el m).1 \/ retired_unsupported t (iteration el m).1.
Proof.
  intros Hhead H. unfold getFirstQueueElement in Hhead.
  destruct (store_get "queue" m) as [|el0 rest] eqn:Hq; [discriminate|].
  injection Hhead as ->. unfold iteration. rewrite Hq.
  destruct (manifest_runner (runner (params el))) eqn:Hm; [exact H|].
  set (sized := with_params (with_size "?? MB" (params el)) el).
  set (m0 := emit _ m). unfold size_resolved.
  set (started := with_startTime (clock m0) sized). cbn [assign_head].
  set (m1 := store_set "queue" (started :: rest) (tick m0)).
  assert (Hq1 : store_get "queue" m1 = started :: rest)
    by apply store_get_set_eq.
  assert (Hf1 : store_get "finished" m1 = store_get "finished" m)
    by (unfold m1; by rewrite store_get_set_ne).
  assert (Hsame : has_appName (appName (params t)) started =
                  has_appName (appName (params t)) el) by reflexivity.
  destruct (dispatch started) as [c|] eqn:Hd.
  - change (first_pending t m1 \/ retired_unsupported t m1).
    destruct H as [(i & eli & Hi & Heli & Hr & Hty)|(Hn & Hmf & e & He & Hne)].
    + left. unfold first_pending. rewrite Hq1. rewrite Hq in Hi, Heli.
      cbn [findIndex] in *. rewrite Hsame.
      destruct (has_appName (appName (params t)) el).
      * injection Hi as <-. injection Heli as <-. by exists 0%nat, started.
      * destruct (findIndex (has_appName (appName (params t))) rest)
          as [k|] eqn:Hk; simpl in Hi; [|discriminate].
        injection Hi as <-. exists (S k), eli.
        split; [reflexivity|]. split; [exact Heli | done].
    + right. split; [exact Hn|]. split; [exact Hmf|]. exists e.
      by rewrite Hf1.
  - pose proof (operation_settled_queue started (Some error) m1) as Hq2.
    pose proof (operation_settled_finished started (Some error) m1) as Hf2.
    rewrite Hq1 in Hq2. rewrite Hf1 in Hf2. cbn [findIndex] in Hq2.
    replace (has_appName (appName (params started)) started) with true in Hq2
      by (symmetry; by apply has_appName_true).
    cbn [delete list_delete] in Hq2.
    set (recorded := with_endTime (clock m1) started) in *.
    assert (Hnew : with_status (Some error) recorded
                     ∈ finished_with recorded (Some error) (store_get "finished" m))
      by apply finished_with_elem.
    destruct H as [(i & eli & Hi & Heli & Hr & Hty)|(Hn & Hmf & e & He & Hne & Hst)].
    + rewrite Hq in Hi, Heli. cbn [findIndex] in Hi.
      destruct (has_appName (appName (params t)) el) eqn:Hel.
      * injection Hi as <-. injection Heli as <-. right.
        apply has_appName_true in Hel.
        split; [by apply (dispatch_same_kind started t)|].
        split; [by rewrite <- Hr|].
        exists (with_status (Some error) recorded). rewrite Hf2.
        split; [exact Hnew | done].
      * left. unfold first_pending. rewrite Hq2.
        destruct (findIndex (has_appName (appName (params t))) rest)
          as [k|] eqn:Hk; simpl in Hi; [|discriminate].
        injection Hi as <-. simpl in Heli.
        destruct (truthy (appName (params started))).
        -- by exists k, eli.
        -- exists (S k), eli. split; [|split; [exact Heli | done]].
           change (findIndex (has_appName (appName (params t))) (started :: rest))
             with (if has_appName (appName (params t)) el then Some 0%nat
                   else S <$> findIndex (has_appName (appName (params t))) rest).
           by rewrite Hel, Hk.
    + right. split; [exact Hn|]. split; [exact Hmf|]. rewrite Hf2.
      destruct (decide (appName (params e) = appName (params recorded)))
        as [Heq|Hneq].
      * exists (with_status (Some error) recorded).
        split; [exact Hnew|]. split; [|reflexivity]. simpl.
        simpl in Heq. congruence.
      * exists e. split; [by apply finished_with_other | done].
Qed.

Lemma drive_pending_or_retired (t : DMQueueElement) (fuel : nat) :
  forall (m : Manager) (seg : Segment) (e : LoopEnd) (m' : Manager),
    (forall o, seg = iterates o -> o = getFirstQueueElement m) ->
    first_pending t m \/ retired_unsupported t m ->
    drive fuel m seg = Some (e, m') ->
    first_pending t m' \/ retired_unsupported t m'.
Proof.
  induction fuel as [|fuel IH]; intros m seg e m' Hseg H Hrun;
    destruct seg as [s|[el|]|exn]; simpl in Hrun; try discriminate;
    try (injection Hrun as <- <-; exact H).
  pose proof (iteration_iterates el m) as Hit.
  pose proof (iteration_pending_or_retired t el m) as Hstep.
  destruct (iteration el m) as [m1 seg1]. simpl in Hit, Hstep.
  apply (IH m1 seg1 e m'); [| |exact Hrun].
  - intros o ->. by apply Hit.
  - apply Hstep; [|exact H]. symmetry. by apply Hseg.
Qed.

(** C6, as the code has it.  [addToQueue] rejects a missing task (an
    [undefined] or [null] argument): the rejection is logged and nothing
    else happens, the store, the manager state and the suspended loops
    stay as they were and no notification is emitted.  A task is accepted
    whatever its name, the empty name included: it is notified as queued
    and written to the pending queue.  When [addToQueue] returns, a task
    of that name is still pending: always on a running manager, and
    whenever the runner of the task has a size lookup or an operation.
    Otherwise the loop the call has started may have retired the task
    already; it is then recorded in the Finished history with status
    ['error']. *)
Theorem addToQueue_rejects_missing_task (fuel : nat) (m : Manager) :
  (exists m',
     addToQueue fuel None m = Some m' /\
     downloadManager m' = downloadManager m /\
     queueState m' = queueState m /\
     loops m' = loops m /\
     trace m' = trace m ++ [logError "Can not add undefined element to queue!"]) /\
  (forall t,
     t ∈ store_get "queue" (enqueue t m) /\
     gameStatusUpdate (appName (params t)) (Some (runner (params t)))
       (Some (path (params t))) "queued" ∈ trace (enqueue t m) /\
     forall m', addToQueue fuel (Some t) m = Some m' ->
       trace (enqueue t m) `prefix_of` trace m' /\
       (queueState m = running -> t ∈ store_get "queue" m') /\
       (appName (params t) ∈ appNames (store_get "queue" m') \/
        retired_unsupported t m') /\
       (manifest_runner (runner (params t)) = true \/ dispatch t <> None ->
          appName (params t) ∈ appNames (store_get "queue" m'))).
Proof.
  split.
  - eexists. split; [reflexivity|]. done.
  - intros t.
    assert (Hin : t ∈ store_get "queue" (enqueue t m)).
    { rewrite enqueue_queue. unfold queue_with.
      destruct (findIndex _ _) as [i|] eqn:Hi.
      * apply findIndex_appName_Some in Hi as (old & Hold & _).
        apply list_elem_of_lookup. exists i.
        apply list_lookup_insert_eq. by apply lookup_lt_Some in Hold.
      * apply elem_of_app. right. by apply list_elem_of_singleton. }
    split; [exact Hin|]. split.
    + rewrite enqueue_trace. apply elem_of_app. right. by left.
    + intros m' Hadd. split; [by apply addToQueue_prefix in Hadd|].
      assert (Hcases : first_pending t m' \/ retired_unsupported t m').
      { cbn [addToQueue] in Hadd. destruct (queueState (enqueue t m)).
        - destruct (initQueue fuel (enqueue t m)) as [[e m1]|] eqn:Hinit;
            simpl in Hadd; [|discriminate].
          injection Hadd as <-. unfold initQueue in Hinit.
          eapply drive_pending_or_retired; [| |exact Hinit].
          + by intros o [= <-].
          + left. exact (first_pending_enqueue t m).
        - injection Hadd as <-. left. apply first_pending_enqueue. }
      assert (Hpending : appName (params t) ∈ appNames (store_get "queue" m') \/
                retired_unsupported t m').
      { destruct Hcases as [H|H]; [left; by apply first_pending_elem | by right]. }
      split; [|split; [exact Hpending|]].
      * intros Hs. cbn [addToQueue] in Hadd.
        replace (queueState (enqueue t m)) with (queueState m) in Hadd
          by reflexivity.
        rewrite Hs in Hadd. by injection Hadd as <-.
      * intros Hop. destruct Hpending as [H|(Hn & Hmf & _)]; [exact H|].
        destruct Hop as [Hop|Hop]; congruence.
Qed.

(** ** One iteration of the loop *)

Lemma size_resolved_proceeds (el : DMQueueElement) (q : list DMQueueElement)
    (m : Manager) :
  let started := with_startTime (clock m) el in
  let r := size_resolved el q m in
  (exists rest,
     trace r.1 = trace m ++ storeSet "queue" (assign_head started q) :: rest) /\
  (forall exn, r.2 <> throws exn) /\
  match dispatch started with
  | Some c =>
      r.2 = suspends (awaiting_operation started) /\
      runnerCalls r.1 = runnerCalls m ++ [c]
  | None => exists next, r.2 = iterates next
  end.
Proof.
  intros started r. subst r. unfold size_resolved. fold started.
  destruct (dispatch started) as [c|].
  - simpl. split; [|split; [done|split; [reflexivity|]]].
    + rewrite <- app_assoc. by eexists.
    + by rewrite runnerCalls_emit, runnerCalls_store_set.
  - split; [|split; [done|by eexists]].
    destruct (operation_settled_prefix started (Some error)
                (store_set "queue" (assign_head started q) (tick m)))
      as [rest Hrest].
    exists rest. rewrite Hrest. unfold store_set, emit. simpl.
    by rewrite <- app_assoc.
Qed.

(** C7, as the code has it.  In each iteration a head task with runner
    ['gog'] or ['legendary'] has its size looked up with
    [getInstallInfo].  When the lookup returns, [params.size] is the
    rendered [download_size] if the result has a manifest with a non-zero
    one, and the placeholder ['?? MB'] in every other case (no result, no
    manifest, no or zero [download_size]); for the other runners the
    placeholder is used directly.  With the size set the task is written
    back as the head of the queue and proceeds to dispatch; nothing in
    these steps throws.  A lookup that raises is not caught: the
    exception leaves [initQueue] with the manager as it was. *)
Theorem size_lookup_is_best_effort (element : DMQueueElement) (m : Manager) :
  let p := params element in
  let q := store_get "queue" m in
  let proceeds (started : DMQueueElement) (snapshot : list DMQueueElement)
      (before : Manager) (r : Manager * Segment) :=
    (exists rest,
       trace r.1 =
       trace before ++ storeSet "queue" (assign_head started snapshot) :: rest) /\
    (forall exn, r.2 <> throws exn) /\
    match dispatch started with
    | Some c =>
        r.2 = suspends (awaiting_operation started) /\
        runnerCalls r.1 = runnerCalls before ++ [c]
    | None => exists next, r.2 = iterates next
    end in
  (manifest_runner (runner p) = true ->
     (iteration element m).2 = suspends (awaiting_getInstallInfo element q) /\
     last (trace (iteration element m).1) =
       Some (getInstallInfo (appName p) (runner p) (platformToInstall p))) /\
  (forall snapshot info m1,
     let sized := with_params (with_size (resolved_size getFileSize info) p) element in
     let started := with_startTime (clock m1) sized in
     size (params started) = Some (resolved_size getFileSize info) /\
     proceeds started snapshot m1
       (installInfo_settled getFileSize element snapshot (Returned info) m1)) /\
  (forall n, n <> 0 ->
     resolved_size getFileSize
       (Some {| manifest := Some {| download_size := Some n |} |}) = getFileSize n) /\
  resolved_size getFileSize None = "?? MB" /\
  resolved_size getFileSize (Some {| manifest := None |}) = "?? MB" /\
  resolved_size getFileSize
    (Some {| manifest := Some {| download_size := None |} |}) = "?? MB" /\
  resolved_size getFileSize
    (Some {| manifest := Some {| download_size := Some 0 |} |}) = "?? MB" /\
  (manifest_runner (runner p) = false ->
     let started := with_startTime (clock m) (with_params (with_size "?? MB" p) element) in
     size (params started) = Some "?? MB" /\
     proceeds started q (emit (changedDMQueueInformation q) m) (iteration element m)) /\
  (forall fuel snapshot exn m1,
     let r := installInfo_settled getFileSize element snapshot (Raised exn) m1 in
     drive fuel r.1 r.2 = Some (rejected exn, emit (unhandledRejection exn) m1)).
Proof.
  intros p q proceeds.
  split; [|split; [|split; [|split; [|split; [|split; [|split; [|split]]]]]]];
    try reflexivity; [| | | |by intros [|fuel] snapshot exn m1].
  - intros Hr. unfold iteration. fold p q. rewrite Hr. simpl.
    split; [reflexivity | apply last_snoc].
  - intros snapshot info m1 sized started. split; [reflexivity|].
    apply (size_resolved_proceeds sized snapshot m1).
  - intros n Hn. simpl. by rewrite (bool_decide_eq_false_2 _ Hn).
  - intros Hr started. split; [reflexivity|].
    unfold iteration. fold p q. rewrite Hr.
    apply (size_resolved_proceeds (with_params (with_size "?? MB" p) element) q
             (emit (changedDMQueueInformation q) m)).
Qed.

Lemma iteration_never_throws (el : DMQueueElement) (m : Manager) (exn : string) :
  (iteration el m).2 <> throws exn.
Proof.
  unfold iteration. destruct (manifest_runner _); [discriminate|].
  apply size_resolved_proceeds.
Qed.

(** A synchronous iteration retires the head it was started with. *)
Lemma iteration_shrinks (el : DMQueueElement) (rest : list DMQueueElement)
    (m : Manager) (o : option DMQueueElement) :
  store_get "queue" m = el :: rest -> appName (params el) <> "" ->
  (iteration el m).2 = iterates o ->
  store_get "queue" (iteration el m).1 = rest.
Proof.
  intros Hq Hname. unfold iteration. rewrite Hq.
  destruct (manifest_runner _); [discriminate|].
  unfold size_resolved. destruct (dispatch _); [discriminate|]. intros _.
  rewrite operation_settled_queue, store_get_set_eq. simpl.
  unfold truthy. rewrite (bool_decide_eq_false_2 _ Hname). simpl.
  unfold has_appName. simpl. by rewrite bool_decide_eq_true_2.
Qed.

Lemma drive_exited (fuel : nat) (m : Manager) (seg : Segment) (m' : Manager) :
  (forall o, seg = iterates o -> o = getFirstQueueElement m) ->
  drive fuel m seg = Some (exited, m') ->
  store_get "queue" m' = [] /\ queueState m' = idle.
Proof.
  revert m seg. induction fuel as [|fuel IH]; intros m seg Hseg Hrun;
    destruct seg as [s|[el|]|exn]; simpl in Hrun; try discriminate.
  1,3: injection Hrun as <-; split; [|reflexivity];
       specialize (Hseg None eq_refl); unfold getFirstQueueElement in Hseg;
       change (store_get "queue" (set_queueState idle m)) with (store_get "queue" m);
       by destruct (store_get "queue" m).
  pose proof (iteration_iterates el m) as Hit.
  destruct (iteration el m) as [m1 seg1]. simpl in Hit.
  apply (IH m1 seg1); [|exact Hrun]. intros o ->. by apply Hit.
Qed.

Lemma drive_total (fuel : nat) (m : Manager) :
  Forall (fun el => appName (params el) <> "") (store_get "queue" m) ->
  (length (store_get "queue" m) <= fuel)%nat ->
  exists e m',
    drive fuel m (iterates (getFirstQueueElement m)) = Some (e, m') /\
    (e = exited \/ e = parked).
Proof.
  revert m. induction fuel as [|fuel IH]; intros m Hnames Hlen;
    unfold getFirstQueueElement;
    destruct (store_get "queue" m) as [|el rest] eqn:Hq; simpl in *;
    try (by eauto 10); try lia.
  pose proof (iteration_iterates el m) as Hit.
  pose proof (iteration_shrinks el rest m) as Hshrink.
  pose proof (iteration_never_throws el m) as Hthrow.
  destruct (iteration el m) as [m1 [s|o|exn]]; simpl in *.
  - destruct fuel; simpl; eauto 10.
  - rewrite (Hit o eq_refl).
    inversion Hnames as [|? ? Hel Hrest]; subst.
    specialize (Hshrink o Hq Hel eq_refl).
    apply IH; rewrite Hshrink; [exact Hrest | lia].
  - by destruct (Hthrow exn).
Qed.

(** C1, as the code has it.  For every queue state and every head task,
    when the dispatched runner operation returns a status (['error'],
    ['abort'] on cancellation, or ['done']), the loop records the task
    with that status in the Finished history, takes the task out of the
    pending queue and goes on with the head of what is left; the manager
    state is not changed by a failure.  The loop is left only when the
    pending queue is observed empty, and with tasks of non-empty names it
    always comes to a suspension or to that exit, never to a rejection.
    An operation that raises is not turned into a status: the exception
    leaves [initQueue] with the manager as it was. *)
Theorem loop_retires_and_advances (element : DMQueueElement) (s : DMStatus)
    (m : Manager) :
  let name := appName (params element) in
  let r := operation_result element (Returned (Some s)) m in
  (with_status (Some s) (with_endTime (clock m) element)
     ∈ store_get "finished" r.1) /\
  (exists e,
     e ∈ store_get "finished" r.1 /\ status e = Some s /\
     params e = params element /\ endTime e = clock m) /\
  r.2 = iterates (head (store_get "queue" r.1)) /\
  queueState r.1 = queueState m /\
  (name <> "" ->
     (forall first rest, store_get "queue" m = first :: rest ->
        appName (params first) = name -> store_get "queue" r.1 = rest) /\
     (NoDup (appNames (store_get "queue" m)) ->
        name ∉ appNames (store_get "queue" r.1))) /\
  (forall fuel m0 m', initQueue fuel m0 = Some (exited, m') ->
     store_get "queue" m' = [] /\ queueState m' = idle) /\
  (forall fuel m',
     drive fuel r.1 r.2 = Some (exited, m') ->
     store_get "queue" m' = [] /\ queueState m' = idle) /\
  (forall m0,
     Forall (fun el => appName (params el) <> "") (store_get "queue" m0) ->
     exists e m',
       initQueue (length (store_get "queue" m0)) m0 = Some (e, m') /\
       (e = exited \/ e = parked)) /\
  (forall fuel exn,
     let r' := operation_result element (Raised exn) m in
     drive fuel r'.1 r'.2 = Some (rejected exn, emit (unhandledRejection exn) m)).
Proof.
  intros name r. subst r. cbn [operation_result].
  split; [|split; [|split; [|split; [|split; [|split; [|split; [|split]]]]]]];
    [| | | | | | | |by intros [|fuel] exn].
  - rewrite operation_settled_finished. apply finished_with_elem.
  - exists (with_status (Some s) (with_endTime (clock m) element)).
    split; [|done]. rewrite operation_settled_finished.
    apply finished_with_elem.
  - reflexivity.
  - by destruct (operation_settled_flags element (Some s) m) as (-> & _).
  - intros Hname. rewrite operation_settled_queue. fold name.
    unfold truthy. rewrite (bool_decide_eq_false_2 _ Hname). simpl. split.
    + intros first rest -> Hfirst. simpl. unfold has_appName.
      by rewrite (bool_decide_eq_true_2 _ Hfirst).
    + intros Hnd. destruct (findIndex _ _) as [i|] eqn:Hi;
        [|by apply findIndex_appName_None].
      apply findIndex_appName_Some in Hi as (old & Hold & Hn & _).
      unfold appNames in *. rewrite list_fmap_delete.
      assert (Hi : (appName ∘ params <$> store_get "queue" m) !! i = Some name).
      { rewrite list_lookup_fmap, Hold. simpl. by rewrite Hn. }
      intros Hin. apply list_elem_of_lookup in Hin as [j Hj].
      destruct (decide (j < i)%nat) as [Hlt|Hge].
      * rewrite list_lookup_delete_lt in Hj by exact Hlt.
        pose proof (NoDup_lookup _ _ _ _ Hnd Hj Hi). lia.
      * rewrite list_lookup_delete_ge in Hj by lia.
        pose proof (NoDup_lookup _ _ _ _ Hnd Hj Hi). lia.
  - intros fuel m0 m' Hrun. unfold initQueue in Hrun.
    apply drive_exited in Hrun; [exact Hrun|]. by intros o [= <-].
  - intros fuel m' Hrun.
    apply drive_exited in Hrun; [exact Hrun|].
    rewrite operation_settled_segment. by intros o [= <-].
  - intros m0 Hnames. unfold initQueue.
    apply (drive_total _ (set_queueState _ m0)); [exact Hnames | done].
Qed.

(** ** The manager state *)

Lemma drive_ends_idle (fuel : nat) (m : Manager) (seg : Segment) (e : LoopEnd)
    (m' : Manager) :
  queueState m = running -> drive fuel m seg = Some (e, m') ->
  queueState m' = idle -> e = exited.
Proof.
  revert m seg. induction fuel as [|fuel IH]; intros m seg Hs Hrun Hidle;
    destruct seg as [s|[el|]|exn]; simpl in Hrun; try discriminate;
    try (injection Hrun as <- <-; simpl in Hidle; congruence).
  destruct (iteration_flags el m) as [Hs1 _].
  destruct (iteration el m) as [m1 seg1]. simpl in *.
  apply (IH m1 seg1); congruence.
Qed.

Lemma drive_exited_loops (fuel : nat) (m : Manager) (seg : Segment)
    (m' : Manager) :
  drive fuel m seg = Some (exited, m') -> loops m' = loops m.
Proof.
  revert m seg. induction fuel as [|fuel IH]; intros m seg Hrun;
    destruct seg as [s|[el|]|exn]; simpl in Hrun; try discriminate;
    try (by injection Hrun as <-).
  destruct (iteration_flags el m) as [_ Hl1].
  destruct (iteration el m) as [m1 seg1]. simpl in *.
  rewrite <- Hl1. by apply (IH m1 seg1).
Qed.

(** An activation that leaves the manager idle has left the loop, on an
    empty queue; the activations suspended before are still there. *)
Lemma initQueue_ends_idle (fuel : nat) (m : Manager) (e : LoopEnd)
    (m' : Manager) :
  initQueue fuel m = Some (e, m') -> queueState m' = idle ->
  e = exited /\ store_get "queue" m' = [] /\ loops m' = loops m.
Proof.
  intros Hrun Hidle. unfold initQueue in Hrun.
  assert (He : e = exited).
  { destruct (getFirstQueueElement m) as [el|].
    - exact (drive_ends_idle fuel (set_queueState running m) _ e m' eq_refl
               Hrun Hidle).
    - destruct fuel; simpl in Hrun; by injection Hrun as <- _. }
  subst e. split; [reflexivity|]. split.
  - apply drive_exited in Hrun as [Hq _]; [exact Hq|]. by intros o [= <-].
  - by apply drive_exited_loops in Hrun.
Qed.

Lemma drive_single_loop (fuel : nat) (m : Manager) (seg : Segment) (e : LoopEnd)
    (m' : Manager) :
  loops m = [] -> queueState m = running ->
  drive fuel m seg = Some (e, m') ->
  match e with
  | exited => queueState m' = idle /\ loops m' = []
  | parked => queueState m' = running /\ length (loops m') = 1%nat
  | rejected _ => queueState m' = running /\ loops m' = []
  end.
Proof.
  revert m seg. induction fuel as [|fuel IH]; intros m seg Hl Hs Hrun;
    destruct seg as [s|[el|]|exn]; simpl in Hrun; try discriminate;
    try (injection Hrun as <- <-; simpl; by rewrite ?Hl).
  destruct (iteration_flags el m) as [Hs1 Hl1].
  destruct (iteration el m) as [m1 seg1]. simpl in *.
  apply (IH m1 seg1); congruence.
Qed.

Lemma drive_keeps_single_loop (fuel : nat) (m : Manager) (seg : Segment)
    (e : LoopEnd) (m' : Manager) :
  loops m = [] -> queueState m = running ->
  drive fuel m seg = Some (e, m') -> single_loop m'.
Proof.
  intros Hl Hs Hrun. pose proof (drive_single_loop _ _ _ _ _ Hl Hs Hrun) as H.
  unfold single_loop. destruct e; destruct H as [H1 H2]; rewrite ?H2;
    (split; [simpl; lia | intros Hidle; congruence]).
Qed.

Lemma initQueue_keeps_single_loop (fuel : nat) (m : Manager) (e : LoopEnd)
    (m' : Manager) :
  loops m = [] -> initQueue fuel m = Some (e, m') -> single_loop m'.
Proof.
  intros Hl Hrun. unfold initQueue in Hrun.
  destruct (getFirstQueueElement m) as [el|].
  - eapply drive_keeps_single_loop; [| |exact Hrun]; [exact Hl | reflexivity].
  - destruct fuel; simpl in Hrun; injection Hrun as <- <-;
      (split; simpl; rewrite ?Hl; [simpl; lia | done]).
Qed.

Lemma settle_single_loop (i : nat) (s : Suspended) (m : Manager) :
  single_loop m -> loops m !! i = Some s ->
  loops (resume i m) = [] /\ queueState (resume i m) = running.
Proof.
  intros [Hlen Hidle] Hi. simpl.
  destruct (loops m) as [|s0 [|s1 l]] eqn:Hl; simpl in *; [done| |lia].
  destruct i; [|done]. split; [reflexivity|].
  destruct (queueState m); [by specialize (Hidle eq_refl) | reflexivity].
Qed.

(** No input that keeps to the discipline of [addToQueue] starts a second
    activation of the loop, and the flag is [idle] only while no
    activation exists. *)
Lemma exec_single_loop (fuel : nat) (i : Input) (m m' : Manager) :
  single_loop m -> on_idle i m -> exec getFileSize fuel i m = Some m' ->
  single_loop m'.
Proof.
  intros Hm Hon Hrun.
  destruct i as [|[t|]|name|i r|i r|now readings]; cbn [exec addToQueue] in Hrun.
  - destruct (initQueue fuel m) as [[e m1]|] eqn:Hinit; simpl in Hrun;
      [|discriminate].
    injection Hrun as <-. eapply initQueue_keeps_single_loop; [|exact Hinit].
    destruct Hm as [_ Hidle]. apply Hidle. by apply Hon.
  - destruct (queueState (enqueue t m)) eqn:Hs.
    + destruct (initQueue fuel (enqueue t m)) as [[e m1]|] eqn:Hinit;
        simpl in Hrun; [|discriminate].
      injection Hrun as <-. eapply initQueue_keeps_single_loop; [|exact Hinit].
      destruct Hm as [_ Hidle]. by apply Hidle.
    + by injection Hrun as <-.
  - by injection Hrun as <-.
  - injection Hrun as <-. unfold single_loop.
    by destruct (removeFromQueue_flags name m) as (-> & -> & _).
  - destruct (loops m !! i) as [[el q|el]|] eqn:Hi;
      [|by injection Hrun as <-..].
    destruct (settle_single_loop i _ m Hm Hi) as [Hl Hs].
    destruct (installInfo_settled_flags el q r (resume i m)) as [Hs1 Hl1].
    destruct (installInfo_settled getFileSize el q r (resume i m)) as [m1 seg1].
    destruct (drive fuel m1 seg1) as [[e m2]|] eqn:Hd; simpl in Hrun;
      [|discriminate].
    injection Hrun as <-. simpl in *.
    eapply drive_keeps_single_loop; [| |exact Hd]; congruence.
  - destruct (loops m !! i) as [[el q|el]|] eqn:Hi;
      [by injection Hrun as <-| |by injection Hrun as <-].
    destruct (settle_single_loop i _ m Hm Hi) as [Hl Hs].
    destruct (operation_result_flags el r (resume i m)) as [Hs1 Hl1].
    destruct (operation_result el r (resume i m)) as [m1 seg1].
    destruct (drive fuel m1 seg1) as [[e m2]|] eqn:Hd; simpl in Hrun;
      [|discriminate].
    injection Hrun as <-. simpl in *.
    eapply drive_keeps_single_loop; [| |exact Hd]; congruence.
  - by injection Hrun as <-.
Qed.

Lemma reachable_single_loop (store : gmap string (list DMQueueElement)) (now : Z)
    (m : Manager) :
  reachable_on_idle getFileSize (process_start store now) m -> single_loop m.
Proof.
  intros Hreach. induction Hreach as [|m fuel i m' _ IH Hon Hexec].
  - split; simpl; [lia | done].
  - by eapply exec_single_loop.
Qed.

(** The flag is [idle] at process start, an activation that finds a task
    sets it to [running], and an input that takes it from [running] to
    [idle] leaves the pending queue empty. *)
Lemma queueState_lifecycle (fuel : nat) (m : Manager) :
  (forall store now, queueState (process_start store now) = idle) /\
  (forall e m' el, getFirstQueueElement m = Some el ->
     initQueue fuel m = Some (e, m') -> e <> exited -> queueState m' = running) /\
  (forall i m', single_loop m -> queueState m = running ->
     exec getFileSize fuel i m = Some m' -> queueState m' = idle ->
     store_get "queue" m' = []).
Proof.
  split; [done|]. split.
  - intros e m' el Hhead Hrun Hne. unfold initQueue in Hrun. rewrite Hhead in Hrun.
    assert (Hflags : forall f m0 seg, queueState m0 = running ->
              drive f m0 seg = Some (e, m') -> queueState m' = running).
    { induction f as [|f IH]; intros m0 seg Hs Hd;
        destruct seg as [s|[el0|]|exn]; simpl in Hd; try discriminate;
        try (injection Hd as <- <-; done).
      destruct (iteration_flags el0 m0) as [Hs1 _].
      destruct (iteration el0 m0) as [m1 seg1]. simpl in *.
      apply (IH m1 seg1); congruence. }
    exact (Hflags fuel (set_queueState running m) _ eq_refl Hrun).
  - intros i m' Hm Hs Hrun Hidle.
    assert (Hend : forall m0 seg e m1,
              (forall o, seg = iterates o -> o = getFirstQueueElement m0) ->
              queueState m0 = running -> loops m0 = [] ->
              drive fuel m0 seg = Some (e, m1) -> queueState m1 = idle ->
              store_get "queue" m1 = []).
    { intros m0 seg e m1 Hseg Hs0 Hl0 Hd Hi1.
      pose proof (drive_single_loop _ _ _ _ _ Hl0 Hs0 Hd) as H.
      destruct e; [|destruct H; congruence..].
      by apply drive_exited in Hd as [Hq _]. }
    destruct i as [|[t|]|name|i r|i r|now readings]; cbn [exec addToQueue] in Hrun.
    + destruct (initQueue fuel m) as [[e m1]|] eqn:Hinit; simpl in Hrun;
        [|discriminate].
      injection Hrun as <-.
      by destruct (initQueue_ends_idle fuel m e m1 Hinit Hidle) as (_ & Hq & _).
    + replace (queueState (enqueue t m)) with (queueState m) in Hrun by done.
      rewrite Hs in Hrun. injection Hrun as <-. simpl in Hidle. congruence.
    + injection Hrun as <-. simpl in Hidle. congruence.
    + injection Hrun as <-.
      destruct (removeFromQueue_flags name m) as (H1 & _). congruence.
    + destruct (loops m !! i) as [[el q|el]|] eqn:Hi;
        [|injection Hrun as <-; congruence..].
      destruct (settle_single_loop i _ m Hm Hi) as [Hl Hsr].
      destruct (installInfo_settled_flags el q r (resume i m)) as [Hs1 Hl1].
      assert (Hseg : forall o,
                (installInfo_settled getFileSize el q r (resume i m)).2 = iterates o ->
                o = getFirstQueueElement
                      (installInfo_settled getFileSize el q r (resume i m)).1).
      { destruct r; simpl; [|discriminate]. unfold size_resolved.
        destruct (dispatch _); [discriminate|].
        rewrite operation_settled_segment. by intros o [= <-]. }
      destruct (installInfo_settled getFileSize el q r (resume i m)) as [m1 seg1].
      destruct (drive fuel m1 seg1) as [[e m2]|] eqn:Hd; simpl in Hrun;
        [|discriminate].
      injection Hrun as <-. simpl in *.
      eapply Hend; [exact Hseg| | |exact Hd|exact Hidle]; congruence.
    + destruct (loops m !! i) as [[el q|el]|] eqn:Hi;
        [injection Hrun as <-; congruence| |injection Hrun as <-; congruence].
      destruct (settle_single_loop i _ m Hm Hi) as [Hl Hsr].
      destruct (operation_result_flags el r (resume i m)) as [Hs1 Hl1].
      assert (Hseg : forall o,
                (operation_result el r (resume i m)).2 = iterates o ->
                o = getFirstQueueElement (operation_result el r (resume i m)).1).
      { destruct r; simpl; [|discriminate]. by intros o [= <-]. }
      destruct (operation_result el r (resume i m)) as [m1 seg1].
      destruct (drive fuel m1 seg1) as [[e m2]|] eqn:Hd; simpl in Hrun;
        [|discriminate].
      injection Hrun as <-. simpl in *.
      eapply Hend; [exact Hseg| | |exact Hd|exact Hidle]; congruence.
    + injection Hrun as <-. simpl in Hidle. congruence.
Qed.

Lemma iteration_trace_head (el : DMQueueElement) (m : Manager) :
  exists rest,
    trace (iteration el m).1 =
    trace m ++ changedDMQueueInformation (store_get "queue" m) :: rest.
Proof.
  unfold iteration. destruct (manifest_runner _).
  - simpl. rewrite <- app_assoc. by eexists.
  - destruct (size_resolved_prefix
                (with_params (with_size "?? MB" (params el)) el)
                (store_get "queue" m)
                (emit (changedDMQueueInformation (store_get "queue" m)) m))
      as [rest Hrest].
    rewrite Hrest. simpl. rewrite <- app_assoc. by eexists.
Qed.

(** [addToQueue] starts the loop exactly when the flag is [idle]: then the
    first iteration publishes the queue once more and the flag is
    [running] unless the queue was drained at once; when the flag is
    [running] nothing happens after the enqueue, no activation is added
    and no runner operation is invoked. *)
Lemma addToQueue_starts_loop_iff_idle (fuel : nat) (t : DMQueueElement)
    (m m' : Manager) :
  addToQueue fuel (Some t) m = Some m' ->
  (queueState m = idle ->
     exists rest,
       trace m' =
       trace (enqueue t m) ++
       changedDMQueueInformation (store_get "queue" (enqueue t m)) :: rest) /\
  (queueState m = running ->
     m' = enqueue t m /\ loops m' = loops m /\ queueState m' = running /\
     runnerCalls m' = runnerCalls m).
Proof.
  cbn [addToQueue].
  replace (queueState (enqueue t m)) with (queueState m) by reflexivity.
  intros Hrun. split; intros Hs; rewrite Hs in Hrun.
  - destruct (initQueue fuel (enqueue t m)) as [[e m1]|] eqn:Hinit;
      simpl in Hrun; [|discriminate].
    injection Hrun as <-. unfold initQueue in Hinit.
    destruct (getFirstQueueElement (enqueue t m)) as [el|] eqn:Hhead.
    + destruct fuel as [|fuel]; simpl in Hinit; [discriminate|].
      destruct (iteration_trace_head el (set_queueState running (enqueue t m)))
        as [rest Hrest].
      destruct (iteration el _) as [m2 seg2]. simpl in Hrest.
      apply drive_prefix in Hinit as [rest' Hrest'].
      rewrite Hrest', Hrest. rewrite <- app_assoc. by eexists.
    + exfalso. unfold getFirstQueueElement in Hhead.
      rewrite enqueue_queue in Hhead. unfold queue_with in Hhead.
      destruct (findIndex _ _) as [i|] eqn:Hi.
      * apply findIndex_appName_Some in Hi as (old & Hold & _).
        destruct (store_get "queue" m); [done|]. by destruct i.
      * by destruct (store_get "queue" m).
  - injection Hrun as <-. split; [reflexivity|]. split; [reflexivity|].
    split; [exact Hs|].
    unfold runnerCalls. rewrite enqueue_trace, omap_app. simpl. apply app_nil_r.
Qed.

End Properties.

(** * Concrete scenarios *)

(** ** Where the code departs from the specification *)

(** C1 fails for an operation that raises.  G1 is being installed and G2
    is pending when the install operation throws: nothing is recorded in
    the Finished history, G1 stays at the head, G2 is not reached, the
    exception leaves [initQueue] as an unhandled rejection, and the loop
    is gone although the queue is not empty (the flag stays [running]). *)
Lemma raised_operation_escapes_the_loop :
  (fun m => (summary m, last (trace m))) <$>
    run [call_addToQueue (Some G1);
         settle_getInstallInfo 0 (Returned None);
         call_addToQueue (Some G2);
         settle_operation 0 (Raised "EPIPE")]
        (process_start ∅ 0)
  = Some ((["G1"; "G2"], [], running, 0%nat), Some (unhandledRejection "EPIPE")).
Proof. vm_compute. reflexivity. Qed.

(** C7 fails for a size lookup that raises.  The head G1 keeps the size
    it was enqueued with (none, not the placeholder), it is never
    dispatched, and the exception leaves [initQueue]. *)
Lemma raised_size_lookup_escapes_the_loop :
  (fun m => (summary m, size ∘ params <$> store_get "queue" m, runnerCalls m,
             last (trace m))) <$>
    run [call_addToQueue (Some G1);
         settle_getInstallInfo 0 (Raised "ENOTFOUND")]
        (process_start ∅ 0)
  = Some ((["G1"], [], running, 0%nat), [None], [],
          Some (unhandledRejection "ENOTFOUND")).
Proof. vm_compute. reflexivity. Qed.

(** C6 fails for a task with an empty name: it is notified as queued,
    persisted, and even handed to the download operation. *)
Lemma empty_appName_is_enqueued :
  (fun m => (summary m, head (trace m), runnerCalls m)) <$>
    addToQueue 16 (Some (task "" "hyperplay" "install")) (process_start ∅ 0)
  = Some (([""], [], running, 1%nat),
          Some (gameStatusUpdate "" (Some "hyperplay") (Some "/games") "queued"),
          [downloadGame ""]).
Proof. vm_compute. reflexivity. Qed.

(** C8 fails for the empty name: a pending task with that name matches
    and is not removed. *)
Lemma empty_appName_is_not_removed :
  let unnamed := task "" "hyperplay" "install" in
  has_appName "" unnamed = true /\
  (appNames ∘ store_get "queue") <$>
    run [call_addToQueue (Some unnamed)] (process_start ∅ 0) = Some [""] /\
  run [call_addToQueue (Some unnamed); call_removeFromQueue ""] (process_start ∅ 0)
  = run [call_addToQueue (Some unnamed)] (process_start ∅ 0).
Proof. vm_compute. repeat split. Qed.

(** C4.  G2 is enqueued while the loop, started for G1, awaits the size
    lookup.  The enqueue starts no second loop and G2 is pending behind
    G1; but when the lookup settles, line 113 writes back the snapshot of
    line 97, which does not hold G2.  G1 is installed and retired, the
    queue is found empty, the manager goes [idle], and the download of G2
    is never invoked. *)
Lemma enqueue_during_size_lookup_is_lost :
  summary <$> run [call_addToQueue (Some G1); call_addToQueue (Some G2)]
                  (process_start ∅ 0)
  = Some (["G1"; "G2"], [], running, 1%nat) /\
  summary <$> run [call_addToQueue (Some G1); call_addToQueue (Some G2);
                   settle_getInstallInfo 0 (Returned None)]
                  (process_start ∅ 0)
  = Some (["G1"], [], running, 1%nat) /\
  (fun m => (summary m, runnerCalls m)) <$>
    run [call_addToQueue (Some G1); call_addToQueue (Some G2);
         settle_getInstallInfo 0 (Returned None);
         settle_operation 0 (Returned (Some done_))]
        (process_start ∅ 0)
  = Some (([], [("G1", Some done_)], idle, 0%nat),
          [installQueueElement (with_size "?? MB" (params G1))]).
Proof. vm_compute. repeat split. Qed.

(** The same enqueue, made while the install of G1 is awaited, is kept:
    G2 is reached once G1 is retired. *)
Lemma enqueue_during_operation_is_kept :
  (fun m => (summary m, runnerCalls m)) <$>
    run [call_addToQueue (Some G1);
         settle_getInstallInfo 0 (Returned None);
         call_addToQueue (Some G2);
         settle_operation 0 (Returned (Some done_))]
        (process_start ∅ 0)
  = Some ((["G2"], [("G1", Some done_)], running, 1%nat),
          [installQueueElement (with_size "?? MB" (params G1));
           downloadGame "G2"]).
Proof. vm_compute. reflexivity. Qed.

(** A task with an empty name and a runner without operation is never
    taken out of the queue: the loop does not come to an end. *)
Lemma empty_appName_spins :
  addToQueue 16 (Some (task "" "sideload" "install")) (process_start ∅ 0) = None.
Proof. vm_compute. reflexivity. Qed.

(** ** Instances of the theorems *)


Lemma addToFinished_deduplicates_witness :
  length (store_get "finished" (addToFinished G3 (Some done_) sample_running)) =
    length (store_get "finished" sample_running) /\
  store_get "finished" (addToFinished G1 (Some abort) sample_running) =
    store_get "finished" sample_running ++ [with_status (Some abort) G1] /\
  status (with_status (Some done_) G3) = Some done_ /\
  (exists e,
     e ∈ store_get "finished"
           (operation_result G1 (Returned (Some done_)) sample_running).1 /\
     status e = Some done_ /\ params e = params G1 /\
     startTime e = startTime G1 /\ endTime e = clock sample_running) /\
  NoDup (appNames (store_get "finished"
                     (addToFinished G3 (Some done_) sample_running))).
Proof.
  split; [|split; [|split; [|split]]].
  - destruct (addToFinished_deduplicates sample_getFileSize G3 done_
                sample_running) as [Hoverwrite _].
    destruct Hoverwrite as (i & old & _ & _ & _ & _ & Hlen & _);
      [compute_done | exact Hlen].
  - destruct (addToFinished_deduplicates sample_getFileSize G1 abort
                sample_running) as (_ & Happend & _).
    apply Happend. compute_done.
  - destruct (addToFinished_deduplicates sample_getFileSize G3 done_
                sample_running) as (_ & _ & _ & Htagged & _).
    destruct Htagged as [Hstatus _]. exact Hstatus.
  - destruct (addToFinished_deduplicates sample_getFileSize G1 done_
                sample_running) as (_ & _ & _ & _ & _ & _ & Hloop & _).
    exact Hloop.
  - destruct (addToFinished_deduplicates sample_getFileSize G3 done_
                sample_running) as (_ & _ & _ & _ & _ & _ & _ & Hnodup & _).
    apply Hnodup. compute_done.
Defined.

Lemma addToFinished_abort_fallback_witness :
  (exists i old,
     store_get "finished" sample_running !! i = Some old /\
     appName (params old) = "G3" /\
     store_get "finished" (addToFinished G3 None sample_running) =
       <[i := with_status (Some abort) G3]> (store_get "finished" sample_running) /\
     store_get "finished" (addToFinished G3 None sample_running) !! i =
       Some (with_status (Some abort) G3) /\
     status (with_status (Some abort) G3) = Some abort) /\
  last (store_get "finished" (addToFinished G1 None sample_running)) =
    Some (with_status None G1).
Proof.
  split.
  - destruct (addToFinished_abort_fallback G3 sample_running) as [Hoverwrite _].
    apply Hoverwrite. compute_done.
  - destruct (addToFinished_abort_fallback G1 sample_running) as [_ Happend].
    destruct Happend as (_ & Hlast & _); [compute_done | exact Hlast].
Defined.


Lemma removeFromQueue_notifies_under_guard_witness :
  (exists writes,
     trace (removeFromQueue "G9" sample_running) =
     trace sample_running ++ writes ++
     [gameStatusUpdate "G9" None None "done";
      logInfo ["G9"; "removed from download manager."];
      changedDMQueueInformation
        (store_get "queue" (removeFromQueue "G9" sample_running))] /\
     ("G9" ∉ appNames (store_get "queue" sample_running) ->
        writes = [] /\
        downloadManager (removeFromQueue "G9" sample_running) =
          downloadManager sample_running) /\
     ("G9" ∈ appNames (store_get "queue" sample_running) ->
        writes = [storeDelete "queue";
                  storeSet "queue"
                    (store_get "queue" (removeFromQueue "G9" sample_running))])) /\
  removeFromQueue "" sample_running = sample_running.
Proof.
  split.
  - destruct (removeFromQueue_notifies_under_guard "G9" sample_running)
      as [Hguard _].
    apply Hguard; [discriminate | compute_done].
  - destruct (removeFromQueue_notifies_under_guard "" sample_running)
      as [_ Hnothing].
    apply Hnothing. by left.
Defined.

Lemma removeFromQueue_frame_witness :
  length (store_get "queue" (removeFromQueue "G1" sample_running)) =
    Nat.pred (length (store_get "queue" sample_running)) /\
  downloadManager (removeFromQueue "G9" sample_running) =
    downloadManager sample_running /\
  removeFromQueue "" sample_running = sample_running.
Proof.
  split; [|split].
  - destruct (removeFromQueue_frame "G1" sample_running) as [Hremove _].
    destruct Hremove as (i & old & _ & _ & _ & _ & Hlen);
      [discriminate | compute_done | exact Hlen].
  - destruct (removeFromQueue_frame "G9" sample_running) as (_ & Habsent & _).
    apply Habsent. compute_done.
  - destruct (removeFromQueue_frame "" sample_running) as (_ & _ & Hempty & _).
    apply Hempty. reflexivity.
Defined.

Lemma addToQueue_rejects_missing_task_witness :
  (exists m',
     addToQueue 16 None sample_running = Some m' /\
     downloadManager m' = downloadManager sample_running /\
     queueState m' = queueState sample_running /\
     loops m' = loops sample_running /\
     trace m' =
       trace sample_running ++
       [logError "Can not add undefined element to queue!"]) /\
  "" ∈ appNames (store_get "queue" sample_unnamed) /\
  G3 ∈ store_get "queue" (enqueue G3 sample_running).
Proof.
  split; [|split].
  - destruct (addToQueue_rejects_missing_task 16 sample_running)
      as [Hreject _].
    exact Hreject.
  - destruct (addToQueue_rejects_missing_task 16 (process_start ∅ 0))
      as [_ Haccept].
    destruct (Haccept (task "" "gog" "install")) as (_ & _ & Hreturn).
    destruct (Hreturn sample_unnamed) as (_ & _ & _ & Hpending);
      [vm_compute; reflexivity|].
    apply Hpending. left. reflexivity.
  - destruct (addToQueue_rejects_missing_task 16 sample_running)
      as [_ Haccept].
    destruct (Haccept G3) as (_ & _ & Hreturn).
    destruct (Hreturn (enqueue G3 sample_running)) as (_ & Hrunning & _);
      [reflexivity|].
    apply Hrunning. reflexivity.
Defined.

Lemma size_lookup_is_best_effort_witness :
  (iteration G1 sample_running).2 =
    suspends (awaiting_getInstallInfo G1 (store_get "queue" sample_running)) /\
  resolved_size sample_getFileSize
    (Some {| manifest := Some {| download_size := Some 2048 |} |}) =
    sample_getFileSize 2048 /\
  size (params (with_startTime (clock sample_running)
                  (with_params (with_size "?? MB" (params G2)) G2))) =
    Some "?? MB".
Proof.
  split; [|split].
  - destruct (size_lookup_is_best_effort sample_getFileSize G1 sample_running)
      as [Hlookup _].
    destruct Hlookup as [Hseg _]; [reflexivity | exact Hseg].
  - destruct (size_lookup_is_best_effort sample_getFileSize G1 sample_running)
      as (_ & _ & Hrendered & _).
    apply Hrendered. discriminate.
  - destruct (size_lookup_is_best_effort sample_getFileSize G2 sample_running)
      as (_ & _ & _ & _ & _ & _ & _ & Hdirect & _).
    destruct Hdirect as [Hsize _]; [reflexivity | exact Hsize].
Defined.

Lemma loop_retires_and_advances_witness :
  store_get "queue"
    (operation_result G1 (Returned (Some error)) sample_running).1 = [G2] /\
  ("G1" ∉ appNames
     (store_get "queue"
        (operation_result G1 (Returned (Some error)) sample_running).1)) /\
  (exists e m',
     initQueue (length (store_get "queue" sample_running)) sample_running =
     Some (e, m') /\ (e = exited \/ e = parked)).
Proof.
  destruct (loop_retires_and_advances G1 error sample_running)
    as (_ & _ & _ & _ & Hadvance & _ & _ & Htotal & _).
  destruct Hadvance as [Hhead Habsent]; [discriminate|].
  split; [|split].
  - apply (Hhead G1 [G2]); reflexivity.
  - apply Habsent. compute_done.
  - apply Htotal. compute_done.
Defined.

(** * Further properties of the download manager *)

Lemma queue_with_idempotent (t : DMQueueElement) (q : list DMQueueElement) :
  queue_with t (queue_with t q) = queue_with t q.
Proof.
  assert (Ht : has_appName (appName (params t)) t = true)
    by (by apply has_appName_true).
  destruct (findIndex (has_appName (appName (params t))) q) as [i|] eqn:Hi.
  - assert (Hq : queue_with t q = <[i := t]> q)
      by (unfold queue_with; by rewrite Hi).
    rewrite Hq. unfold queue_with.
    rewrite (findIndex_insert_same _ q i t Hi Ht).
    apply list_insert_insert_eq.
  - assert (Hq : queue_with t q = q ++ [t])
      by (unfold queue_with; by rewrite Hi).
    rewrite Hq. unfold queue_with.
    rewrite (findIndex_snoc _ q t Hi), Ht.
    replace (length q) with (length q + 0)%nat by lia.
    by rewrite insert_app_r.
Qed.

Lemma appNames_delete_found (name : string) (q : list DMQueueElement) (i : nat) :
  NoDup (appNames q) -> findIndex (has_appName name) q = Some i ->
  name ∉ appNames (delete i q).
Proof.
  intros Hnd Hi. apply findIndex_appName_Some in Hi as (old & Hold & Hn & _).
  unfold appNames in *. rewrite list_fmap_delete.
  assert (Hi : (appName ∘ params <$> q) !! i = Some name).
  { rewrite list_lookup_fmap, Hold. simpl. by rewrite Hn. }
  intros Hin. apply list_elem_of_lookup in Hin as [j Hj].
  destruct (decide (j < i)%nat) as [Hlt|Hge].
  - rewrite list_lookup_delete_lt in Hj by exact Hlt.
    pose proof (NoDup_lookup _ _ _ _ Hnd Hj Hi). lia.
  - rewrite list_lookup_delete_ge in Hj by lia.
    pose proof (NoDup_lookup _ _ _ _ Hnd Hj Hi). lia.
Qed.

Lemma finished_with_names (el : DMQueueElement) (st : option DMStatus)
    (h : list DMQueueElement) :
  appNames h `prefix_of` appNames (finished_with el st h).
Proof.
  unfold finished_with. destruct (findIndex _ h) as [i|] eqn:Hi.
  - apply findIndex_appName_Some in Hi as (old & Hold & Hn & _).
    by rewrite (appNames_insert_same h i old _ Hold).
  - rewrite appNames_app. by eexists.
Qed.

Lemma operation_settled_history (el : DMQueueElement) (st : option DMStatus)
    (m : Manager) :
  appNames (store_get "finished" m)
    `prefix_of` appNames (store_get "finished" (operation_settled el st m).1).
Proof. rewrite operation_settled_finished. apply finished_with_names. Qed.

Lemma size_resolved_history (el : DMQueueElement) (q : list DMQueueElement)
    (m : Manager) :
  appNames (store_get "finished" m)
    `prefix_of` appNames (store_get "finished" (size_resolved el q m).1).
Proof.
  unfold size_resolved. destruct (dispatch _).
  - unfold store_get. simpl. by rewrite lookup_insert_ne.
  - etrans; [|apply operation_settled_history].
    by rewrite store_get_set_ne.
Qed.

Lemma iteration_history (el : DMQueueElement) (m : Manager) :
  appNames (store_get "finished" m)
    `prefix_of` appNames (store_get "finished" (iteration el m).1).
Proof.
  unfold iteration. destruct (manifest_runner _); [done|].
  apply (size_resolved_history _ _ (emit _ m)).
Qed.

Lemma drive_history (fuel : nat) (m : Manager) (seg : Segment) (e : LoopEnd)
    (m' : Manager) :
  drive fuel m seg = Some (e, m') ->
  appNames (store_get "finished" m) `prefix_of` appNames (store_get "finished" m').
Proof.
  revert m seg. induction fuel as [|fuel IH]; intros m seg Hrun;
    destruct seg as [s|[el|]|exn]; simpl in Hrun; try discriminate;
    try (by injection Hrun as <- <-).
  pose proof (iteration_history el m) as Hit.
  destruct (iteration el m) as [m1 seg1]. etrans; [exact Hit|]. by eapply IH.
Qed.

Section MoreProperties.

Variable getFileSize : Z -> string.

Lemma exec_history (fuel : nat) (i : Input) (m m' : Manager) :
  exec getFileSize fuel i m = Some m' ->
  appNames (store_get "finished" m) `prefix_of` appNames (store_get "finished" m').
Proof.
  intros Hrun.
  destruct i as [|[t|]|name|i r|i r|now readings]; cbn [exec addToQueue] in Hrun.
  - destruct (initQueue fuel m) as [[e m1]|] eqn:Hinit; simpl in Hrun;
      [|discriminate].
    injection Hrun as <-. unfold initQueue in Hinit.
    by apply drive_history in Hinit.
  - assert (Hq : store_get "finished" (enqueue t m) = store_get "finished" m).
    { unfold store_get. by rewrite enqueue_finished. }
    rewrite <- Hq. destruct (queueState (enqueue t m)).
    + destruct (initQueue fuel (enqueue t m)) as [[e m1]|] eqn:Hinit;
        simpl in Hrun; [|discriminate].
      injection Hrun as <-. unfold initQueue in Hinit.
      by apply drive_history in Hinit.
    + by injection Hrun as <-.
  - by injection Hrun as <-.
  - injection Hrun as <-. unfold store_get.
    by rewrite removeFromQueue_finished.
  - destruct (loops m !! i) as [[el q|el]|] eqn:Hi;
      [|by injection Hrun as <-..].
    assert (Hseg : appNames (store_get "finished" m) `prefix_of`
              appNames (store_get "finished"
                          (installInfo_settled getFileSize el q r (resume i m)).1)).
    { destruct r; simpl; [|done]. apply (size_resolved_history _ _ (resume i m)). }
    destruct (installInfo_settled getFileSize el q r (resume i m)) as [m1 seg1].
    destruct (drive fuel m1 seg1) as [[e m2]|] eqn:Hd; simpl in Hrun;
      [|discriminate].
    injection Hrun as <-. etrans; [exact Hseg|]. by eapply drive_history.
  - destruct (loops m !! i) as [[el q|el]|] eqn:Hi;
      [by injection Hrun as <-| |by injection Hrun as <-].
    assert (Hseg : appNames (store_get "finished" m) `prefix_of`
              appNames (store_get "finished" (operation_result el r (resume i m)).1)).
    { destruct r; simpl; [|done]. apply (operation_settled_history _ _ (resume i m)). }
    destruct (operation_result el r (resume i m)) as [m1 seg1].
    destruct (drive fuel m1 seg1) as [[e m2]|] eqn:Hd; simpl in Hrun;
      [|discriminate].
    injection Hrun as <-. etrans; [exact Hseg|]. by eapply drive_history.
  - by injection Hrun as <-.
Qed.

(** X1. As long as [initQueue] is entered only while [queueState] is
    ['idle'], as [addToQueue] enters it, at most one activation of the
    processing loop exists and none while the flag is ['idle'], whatever
    calls and settlements arrive in whatever order.  [initQueue] itself
    checks nothing: called on a manager whose head task has a size lookup
    or a download, it adds an activation to those suspended there. *)
Theorem one_activation_at_most (store : gmap string (list DMQueueElement))
    (now : Z) (m : Manager) :
  reachable_on_idle getFileSize (process_start store now) m ->
  ((length (loops m) <= 1)%nat /\
   (queueState m = idle -> loops m = []) /\
   (loops m <> [] -> queueState m = running)) /\
  (forall fuel el,
     getFirstQueueElement m = Some el ->
     manifest_runner (runner (params el)) = true \/
     runner (params el) = "hyperplay" ->
     exists m',
       initQueue (S fuel) m = Some (parked, m') /\
       length (loops m') = S (length (loops m)) /\ queueState m' = running).
Proof.
  intros Hreach. split.
  - destruct (reachable_single_loop getFileSize store now m Hreach)
      as [Hlen Hidle].
    split; [exact Hlen|]. split; [exact Hidle|].
    intros Hl. destruct (queueState m); [by specialize (Hidle eq_refl) | done].
  - intros fuel el Hhead Hop. unfold initQueue. rewrite Hhead. cbn [drive].
    assert (Hseg : exists s,
              (iteration el (set_queueState running m)).2 = suspends s).
    { unfold iteration.
      destruct (manifest_runner (runner (params el))) eqn:Hm; [by eexists|].
      destruct Hop as [Hop|Hop]; [congruence|]. unfold size_resolved.
      replace (dispatch _) with (Some (downloadGame (appName (params el)))).
      - by eexists.
      - unfold dispatch. simpl. by rewrite Hm, Hop. }
    destruct Hseg as [s Hs].
    pose proof (iteration_flags el (set_queueState running m)) as [Hq Hl].
    destruct (iteration el (set_queueState running m)) as [m1 seg1].
    simpl in *. subst seg1.
    exists (set_loops (loops m1 ++ [s]) m1).
    split; [by destruct fuel|]. split; [|exact Hq].
    simpl. rewrite length_app, Hl. simpl. lia.
Qed.

(** X2. An input that takes [queueState] from ['running'] back to
    ['idle'] leaves the pending queue empty: the manager turns idle only
    when the loop has found the queue empty.  If the input is no direct
    call of [initQueue], no activation of the loop is left behind either.
    A direct call of [initQueue] on a running manager leaves the
    activations suspended there as they are, also when it sets the flag
    to ['idle']. *)
Theorem idle_only_with_empty_queue (store : gmap string (list DMQueueElement))
    (now : Z) (m m' : Manager) (fuel : nat) (i : Input) :
  reachable_on_idle getFileSize (process_start store now) m ->
  queueState m = running ->
  exec getFileSize fuel i m = Some m' ->
  queueState m' = idle ->
  store_get "queue" m' = [] /\
  (i <> call_initQueue -> loops m' = []) /\
  (i = call_initQueue -> loops m' = loops m).
Proof.
  intros Hreach Hs Hexec Hidle. split; [|split].
  - destruct (queueState_lifecycle getFileSize fuel m) as (_ & _ & Hlife).
    eapply Hlife; eauto. by eapply reachable_single_loop.
  - intros Hi.
    assert (Hreach' : reachable_on_idle getFileSize (process_start store now) m').
    { apply (reachable_on_idle_exec _ _ m fuel i); [exact Hreach| |exact Hexec].
      intros Hcall. contradiction. }
    by destruct (reachable_single_loop getFileSize store now m' Hreach')
      as [_ Hnone]; apply Hnone.
  - intros ->. cbn [exec] in Hexec.
    destruct (initQueue fuel m) as [[e m1]|] eqn:Hinit; simpl in Hexec;
      [|discriminate].
    injection Hexec as <-.
    by destruct (initQueue_ends_idle fuel m e m1 Hinit Hidle) as (_ & _ & Hl).
Qed.

(** X3. [addToQueue] starts the loop exactly when [queueState] is
    ['idle']: the first iteration then runs before [addToQueue] returns
    and publishes the queue a second time.  On a ['running'] manager the
    call only enqueues: no activation is added, no runner operation is
    invoked, and the flag stays ['running']. *)
Theorem addToQueue_starts_loop_when_idle (fuel : nat) (t : DMQueueElement)
    (m m' : Manager) :
  addToQueue fuel (Some t) m = Some m' ->
  (queueState m = idle ->
     exists rest,
       trace m' =
       trace (enqueue t m) ++
       changedDMQueueInformation (store_get "queue" (enqueue t m)) :: rest) /\
  (queueState m = running ->
     trace m' = trace (enqueue t m) /\ loops m' = loops m /\
     queueState m' = running /\ runnerCalls m' = runnerCalls m).
Proof.
  intros Hadd.
  destruct (addToQueue_starts_loop_iff_idle fuel t m m' Hadd) as [Hidle Hrun].
  split; [exact Hidle|]. intros Hs.
  destruct (Hrun Hs) as (-> & Hl & Hq & Hc). done.
Qed.

(** X4. No input removes or reorders names of the Finished history: the
    names it holds after an input start with the names it held before.  A
    name enters the history at the end, when a task of that name is
    retired for the first time. *)
Theorem finished_names_only_grow (fuel : nat) (i : Input) (m m' : Manager) :
  exec getFileSize fuel i m = Some m' ->
  appNames (store_get "finished" m) `prefix_of` appNames (store_get "finished" m') /\
  (length (store_get "finished" m) <= length (store_get "finished" m'))%nat.
Proof.
  intros Hexec. pose proof (exec_history fuel i m m' Hexec) as Hpre.
  split; [exact Hpre|]. apply prefix_length in Hpre.
  unfold appNames in Hpre. by rewrite !length_fmap in Hpre.
Qed.

(** X5. While the loop is running, enqueueing a task twice is the same as
    enqueueing it once, and enqueueing a task with a fresh, non-empty name
    and removing it again restores the pending queue. *)
Theorem enqueue_round_trips (fuel : nat) (t : DMQueueElement) (m m1 : Manager) :
  queueState m = running ->
  exec getFileSize fuel (call_addToQueue (Some t)) m = Some m1 ->
  (forall m2,
     exec getFileSize fuel (call_addToQueue (Some t)) m1 = Some m2 ->
     store_get "queue" m2 = store_get "queue" m1) /\
  (forall m2,
     appName (params t) <> "" ->
     appName (params t) ∉ appNames (store_get "queue" m) ->
     exec getFileSize fuel (call_removeFromQueue (appName (params t))) m1 = Some m2 ->
     store_get "queue" m2 = store_get "queue" m).
Proof.
  intros Hs Hadd. cbn [exec addToQueue] in Hadd.
  replace (queueState (enqueue t m)) with (queueState m) in Hadd by reflexivity.
  rewrite Hs in Hadd. injection Hadd as <-. split.
  - cbn [exec addToQueue].
    replace (queueState (enqueue t (enqueue t m))) with (queueState m)
      by reflexivity.
    rewrite Hs. intros m2 [= <-]. rewrite !enqueue_queue.
    apply queue_with_idempotent.
  - intros m2 Hname Hfresh. cbn [exec]. intros [= <-].
    rewrite removeFromQueue_queue, enqueue_queue.
    unfold truthy. rewrite (bool_decide_eq_false_2 _ Hname). simpl.
    apply findIndex_appName_None in Hfresh. unfold queue_with. rewrite Hfresh.
    rewrite (findIndex_snoc _ _ t Hfresh).
    replace (has_appName (appName (params t)) t) with true
      by (symmetry; by apply has_appName_true).
    replace (store_get "queue" m ++ [t])
      with (store_get "queue" m ++ t :: []) by reflexivity.
    rewrite delete_middle. apply app_nil_r.
Qed.

(** X6. Removing a name twice is the same as removing it once: with no
    name pending twice, the second [removeFromQueue] finds nothing to
    remove and writes nothing to the store. *)
Theorem removeFromQueue_idempotent (name : string) (m : Manager) :
  NoDup (appNames (store_get "queue" m)) ->
  downloadManager (removeFromQueue name (removeFromQueue name m)) =
    downloadManager (removeFromQueue name m) /\
  (name <> "" -> name ∉ appNames (store_get "queue" (removeFromQueue name m))).
Proof.
  intros Hnd.
  assert (Habsent : name <> "" ->
            name ∉ appNames (store_get "queue" (removeFromQueue name m))).
  { intros Hname. rewrite removeFromQueue_queue. unfold truthy.
    rewrite (bool_decide_eq_false_2 _ Hname). simpl.
    destruct (findIndex _ _) as [i|] eqn:Hi.
    - by apply appNames_delete_found.
    - by apply findIndex_appName_None. }
  split; [|exact Habsent].
  destruct (decide (name = "")) as [->|Hname]; [reflexivity|].
  apply Habsent, findIndex_appName_None in Hname.
  rewrite (removeFromQueue_store name (removeFromQueue name m)), Hname.
  by destruct (truthy name && _).
Qed.

Lemma dispatch_none (el : DMQueueElement) :
  manifest_runner (runner (params el)) = false ->
  runner (params el) <> "hyperplay" -> dispatch el = None.
Proof.
  intros Hm Hr. unfold dispatch. rewrite Hm. simpl.
  by rewrite (bool_decide_eq_false_2 _ Hr).
Qed.

(** An iteration for a head without runner operation runs to the end of
    the loop body without suspension. *)
Lemma iteration_unsupported (el : DMQueueElement) (m : Manager) :
  manifest_runner (runner (params el)) = false ->
  runner (params el) <> "hyperplay" ->
  let started :=
    with_startTime (clock m) (with_params (with_size "?? MB" (params el)) el) in
  iteration el m =
  operation_settled started (Some error)
    (store_set "queue" (assign_head started (store_get "queue" m))
       (tick (emit (changedDMQueueInformation (store_get "queue" m)) m))).
Proof.
  intros Hm Hr started. unfold iteration. rewrite Hm. unfold size_resolved.
  cbn [clock emit]. fold started. by rewrite (dispatch_none started Hm Hr).
Qed.

(** X7. A task with a non-empty name whose runner has no operation
    (neither ['gog'], ['legendary'] nor ['hyperplay']), enqueued on an
    idle manager with nothing pending, is retired before [addToQueue]
    returns: it is recorded in the Finished history with status
    ['error'] and the placeholder size, its start time the reading of the
    clock at line 111 and its end time the next reading, at line 121; the
    queue is empty again, the manager is ['idle'], and no runner
    operation was invoked. *)
Theorem unsupported_task_is_retired_at_once (fuel : nat) (t : DMQueueElement)
    (m : Manager) :
  queueState m = idle -> store_get "queue" m = [] ->
  appName (params t) <> "" ->
  manifest_runner (runner (params t)) = false ->
  runner (params t) <> "hyperplay" ->
  let retired :=
    with_endTime (clock (tick m))
      (with_startTime (clock m) (with_params (with_size "?? MB" (params t)) t)) in
  exists m',
    addToQueue (S fuel) (Some t) m = Some m' /\
    store_get "queue" m' = [] /\
    store_get "finished" m' =
      finished_with retired (Some error) (store_get "finished" m) /\
    (exists e,
       e ∈ store_get "finished" m' /\ status e = Some error /\
       params e = with_size "?? MB" (params t) /\ type e = type t /\
       startTime e = clock m /\ endTime e = clock (tick m)) /\
    queueState m' = idle /\ loops m' = loops m /\
    runnerCalls m' = runnerCalls m.
Proof.
  intros Hs Hq Hname Hm Hr retired. cbn [addToQueue].
  replace (queueState (enqueue t m)) with (queueState m) by reflexivity.
  rewrite Hs. unfold initQueue, getFirstQueueElement.
  assert (Hq1 : store_get "queue" (enqueue t m) = [t])
    by (by rewrite enqueue_queue, Hq).
  rewrite Hq1. cbn [head drive].
  rewrite (iteration_unsupported t _ Hm Hr). cbn [clock set_queueState].
  change (store_get "queue" (set_queueState running (enqueue t m)))
    with (store_get "queue" (enqueue t m)).
  rewrite Hq1. cbn [assign_head].
  match goal with
  | |- context [operation_settled ?e ?st ?m0] =>
      pose proof (operation_settled_queue e st m0) as Hqueue;
      pose proof (operation_settled_finished e st m0) as Hfin;
      pose proof (operation_settled_flags e st m0) as [Hflag Hloops];
      pose proof (runnerCalls_operation_settled e st m0) as Hcalls;
      pose proof (operation_settled_segment e st m0) as Hseg;
      destruct (operation_settled e st m0) as [m3 seg3] eqn:Hop
  end.
  simpl in Hqueue, Hfin, Hflag, Hloops, Hcalls, Hseg. subst seg3.
  rewrite store_get_set_eq in Hqueue. unfold truthy in Hqueue.
  rewrite (bool_decide_eq_false_2 _ Hname) in Hqueue. simpl in Hqueue.
  unfold has_appName in Hqueue. simpl in Hqueue.
  rewrite bool_decide_eq_true_2 in Hqueue by reflexivity. simpl in Hqueue.
  unfold getFirstQueueElement. rewrite Hqueue. simpl.
  assert (Hfinished : store_get "finished" m3 =
            finished_with retired (Some error) (store_get "finished" m)).
  { rewrite Hfin. rewrite store_get_set_ne by done.
    unfold store_get at 1. simpl. rewrite lookup_insert_ne by done.
    reflexivity. }
  exists (set_queueState idle m3). split; [by destruct fuel|].
  split; [exact Hqueue|]. split; [exact Hfinished|]. split.
  - exists (with_status (Some error) retired). split; [|done].
    change (store_get "finished" (set_queueState idle m3))
      with (store_get "finished" m3).
    rewrite Hfinished. apply finished_with_elem.
  - split; [reflexivity|]. split; [exact Hloops|].
    change (runnerCalls (set_queueState idle m3)) with (runnerCalls m3).
    rewrite Hcalls, runnerCalls_store_set.
    change (runnerCalls (tick ?x)) with (runnerCalls x).
    rewrite runnerCalls_emit. simpl.
    rewrite app_nil_r.
    change (runnerCalls (set_queueState running (enqueue t m)))
      with (runnerCalls (enqueue t m)).
    unfold runnerCalls. rewrite enqueue_trace, omap_app. simpl.
    apply app_nil_r.
Qed.

Lemma unnamed_unsupported_spins (fuel : nat) (m : Manager) (el : DMQueueElement) :
  appName (params el) = "" ->
  manifest_runner (runner (params el)) = false ->
  runner (params el) <> "hyperplay" ->
  drive fuel m (iterates (Some el)) = None.
Proof.
  revert m el. induction fuel as [|fuel IH]; intros m el Hname Hm Hr;
    [reflexivity|].
  cbn [drive]. rewrite (iteration_unsupported el m Hm Hr).
  match goal with
  | |- context [operation_settled ?e ?st ?m0] =>
      pose proof (operation_settled_queue e st m0) as Hqueue;
      pose proof (operation_settled_segment e st m0) as Hseg;
      destruct (operation_settled e st m0) as [m3 seg3]
  end.
  simpl in Hqueue, Hseg. subst seg3.
  rewrite store_get_set_eq, Hname in Hqueue. simpl in Hqueue.
  unfold getFirstQueueElement. rewrite Hqueue.
  destruct (store_get "queue" m); simpl; by apply IH.
Qed.

(** X8. A task with an empty name whose runner has no operation,
    enqueued on an idle manager with nothing pending, is never taken out
    of the queue: [removeFromQueue('')] does nothing, the task stays the
    head, and the loop started by [addToQueue] does not come to an end,
    whatever the number of iterations allowed. *)
Theorem unnamed_unsupported_task_never_ends (t : DMQueueElement) (m : Manager) :
  queueState m = idle -> store_get "queue" m = [] ->
  appName (params t) = "" ->
  manifest_runner (runner (params t)) = false ->
  runner (params t) <> "hyperplay" ->
  forall fuel, addToQueue fuel (Some t) m = None.
Proof.
  intros Hs Hq Hname Hm Hr fuel. cbn [addToQueue].
  replace (queueState (enqueue t m)) with (queueState m) by reflexivity.
  rewrite Hs. unfold initQueue, getFirstQueueElement.
  rewrite enqueue_queue, Hq. cbn [queue_with findIndex app head].
  by rewrite unnamed_unsupported_spins.
Qed.

(** X9. When the size lookup of the head settles and an operation is
    dispatched, the queue persisted at line 113 is the snapshot read at
    line 97 before the lookup, with its head replaced by the sized and
    started task: it does not depend on the pending queue found in the
    store at that moment, and the activation is suspended again at the
    operation. *)
Theorem size_lookup_writes_back_snapshot (fuel i : nat) (el : DMQueueElement)
    (snapshot : list DMQueueElement) (info : option InstallInfo) (m m' : Manager) :
  loops m !! i = Some (awaiting_getInstallInfo el snapshot) ->
  dispatch el <> None ->
  exec getFileSize fuel (settle_getInstallInfo i (Returned info)) m = Some m' ->
  let started :=
    with_startTime (clock m)
      (with_params (with_size (resolved_size getFileSize info) (params el)) el) in
  store_get "queue" m' = assign_head started snapshot /\
  loops m' = delete i (loops m) ++ [awaiting_operation started] /\
  store_get "finished" m' = store_get "finished" m.
Proof.
  intros Hi Hd Hexec started. cbn [exec] in Hexec. rewrite Hi in Hexec.
  cbn [installInfo_settled] in Hexec. unfold size_resolved in Hexec.
  cbn [clock resume set_loops] in Hexec. fold started in Hexec.
  assert (Hsame : dispatch started = None -> dispatch el = None).
  { unfold dispatch, started. simpl.
    destruct (manifest_runner _ && bool_decide (type el = "install"));
      [discriminate|].
    destruct (manifest_runner _ && bool_decide (type el = "update"));
      [discriminate|].
    by destruct (bool_decide (runner (params el) = "hyperplay")). }
  destruct (dispatch started) as [c|]; [|by specialize (Hsame eq_refl)].
  destruct fuel; simpl in Hexec; injection Hexec as <-;
    (split; [apply store_get_set_eq|]; split; [reflexivity|];
     unfold store_get; simpl; by rewrite lookup_insert_ne).
Qed.

(** X10. The task recorded in the Finished history carries the time at
    which it was dispatched as [startTime] and the time at which its
    operation settled as [endTime]; if the clock did not go back in
    between, [startTime] is not after [endTime]. *)
Theorem finished_timestamps (el : DMQueueElement) (q : list DMQueueElement)
    (c : RunnerCall) (s : DMStatus) (m m2 : Manager) :
  dispatch el = Some c ->
  let started := with_startTime (clock m) el in
  (size_resolved el q m).2 = suspends (awaiting_operation started) /\
  exists e,
    e ∈ store_get "finished" (operation_result started (Returned (Some s)) m2).1 /\
    appName (params e) = appName (params el) /\ status e = Some s /\
    startTime e = clock m /\ endTime e = clock m2 /\
    (clock m <= clock m2 -> startTime e <= endTime e).
Proof.
  intros Hd started. split.
  - unfold size_resolved. fold started.
    replace (dispatch started) with (dispatch el) by reflexivity.
    by rewrite Hd.
  - exists (with_status (Some s) (with_endTime (clock m2) started)).
    split; [|done]. cbn [operation_result].
    rewrite operation_settled_finished. apply finished_with_elem.
Qed.

End MoreProperties.

(** ** The loop run without interference *)

Lemma drive_suspends (fuel : nat) (m : Manager) (s : Suspended) :
  drive fuel m (suspends s) = Some (parked, set_loops (loops m ++ [s]) m).
Proof. by destruct fuel. Qed.

Lemma drive_exits (fuel : nat) (m : Manager) :
  drive fuel m (iterates None) = Some (exited, set_queueState idle m).
Proof. by destruct fuel. Qed.

Lemma operation_settled_clock (el : DMQueueElement) (st : option DMStatus)
    (m : Manager) :
  clock (operation_settled el st m).1 = clock (tick m) /\
  later (operation_settled el st m).1 = later (tick m).
Proof.
  unfold operation_settled. simpl.
  by destruct (removeFromQueue_flags (appName (params el))
                 (addToFinished (with_endTime (clock m) el) st (tick m)))
    as (_ & _ & -> & ->).
Qed.

(** Retiring the head: the queue loses its head and the loop goes on with
    the next task. *)
Lemma operation_settled_head (el first : DMQueueElement)
    (rest : list DMQueueElement) (st : option DMStatus) (m : Manager) :
  store_get "queue" m = first :: rest ->
  appName (params first) = appName (params el) ->
  appName (params el) <> "" ->
  store_get "queue" (operation_settled el st m).1 = rest /\
  (operation_settled el st m).2 = iterates (head rest).
Proof.
  intros Hq Hfirst Hname.
  assert (Hrest : store_get "queue" (operation_settled el st m).1 = rest).
  { rewrite operation_settled_queue, Hq. unfold truthy.
    rewrite (bool_decide_eq_false_2 _ Hname). simpl. unfold has_appName.
    by rewrite (bool_decide_eq_true_2 _ Hfirst). }
  split; [exact Hrest|].
  rewrite operation_settled_segment. unfold getFirstQueueElement.
  by rewrite Hrest.
Qed.

Section Undisturbed_run.

Variable getFileSize : Z -> string.
Variable lookup_result : string -> option InstallInfo.
Variable outcome : string -> option DMStatus.

Lemma sized_runner (el : DMQueueElement) (b : bool) :
  manifest_runner (runner (params el)) = b ->
  sized getFileSize lookup_result el =
  with_params
    (with_size
       (if b
        then resolved_size getFileSize (lookup_result (appName (params el)))
        else "?? MB")
       (params el))
    el.
Proof. intros <-. reflexivity. Qed.

Local Abbreviation settle_all := (settle_all getFileSize lookup_result outcome).
Local Abbreviation sized := (sized getFileSize lookup_result).
Local Abbreviation next_up := (next_up getFileSize lookup_result outcome).

Lemma retired_status_sized (el : DMQueueElement) (t : Z) :
  match dispatch (with_startTime t (sized el)) with
  | Some _ => outcome (appName (params el))
  | None => Some error
  end = retired_status outcome el.
Proof.
  unfold retired_status, dispatch. simpl.
  destruct (manifest_runner _ && bool_decide (type el = "install")); [done|].
  destruct (manifest_runner _ && bool_decide (type el = "update")); [done|].
  by destruct (bool_decide (runner (params el) = "hyperplay")).
Qed.

(** From the write-back of the sized head to the point where the next
    task is taken up. *)
Lemma dispatch_to_next (el first : DMQueueElement) (rest : list DMQueueElement)
    (m m0 m1 : Manager) (seg1 : Segment) (f F n : nat) :
  appName (params el) <> "" -> loops m0 = [] ->
  clock m0 = clock m -> later m0 = later m ->
  store_get "finished" m0 = store_get "finished" m ->
  runnerCalls m0 = runnerCalls m ->
  size_resolved (sized el) (first :: rest) m0 = (m1, seg1) ->
  (1 <= n)%nat ->
  exists f' n' m3,
    (f' = f \/ f' = F) /\ (n - 1 <= n')%nat /\
    (snd <$> drive f m1 seg1) ≫= settle_all F n =
    (snd <$> drive f' m3 (iterates (head rest))) ≫= settle_all F n' /\
    next_up el rest m m3.
Proof.
  intros Hname Hl Hc Hlat Hfin Hcalls Hsize Hn.
  pose proof (retired_status_sized el (clock m0)) as Hstatus.
  unfold size_resolved in Hsize. cbn [assign_head] in Hsize.
  set (started := with_startTime (clock m0) (sized el)) in *.
  set (m2 := store_set "queue" (started :: rest) (tick m0)) in *.
  assert (Hq2 : store_get "queue" m2 = started :: rest)
    by apply store_get_set_eq.
  assert (Hf2 : store_get "finished" m2 = store_get "finished" m)
    by (unfold m2; by rewrite store_get_set_ne).
  assert (Hc2 : runnerCalls m2 = runnerCalls m)
    by (unfold m2; by rewrite runnerCalls_store_set).
  assert (Ht1 : clock m2 = clock (tick m)) by (simpl; by rewrite Hc, Hlat).
  assert (Ht2 : clock (tick m2) = clock (tick (tick m)))
    by (simpl; by rewrite Hc, Hlat).
  assert (Ht3 : later (tick m2) = later (tick (tick m)))
    by (simpl; by rewrite Hlat).
  assert (Hrecorded : with_endTime (clock m2) started =
            with_endTime (clock (tick m)) (with_startTime (clock m) (sized el)))
    by (unfold started; by rewrite Ht1, Hc).
  destruct (dispatch started) as [c|] eqn:Hd.
  - injection Hsize as <- <-. rewrite drive_suspends.
    destruct n as [|n']; [lia|]. cbn [fmap option_fmap option_map snd mbind option_bind].
    cbn [settle_all loops set_loops emit].
    change (loops m2) with (loops m0). rewrite Hl.
    cbn [app exec loops set_loops lookup list_lookup operation_result].
    set (m2r := resume 0 _).
    assert (Hq2r : store_get "queue" m2r = started :: rest) by exact Hq2.
    destruct (operation_settled_head started started rest
                (outcome (appName (params started))) m2r Hq2r eq_refl Hname)
      as [Hq3 Hseg3].
    pose proof (operation_settled_finished started
                  (outcome (appName (params started))) m2r) as Hf3.
    pose proof (operation_settled_clock started
                  (outcome (appName (params started))) m2r) as [Hc3 Hlat3].
    pose proof (operation_settled_flags started
                  (outcome (appName (params started))) m2r) as [_ Hl3].
    pose proof (runnerCalls_operation_settled started
                  (outcome (appName (params started))) m2r) as Hr3.
    destruct (operation_settled started _ m2r) as [m3 seg3].
    cbn [fst snd] in Hq3, Hseg3, Hf3, Hc3, Hlat3, Hl3, Hr3. subst seg3.
    exists F, n', m3. split; [by right|]. split; [lia|]. split; [reflexivity|].
    split; [exact Hq3|]. split; [exact Hl3|].
    split; [rewrite Hc3; exact Ht2|]. split; [rewrite Hlat3; exact Ht3|].
    split.
    + rewrite Hf3. change (store_get "finished" m2r) with (store_get "finished" m2).
      rewrite Hf2. change (clock m2r) with (clock m2). rewrite Hrecorded.
      by rewrite <- Hstatus.
    + rewrite Hr3. change (runnerCalls m2r) with (runnerCalls (emit (runnerCall c) m2)).
      rewrite runnerCalls_emit, Hc2.
      replace (dispatch (sized el)) with (dispatch started) by reflexivity.
      by rewrite Hd.
  - destruct (operation_settled_head started started rest (Some error) m2 Hq2
                eq_refl Hname) as [Hq3 Hseg3].
    pose proof (operation_settled_finished started (Some error) m2) as Hf3.
    pose proof (operation_settled_clock started (Some error) m2) as [Hc3 Hlat3].
    pose proof (operation_settled_flags started (Some error) m2) as [_ Hl3].
    pose proof (runnerCalls_operation_settled started (Some error) m2) as Hr3.
    rewrite Hsize in Hq3, Hseg3, Hf3, Hc3, Hlat3, Hl3, Hr3.
    cbn [fst snd] in Hq3, Hseg3, Hf3, Hc3, Hlat3, Hl3, Hr3. subst seg1.
    exists f, n, m1. split; [by left|]. split; [lia|]. split; [reflexivity|].
    split; [exact Hq3|]. split; [by rewrite Hl3|].
    split; [rewrite Hc3; exact Ht2|]. split; [rewrite Hlat3; exact Ht3|].
    split.
    + rewrite Hf3, Hf2, Hrecorded. by rewrite <- Hstatus.
    + rewrite Hr3, Hc2.
      replace (dispatch (sized el)) with (dispatch started) by reflexivity.
      rewrite Hd. by rewrite app_nil_r.
Qed.

(** From the [while] test with the head [el] to the point where the next
    task is taken up. *)
Lemma head_to_next (el : DMQueueElement) (rest : list DMQueueElement)
    (m : Manager) (f F n : nat) :
  store_get "queue" m = el :: rest -> loops m = [] ->
  appName (params el) <> "" -> (2 <= n)%nat ->
  exists f' n' m3,
    (f' = f \/ f' = F) /\ (n - 2 <= n')%nat /\
    (snd <$> drive (S f) m (iterates (Some el))) ≫= settle_all F n =
    (snd <$> drive f' m3 (iterates (head rest))) ≫= settle_all F n' /\
    next_up el rest m m3.
Proof.
  intros Hq Hl Hname Hn. cbn [drive]. unfold iteration. rewrite Hq.
  destruct (manifest_runner (runner (params el))) eqn:Hm.
  - rewrite drive_suspends. destruct n as [|n1]; [lia|].
    cbn [fmap option_fmap option_map snd mbind option_bind].
    cbn [settle_all loops set_loops emit]. rewrite Hl.
    cbn [app exec loops set_loops base.lookup list_lookup installInfo_settled].
    set (m0 := resume 0 _).
    assert (Hsized : with_params
              (with_size
                 (resolved_size getFileSize (lookup_result (appName (params el))))
                 (params el)) el = sized el)
      by (symmetry; exact (sized_runner el _ Hm)).
    rewrite Hsized.
    destruct (size_resolved (sized el) (el :: rest) m0) as [m1 seg1] eqn:Hsize.
    assert (Hl0 : loops m0 = []) by reflexivity.
    assert (Hc0 : clock m0 = clock m) by reflexivity.
    assert (Hlat0 : later m0 = later m) by reflexivity.
    assert (Hf0 : store_get "finished" m0 = store_get "finished" m)
      by reflexivity.
    assert (Hr0 : runnerCalls m0 = runnerCalls m).
    { unfold runnerCalls. simpl. rewrite !omap_app. simpl.
      by rewrite !app_nil_r. }
    assert (Hn1 : (1 <= n1)%nat) by lia.
    destruct (dispatch_to_next el el rest m m0 m1 seg1 F F n1 Hname Hl0 Hc0
                Hlat0 Hf0 Hr0 Hsize Hn1)
      as (f' & n' & m3 & Hf' & Hn' & Heq & Hnext).
    exists f', n', m3. split; [tauto|]. split; [lia|]. by split.
  - assert (Hsized : with_params (with_size "?? MB" (params el)) el = sized el)
      by (symmetry; exact (sized_runner el _ Hm)).
    rewrite Hsized.
    set (m0 := emit _ m).
    destruct (size_resolved (sized el) (el :: rest) m0) as [m1 seg1] eqn:Hsize.
    assert (Hc0 : clock m0 = clock m) by reflexivity.
    assert (Hlat0 : later m0 = later m) by reflexivity.
    assert (Hf0 : store_get "finished" m0 = store_get "finished" m)
      by reflexivity.
    assert (Hr0 : runnerCalls m0 = runnerCalls m).
    { unfold runnerCalls. simpl. rewrite omap_app. simpl. apply app_nil_r. }
    assert (Hn1 : (1 <= n)%nat) by lia.
    destruct (dispatch_to_next el el rest m m0 m1 seg1 f F n Hname Hl Hc0
                Hlat0 Hf0 Hr0 Hsize Hn1)
      as (f' & n' & m3 & Hf' & Hn' & Heq & Hnext).
    exists f', n', m3. split; [tauto|]. split; [lia|]. by split.
Qed.

Local Abbreviation recorded_from :=
  (recorded_from getFileSize lookup_result outcome).

Lemma recorded_from_cons (el : DMQueueElement) (q h : list DMQueueElement)
    (name : string) :
  recorded_from q h name -> recorded_from (el :: q) h name.
Proof.
  intros (e & el' & He & Hel & H). exists e, el'.
  split; [exact He|]. split; [by right | exact H].
Qed.

(** An entry of the history stays, or is overwritten by the entry of a
    later task of its name. *)
Lemma history_after_keeps (q : list DMQueueElement) :
  forall (now : Z) (readings : list Z) (h : list DMQueueElement)
         (e0 : DMQueueElement),
    e0 ∈ h ->
    e0 ∈ history_after getFileSize lookup_result outcome now readings q h \/
    recorded_from q
      (history_after getFileSize lookup_result outcome now readings q h)
      (appName (params e0)).
Proof.
  induction q as [|el q IH]; intros now readings h e0 He0; [by left|].
  simpl.
  set (recorded := with_endTime (hd now readings) (with_startTime now (sized el))).
  set (h1 := finished_with recorded (retired_status outcome el) h).
  destruct (decide (appName (params e0) = appName (params el))) as [Heq|Hne].
  - destruct (finished_with_entry recorded (retired_status outcome el) h)
      as (e1 & He1 & Hp1 & _ & _ & _ & Hs1).
    assert (Hname : appName (params e1) = appName (params e0))
      by (by rewrite Hp1, Heq).
    destruct (IH (hd (hd now readings) (tl readings)) (tl (tl readings)) h1 e1 He1)
      as [Hin|Hrec].
    + right. exists e1, el. split; [exact Hin|]. split; [by left|].
      split; [by rewrite Heq|]. split; [exact Hp1 | exact Hs1].
    + right. apply recorded_from_cons. by rewrite <- Hname.
  - assert (He0' : e0 ∈ h1) by (by apply finished_with_other).
    destruct (IH (hd (hd now readings) (tl readings)) (tl (tl readings)) h1 e0 He0')
      as [Hin|Hrec]; [by left | right; by apply recorded_from_cons].
Qed.

(** Every task of the queue leaves an entry under its name. *)
Lemma history_after_records (q : list DMQueueElement) :
  forall (now : Z) (readings : list Z) (h : list DMQueueElement),
    Forall (fun el =>
              recorded_from q
                (history_after getFileSize lookup_result outcome now readings q h)
                (appName (params el))) q.
Proof.
  induction q as [|el q IH]; intros now readings h; [constructor|].
  simpl.
  set (recorded := with_endTime (hd now readings) (with_startTime now (sized el))).
  set (h1 := finished_with recorded (retired_status outcome el) h).
  constructor.
  - destruct (finished_with_entry recorded (retired_status outcome el) h)
      as (e1 & He1 & Hp1 & _ & _ & _ & Hs1).
    assert (Hname : appName (params e1) = appName (params el))
      by (by rewrite Hp1).
    destruct (history_after_keeps q (hd (hd now readings) (tl readings))
                (tl (tl readings)) h1 e1 He1) as [Hin|Hrec].
    + exists e1, el. split; [exact Hin|]. split; [by left|].
      split; [reflexivity|]. split; [exact Hp1 | exact Hs1].
    + apply recorded_from_cons. by rewrite <- Hname.
  - eapply Forall_impl;
      [apply (IH (hd (hd now readings) (tl readings)) (tl (tl readings)) h1)|].
    intros el' H. by apply recorded_from_cons.
Qed.

Lemma undisturbed_run (q : list DMQueueElement) :
  forall (m : Manager) (f F n : nat),
    store_get "queue" m = q -> loops m = [] ->
    Forall (fun el => appName (params el) <> "") q ->
    (length q <= f)%nat -> (length q <= F)%nat -> (2 * length q <= n)%nat ->
    exists m',
      (snd <$> drive f m (iterates (head q))) ≫= settle_all F n = Some m' /\
      store_get "queue" m' = [] /\ queueState m' = idle /\ loops m' = [] /\
      runnerCalls m' = runnerCalls m ++ omap (fun el => dispatch (sized el)) q /\
      store_get "finished" m' =
        history_after getFileSize lookup_result outcome (clock m) (later m) q
          (store_get "finished" m).
Proof.
  induction q as [|el rest IH]; intros m f F n Hq Hl Hnames Hf HF Hn.
  - exists (set_queueState idle m). cbn [head]. rewrite drive_exits.
    cbn [fmap option_fmap option_map snd mbind option_bind].
    split; [destruct n; simpl; by rewrite Hl|].
    split; [exact Hq|]. split; [reflexivity|]. split; [exact Hl|].
    split; [by rewrite app_nil_r | reflexivity].
  - inversion Hnames as [|? ? Hname Hrest]; subst. simpl in Hf, HF, Hn.
    destruct f as [|f]; [lia|]. cbn [head].
    destruct (head_to_next el rest m f F n Hq Hl Hname)
      as (f' & n' & m3 & Hf' & Hn' & -> & Hq3 & Hl3 & Hc3 & Hlat3 & Hfin3 & Hcalls3);
      [lia|].
    destruct (IH m3 f' F n' Hq3 Hl3 Hrest) as (m' & Hrun & Hprops);
      [destruct Hf'; lia | lia | lia |].
    exists m'. split; [exact Hrun|].
    destruct Hprops as (Hq' & Hs' & Hl' & Hcalls' & Hfin').
    split; [exact Hq'|]. split; [exact Hs'|]. split; [exact Hl'|].
    split.
    + rewrite Hcalls', Hcalls3, <- app_assoc. cbn [omap list_omap].
      by destruct (dispatch (sized el)).
    + rewrite Hfin', Hfin3, Hc3, Hlat3. reflexivity.
Qed.

(** X11. Started on a queue of tasks with non-empty names and left
    undisturbed (every awaited promise settles with a value, and no other
    call comes in between), the loop processes the queue first in, first
    out: the runner operations are invoked in queue order, each with the
    size set, tasks without operation are skipped; every task is retired
    into the Finished history in that order with the status its operation
    returned (['error'] where there is none), so that the history ends
    with an entry under the name of every task, made from a task of that
    name; and the loop ends with an empty queue and an idle manager. *)
Theorem loop_is_first_in_first_out (m : Manager) (q : list DMQueueElement) :
  store_get "queue" m = q -> loops m = [] ->
  Forall (fun el => appName (params el) <> "") q ->
  exists m',
    (snd <$> initQueue (length q) m) ≫= settle_all (length q) (2 * length q)
      = Some m' /\
    store_get "queue" m' = [] /\ queueState m' = idle /\ loops m' = [] /\
    runnerCalls m' = runnerCalls m ++ omap (fun el => dispatch (sized el)) q /\
    store_get "finished" m' =
      history_after getFileSize lookup_result outcome (clock m) (later m) q
        (store_get "finished" m) /\
    Forall (fun el =>
              recorded_from q (store_get "finished" m') (appName (params el))) q.
Proof.
  intros Hq Hl Hnames. unfold initQueue, getFirstQueueElement. rewrite Hq.
  destruct (undisturbed_run q
              (set_queueState (if head q is Some _ then running else idle) m)
              (length q) (length q) (2 * length q) Hq Hl Hnames)
    as (m' & Hrun & Hq' & Hs' & Hl' & Hcalls' & Hfin'); [lia..|].
  exists m'. do 5 (split; [done|]). split; [exact Hfin'|].
  rewrite Hfin'. apply history_after_records.
Qed.

End Undisturbed_run.

(** * Properties of the HyperPlay library *)

Module HyperPlayFacts.
Import HyperPlay.

(** ** Availability *)

Lemma native_web_or_none (host : Host) (info : Game.t) :
  (Install.platform (Game.install info) = Some "web" ->
     isHpGameNative host (Some info) = Returned true) /\
  (Install.platform (Game.install info) = None \/
   Install.platform (Game.install info) = Some "" ->
     isHpGameNative host (Some info) = Returned false) /\
  isHpGameNative host None = Raised "TypeError".
Proof.
  split; [|split; [|reflexivity]].
  - intros H. unfold isHpGameNative. by rewrite H.
  - intros [H|H]; unfold isHpGameNative; by rewrite H.
Qed.

Lemma native_with_platform (host : Host) (info : Game.t) (platform : string) :
  Install.platform (Game.install info) = Some platform -> platform <> "" ->
  (isWindows host = true -> isHpGameNative host (Some info) = Returned true) /\
  (isWindows host = false -> isMac host = false -> isLinux host = false ->
     isHpGameNative host (Some info) =
     Returned (bool_decide (platform = "web"))) /\
  (isWindows host = false -> isHpGameNative host (Some info) = Returned true ->
     platform = "web" \/ (isMac host = true /\ platform = "Mac") \/
     (isLinux host = true /\ toLowerCase platform = "linux")).
Proof.
  intros Hp Hne. unfold isHpGameNative. rewrite Hp. unfold truthy.
  rewrite (bool_decide_eq_false_2 _ Hne). simpl.
  split; [|split].
  - intros ->. by destruct (bool_decide (platform = "web")).
  - intros -> -> ->. simpl. by destruct (bool_decide (platform = "web")).
  - intros ->. destruct (bool_decide (platform = "web")) eqn:Hweb.
    { apply bool_decide_eq_true in Hweb. by left. }
    destruct (isMac host && bool_decide (platform = "Mac")) eqn:Hmac.
    { apply andb_true_iff in Hmac as [Hm Hpm].
      apply bool_decide_eq_true in Hpm. intros _. right. by left. }
    destruct (isLinux host && bool_decide (toLowerCase platform = "linux"))
      eqn:Hlinux; [|discriminate].
    apply andb_true_iff in Hlinux as [Hl Hpl].
    apply bool_decide_eq_true in Hpl. intros _. right. by right.
Qed.

(** X12. A game whose install platform is ['web'] is native on every
    host; a game without install platform, or with an empty one, on none.
    On Windows every game with a non-empty install platform is reported
    native, whatever the platform is; on a host that is neither Windows,
    Mac nor Linux only web games are.  Elsewhere a game is native only if
    it is a web game, its platform is ['Mac'] on a Mac, or its platform is
    ['linux'] in any mix of upper and lower case on Linux.  For a game
    that is not known the test throws. *)
Theorem native_by_host (host : Host) (info : Game.t) :
  let platform := Install.platform (Game.install info) in
  (platform = Some "web" -> isHpGameNative host (Some info) = Returned true) /\
  (platform = None \/ platform = Some "" ->
     isHpGameNative host (Some info) = Returned false) /\
  (forall p, platform = Some p -> p <> "" ->
     (isWindows host = true -> isHpGameNative host (Some info) = Returned true) /\
     (isWindows host = false -> isMac host = false -> isLinux host = false ->
        isHpGameNative host (Some info) = Returned (bool_decide (p = "web"))) /\
     (isWindows host = false ->
      isHpGameNative host (Some info) = Returned true ->
        p = "web" \/ (isMac host = true /\ p = "Mac") \/
        (isLinux host = true /\ toLowerCase p = "linux"))) /\
  isHpGameNative host None = Raised "TypeError".
Proof.
  intros platform.
  destruct (native_web_or_none host info) as (Hweb & Hnone & Hunknown).
  split; [exact Hweb|]. split; [exact Hnone|]. split; [|exact Hunknown].
  intros p Hp Hne. exact (native_with_platform host info p Hp Hne).
Qed.

(** X13. For a known game [isHpGameAvailable] never throws; it answers
    [true] exactly when the game is a web game, or has a non-empty
    executable that exists.  A web game is available whatever the file
    system holds.  For a game that is not known it throws, the test of
    line 7 notwithstanding. *)
Theorem available_iff_web_or_executable (existsSync : string -> bool)
    (info : Game.t) :
  (exists b, isHpGameAvailable existsSync (Some info) = Returned b) /\
  (isHpGameAvailable existsSync (Some info) = Returned true <->
     Install.platform (Game.install info) = Some "web" \/
     exists exe,
       Install.executable (Game.install info) = Some exe /\ exe <> "" /\
       existsSync exe = true) /\
  isHpGameAvailable existsSync None = Raised "TypeError".
Proof.
  unfold isHpGameAvailable.
  destruct (bool_decide (Install.platform (Game.install info) = Some "web"))
    eqn:Hweb.
  - apply bool_decide_eq_true in Hweb.
    split; [by eexists|]. split; [|reflexivity]. split; [by left | done].
  - apply bool_decide_eq_false in Hweb.
    destruct (Install.executable (Game.install info)) as [exe|] eqn:Hexe.
    + unfold truthy. destruct (bool_decide (exe = "")) eqn:Hempty; simpl.
      * apply bool_decide_eq_true in Hempty.
        split; [by eexists|]. split; [|reflexivity]. split; [discriminate|].
        intros [H|(exe' & [= <-] & Hne & _)]; done.
      * apply bool_decide_eq_false in Hempty.
        split; [by eexists|]. split; [|reflexivity]. split.
        -- intros [= H]. right. by exists exe.
        -- intros [H|(exe' & [= <-] & _ & H)]; [done | by rewrite H].
    + split; [by eexists|]. split; [|reflexivity]. split; [discriminate|].
      intros [H|(exe' & H & _)]; done.
Qed.

(** ** The library *)


Lemma is_game_true (appId : string) (val : Game.t) :
  is_game appId val = true <-> Game.app_name val = appId.
Proof. unfold is_game. apply bool_decide_eq_true. Qed.

Lemma is_game_false (appId : string) (val : Game.t) :
  is_game appId val = false <-> Game.app_name val <> appId.
Proof. unfold is_game. apply bool_decide_eq_false. Qed.

Lemma no_game_named (appId : string) (lib : list Game.t) :
  Forall (fun val => is_game appId val = false) lib <->
  appId ∉ Game.app_name <$> lib.
Proof.
  rewrite Forall_forall. split.
  - intros H Hin. apply list_elem_of_fmap in Hin as (val & -> & Hval).
    apply H in Hval. by apply is_game_false in Hval.
  - intros H val Hval. apply is_game_false. intros Heq. apply H.
    apply list_elem_of_fmap. by exists val.
Qed.

Section LibraryFacts.

Variable testJson : Release.t.

Lemma identity_refreshed (currentInfo : Game.t) (data : Release.t) :
  identity (refreshed currentInfo data) = identity currentInfo.
Proof. reflexivity. Qed.

Lemma identity_refresh_entry (map : gmap string Release.t) (g : Game.t) :
  identity (refresh_entry testJson map g) = identity g.
Proof. unfold refresh_entry. by destruct (data_for _ _ _). Qed.





Lemma refreshHPGameInfo_kept (appId : string) (data : Release.t)
    (lib lib' : list Game.t) :
  refreshHPGameInfo appId data lib = Some lib' ->
  length lib' = length lib /\ identity <$> lib' = identity <$> lib.
Proof.
  unfold refreshHPGameInfo.
  destruct (findIndex (is_game appId) lib) as [i|]; [|done].
  destruct (lib !! i) as [cur|] eqn:Hcur; [|done]. intros [= <-].
  split; [apply length_insert|].
  rewrite list_fmap_insert. apply list_insert_id.
  by rewrite list_lookup_fmap, Hcur.
Qed.

(** X14. [refreshHPGameInfo] writes nothing for an id that is not in the
    library.  For an id in the library it replaces the first entry of
    that name and no other; the library keeps its length, and every entry
    keeps its name, runner, title, version and install state: a refresh
    changes neither which games are in the library nor how they are
    installed. *)
Theorem refreshHPGameInfo_frame (appId : string) (data : Release.t)
    (lib : list Game.t) :
  (appId ∉ Game.app_name <$> lib -> refreshHPGameInfo appId data lib = None) /\
  (appId ∈ Game.app_name <$> lib ->
     exists i currentInfo,
       lib !! i = Some currentInfo /\ Game.app_name currentInfo = appId /\
       (forall j val, (j < i)%nat -> lib !! j = Some val ->
          Game.app_name val <> appId) /\
       refreshHPGameInfo appId data lib =
         Some (<[i := refreshed currentInfo data]> lib)) /\
  (forall lib', refreshHPGameInfo appId data lib = Some lib' ->
     length lib' = length lib /\ identity <$> lib' = identity <$> lib).
Proof.
  unfold refreshHPGameInfo. split; [|split].
  - intros Hnotin. apply no_game_named, findIndex_None in Hnotin.
    by rewrite Hnotin.
  - intros Hin. destruct (findIndex (is_game appId) lib) as [i|] eqn:Hi.
    + apply findIndex_Some in Hi as (cur & Hcur & Hp & Hmin).
      exists i, cur. split; [exact Hcur|].
      split; [by apply is_game_true|]. split.
      * intros j val Hj Hval. apply is_game_false. by eapply Hmin.
      * by rewrite Hcur.
    + apply findIndex_None, no_game_named in Hi. contradiction.
  - intros lib'. apply (refreshHPGameInfo_kept appId data lib lib').
Qed.




Lemma existsb_is_game (appId : string) (lib : list Game.t) :
  existsb (is_game appId) lib = true <-> appId ∈ Game.app_name <$> lib.
Proof.
  induction lib as [|g lib IH]; simpl.
  - split; [discriminate | by intros ?%elem_of_nil].
  - rewrite orb_true_iff, IH, elem_of_cons, is_game_true.
    split; intros [H|H]; auto.
Qed.

(** X16. [addGameToLibrary] does nothing for an id that is already in
    the library, whatever the listing would answer.  For a new id it
    appends one entry, made from the first release of the answer (from
    [test.json] for the test id), behind the entries already there; if
    the request fails or answers with no release, it throws and writes
    nothing.  When the entry carries the id that was asked for, adding the
    id again does nothing, and a library without duplicate names stays
    without. *)
Theorem addGameToLibrary_adds_once (appId : string) (lib : list Game.t) :
  (appId ∈ Game.app_name <$> lib ->
     forall response, addGameToLibrary testJson appId response lib = Returned None) /\
  (appId ∉ Game.app_name <$> lib -> appId <> testId ->
     (forall data rest,
        addGameToLibrary testJson appId (Returned (data :: rest)) lib =
        Returned (Some (lib ++ [gameInfo_of data]))) /\
     addGameToLibrary testJson appId (Returned []) lib = Raised "TypeError" /\
     (forall exn, addGameToLibrary testJson appId (Raised exn) lib = Raised exn)) /\
  (appId ∉ Game.app_name <$> lib -> appId = testId ->
     forall response,
       addGameToLibrary testJson appId response lib =
       Returned (Some (lib ++ [gameInfo_of testJson]))) /\
  (forall response lib',
     addGameToLibrary testJson appId response lib = Returned (Some lib') ->
     exists g,
       lib' = lib ++ [g] /\ Game.runner g = "hyperplay" /\
       (Game.app_name g = appId ->
          (forall response',
             addGameToLibrary testJson appId response' lib' = Returned None) /\
          (NoDup (Game.app_name <$> lib) -> NoDup (Game.app_name <$> lib')))).
Proof.
  unfold addGameToLibrary. split; [|split; [|split]].
  - intros Hin response. apply existsb_is_game in Hin. by rewrite Hin.
  - intros Hnotin Hid.
    destruct (existsb (is_game appId) lib) eqn:Hex;
      [by apply existsb_is_game in Hex|].
    rewrite (bool_decide_eq_true_2 _ Hid). done.
  - intros Hnotin Hid response.
    destruct (existsb (is_game appId) lib) eqn:Hex;
      [by apply existsb_is_game in Hex|].
    rewrite bool_decide_eq_false_2 by (by intros H). done.
  - intros response lib'.
    destruct (existsb (is_game appId) lib) eqn:Hex; [discriminate|].
    assert (Hnotin : appId ∉ Game.app_name <$> lib).
    { intros Hin. apply existsb_is_game in Hin. congruence. }
    intros Hadd.
    assert (Hg : exists data, lib' = lib ++ [gameInfo_of data]).
    { destruct (bool_decide (appId <> testId)).
      - destruct response as [[|data rest]|exn]; simpl in Hadd; try discriminate.
        injection Hadd as <-. by eexists.
      - injection Hadd as <-. by eexists. }
    destruct Hg as [data ->]. exists (gameInfo_of data).
    split; [reflexivity|]. split; [reflexivity|]. intros Hname. split.
    + intros response'.
      assert (Hin : existsb (is_game appId) (lib ++ [gameInfo_of data]) = true).
      { apply existsb_is_game. rewrite fmap_app. apply elem_of_app. right.
        apply list_elem_of_fmap. exists (gameInfo_of data).
        split; [done | by left]. }
      by rewrite Hin.
    + intros Hnd. rewrite fmap_app. apply NoDup_app. split; [exact Hnd|].
      split; [|apply NoDup_singleton].
      intros x Hx Hx'. apply list_elem_of_fmap in Hx' as (g & -> & Hg).
      apply list_elem_of_singleton in Hg. subst g. by rewrite Hname in Hx.
Qed.

(** X17. The entry made for a release that lists the platform ['web'] is
    marked installed, and such a game is available and native on every
    host, whatever the file system holds.  The entry made for any other
    release is not marked installed; the game is neither available nor
    native until it is installed, and is never listed for an update. *)
Theorem added_game_availability (data : Release.t) (existsSync : string -> bool)
    (host : Host) :
  let g := gameInfo_of data in
  (is_Some (platforms (Release.releaseMeta data) !! "web") ->
     Game.is_installed g = true /\
     isHpGameAvailable existsSync (Some g) = Returned true /\
     isHpGameNative host (Some g) = Returned true /\
     forall map acc, updateable_game map g acc = Returned acc) /\
  (platforms (Release.releaseMeta data) !! "web" = None ->
     Game.is_installed g = false /\
     isHpGameAvailable existsSync (Some g) = Returned false /\
     isHpGameNative host (Some g) = Returned false /\
     forall map acc, updateable_game map g acc = Returned acc).
Proof.
  intros g. subst g. split.
  - intros Hweb.
    assert (Hinstall : Game.install (gameInfo_of data) = web_install).
    { unfold gameInfo_of. simpl. by rewrite (bool_decide_eq_true_2 _ Hweb). }
    split; [unfold gameInfo_of; simpl; by rewrite (bool_decide_eq_true_2 _ Hweb)|].
    unfold isHpGameAvailable, isHpGameNative, updateable_game.
    rewrite Hinstall. done.
  - intros Hnone.
    assert (Hnot : ~ is_Some (platforms (Release.releaseMeta data) !! "web"))
      by (rewrite Hnone; by intros [x Hx]).
    assert (Hinstall : Game.install (gameInfo_of data) = no_install).
    { unfold gameInfo_of. simpl. by rewrite (bool_decide_eq_false_2 _ Hnot). }
    split; [unfold gameInfo_of; simpl; by rewrite (bool_decide_eq_false_2 _ Hnot)|].
    unfold isHpGameAvailable, isHpGameNative, updateable_game, gameIsInstalled.
    rewrite Hinstall. done.
Qed.

(** ** The release map *)

Lemma release_fold_lookup (listing : list Release.t) (id : string) :
  forall map : gmap string Release.t,
    foldl (fun map val => <[Release._id val := val]> map) map listing !! id =
    match last (filter (fun r => Release._id r = id) listing) with
    | Some r => Some r
    | None => map !! id
    end.
Proof.
  induction listing as [|r listing IH]; intros map; simpl; [done|].
  rewrite IH. destruct (decide (Release._id r = id)) as [Hr|Hr].
  - rewrite filter_cons_True by done. rewrite last_cons. subst id.
    rewrite lookup_insert_eq. by destruct (last (filter _ listing)).
  - rewrite filter_cons_False by done. by rewrite lookup_insert_ne.
Qed.

(** X18. The release map answers with the release of [test.json] for
    the test id, whatever the listing holds for it, and for every other
    id the listing has a release of with the last such release.  For an id
    the listing has no release of it answers with what every object
    inherits under that name (['constructor'], ['toString'], ...), if
    there is such a thing, and with [undefined] otherwise, unless a
    release with the [_id] ['__proto__'] has been made the prototype of
    the map. *)
Theorem release_map_lookup (listing : list Release.t) (id : string) :
  let map := getHyperPlayReleaseMap testJson listing in
  get map testId = own testJson /\
  (id <> testId ->
     forall r, last (filter (fun r => Release._id r = id) listing) = Some r ->
       get map id = own r) /\
  ("__proto__" ∉ Release._id <$> listing ->
   id <> testId -> id ∉ Release._id <$> listing ->
     (inherited_property id = true -> get map id = inherited) /\
     (inherited_property id = false ->
        get map id = undefined /\ has_release testJson map id = false)).
Proof.
  intros map. subst map.
  assert (Hlast : id <> testId ->
            getHyperPlayReleaseMap testJson listing !! id =
            last (filter (fun r => Release._id r = id) listing)).
  { intros Hid. unfold getHyperPlayReleaseMap.
    rewrite lookup_insert_ne by done. rewrite release_fold_lookup.
    by destruct (last (filter _ listing)). }
  split; [|split].
  - unfold get, getHyperPlayReleaseMap. by rewrite lookup_insert_eq.
  - intros Hid r Hr. unfold get. by rewrite (Hlast Hid), Hr.
  - intros _ Hid Hnotin.
    assert (Hnone : getHyperPlayReleaseMap testJson listing !! id = None).
    { rewrite (Hlast Hid). apply last_None.
      destruct (filter (fun r => Release._id r = id) listing) as [|r rs] eqn:Hf;
        [reflexivity|].
      assert (Hr : r ∈ filter (fun r => Release._id r = id) listing)
        by (rewrite Hf; by left).
      apply list_elem_of_filter in Hr as [Hr Hin]. exfalso. apply Hnotin.
      apply list_elem_of_fmap. by exists r. }
    unfold has_release, data_for, get.
    rewrite (bool_decide_eq_false_2 _ Hid), Hnone.
    split; intros ->; done.
Qed.

(** ** Updates *)

Lemma truthy_true (s : string) : truthy s = true <-> s <> "".
Proof.
  unfold truthy. rewrite negb_true_iff. apply bool_decide_eq_false.
Qed.

Lemma truthy_false (s : string) : truthy s = false <-> s = "".
Proof.
  unfold truthy. rewrite negb_false_iff. apply bool_decide_eq_true.
Qed.

(** What the callback does for one game: it throws, it adds nothing, or
    it adds the name of the game, which is then an update candidate. *)
Lemma updateable_game_cases (map : gmap string Release.t) (val : Game.t) :
  (tracks_unknown_channel val /\
   forall acc, updateable_game map val acc = Raised "TypeError") \/
  (~ tracks_unknown_channel val /\
   ((forall acc, updateable_game map val acc = Returned acc) \/
    (update_candidate val /\
     forall acc,
       updateable_game map val acc = Returned (acc ++ [Game.app_name val])))).
Proof.
  unfold updateable_game, tracks_unknown_channel, update_candidate.
  destruct (bool_decide (Install.platform (Game.install val) = Some "web"))
    eqn:Hweb.
  { apply bool_decide_eq_true in Hweb. right.
    split; [by intros [[Hnw _] _] | by left]. }
  apply bool_decide_eq_false in Hweb.
  destruct (gameIsInstalled val) eqn:Hinst; simpl;
    [|right; split; [by intros [[_ Hi] _] | by left]].
  assert (Hpush : forall (differs : bool) (P : Prop),
            ~ P ->
            ~ P /\
            ((forall acc, push_when differs val acc = Returned acc) \/
             ((Install.platform (Game.install val) <> Some "web" /\ true = true) /\
              forall acc,
                push_when differs val acc =
                Returned (acc ++ [Game.app_name val])))).
  { intros differs P HP. split; [exact HP|].
    destruct differs; [right | left]; done. }
  destruct (Game.channels val) as [chs|] eqn:Hch;
    destruct (Install.channelName (Game.install val)) as [cn|] eqn:Hcn;
    try (right; apply Hpush; by intros (_ & chs' & cn' & ? & ? & _)).
  destruct (truthy cn) eqn:Htruthy.
  - apply truthy_true in Htruthy.
    destruct (chs !! cn) as [ch|] eqn:Hlookup.
    + right. apply Hpush.
      intros (_ & chs' & cn' & [= <-] & [= <-] & _ & Hnone & _). congruence.
    + destruct (inherited_property cn) eqn:Hinherited.
      * right. apply Hpush.
        intros (_ & chs' & cn' & [= <-] & [= <-] & _ & _ & Hno). congruence.
      * left. split; [|done]. split; [done|]. by exists chs, cn.
  - apply truthy_false in Htruthy. right. apply Hpush.
    intros (_ & chs' & cn' & _ & [= <-] & Hne & _). done.
Qed.

Lemma update_of_cases (map : gmap string Release.t) (val : Game.t) :
  update_of map val = [] \/
  (update_candidate val /\ ~ tracks_unknown_channel val /\
   update_of map val = [Game.app_name val]).
Proof.
  unfold update_of.
  destruct (updateable_game_cases map val) as [[_ H]|[Hno [H|[Hc H]]]];
    rewrite (H []); auto.
Qed.

Lemma updateable_fold_raised (map : gmap string Release.t) (lib : list Game.t)
    (exn : string) :
  foldl (fun acc val =>
           match acc with
           | Returned updateableGames => updateable_game map val updateableGames
           | Raised exn => Raised exn
           end) (Raised exn) lib = Raised exn.
Proof. induction lib as [|val lib IH]; simpl; [done | exact IH]. Qed.

Lemma updateable_fold (map : gmap string Release.t) (lib : list Game.t) :
  forall acc : list string,
    (Exists tracks_unknown_channel lib /\
     foldl (fun acc val =>
              match acc with
              | Returned updateableGames => updateable_game map val updateableGames
              | Raised exn => Raised exn
              end) (Returned acc) lib = Raised "TypeError") \/
    (~ Exists tracks_unknown_channel lib /\
     foldl (fun acc val =>
              match acc with
              | Returned updateableGames => updateable_game map val updateableGames
              | Raised exn => Raised exn
              end) (Returned acc) lib = Returned (acc ++ (lib ≫= update_of map))).
Proof.
  induction lib as [|val lib IH]; intros acc; cbn [foldl].
  - right. split; [by intros ?%Exists_nil | by rewrite app_nil_r].
  - destruct (updateable_game_cases map val) as [[Htracks H]|[Hno H]].
    + left. split; [by left|]. rewrite (H acc). apply updateable_fold_raised.
    + assert (Hstep : updateable_game map val acc =
                Returned (acc ++ update_of map val)).
      { unfold update_of.
        destruct H as [H|[_ H]]; rewrite (H acc), (H []);
          [by rewrite app_nil_r | done]. }
      rewrite Hstep. rewrite bind_cons.
      destruct (IH (acc ++ update_of map val)) as [[Hex Hrun]|[Hnex Hrun]].
      * left. split; [by right | exact Hrun].
      * right. split.
        { intros Hex. apply Exists_cons in Hex as [Hex|Hex]; done. }
        rewrite Hrun. by rewrite <- app_assoc.
Qed.

Lemma update_of_sublist (map : gmap string Release.t) (lib : list Game.t) :
  (lib ≫= update_of map)
    `sublist_of` (Game.app_name <$> filter update_candidate lib).
Proof.
  induction lib as [|val lib IH]; [done|]. rewrite bind_cons.
  destruct (update_of_cases map val) as [->|(Hc & _ & ->)]; simpl.
  - destruct (decide (update_candidate val)) as [Hc|Hc].
    + rewrite filter_cons_True by done. by apply sublist_cons.
    + by rewrite filter_cons_False by done.
  - rewrite filter_cons_True by done. by apply sublist_skip.
Qed.

(** X19. The games [listUpdateableGames] reports are installed games
    that are not web games, each at most once per entry and in the order
    of the library: a web game or a game without install properties is
    never reported.  Without the listing nothing is reported: the failure
    is passed on. *)
Theorem updateable_games_are_installed (listing : list Release.t)
    (lib : list Game.t) (names : list string) :
  listUpdateableGames testJson (Returned listing) lib = Returned names ->
  names `sublist_of` (Game.app_name <$> filter update_candidate lib) /\
  (forall name, name ∈ names ->
     exists val, val ∈ lib /\ Game.app_name val = name /\
       Install.platform (Game.install val) <> Some "web" /\
       (0 < install_keys (Game.install val))%nat) /\
  (forall exn, listUpdateableGames testJson (Raised exn) lib = Raised exn).
Proof.
  unfold listUpdateableGames. intros Hrun.
  destruct (updateable_fold (getHyperPlayReleaseMap testJson listing) lib [])
    as [[_ Hr]|[_ Hr]]; rewrite Hr in Hrun; [discriminate|].
  injection Hrun as <-. simpl.
  pose proof (update_of_sublist (getHyperPlayReleaseMap testJson listing) lib)
    as Hsub.
  split; [exact Hsub|]. split; [|done].
  intros name Hin. apply (elem_of_sublist _ _ _ Hin) in Hsub as Hin'.
  clear Hin. rename Hin' into Hin.
  apply list_elem_of_fmap in Hin as (val & -> & Hval).
  apply list_elem_of_filter in Hval as [[Hweb Hinst] Hval].
  exists val. split; [exact Hval|]. split; [reflexivity|]. split; [exact Hweb|].
  unfold gameIsInstalled in Hinst. by apply bool_decide_eq_true in Hinst.
Qed.

(** X20. [listUpdateableGames] throws, once the listing has arrived,
    exactly when some installed game that is not a web game names a
    channel in its install that is not among the channels of the game
    (and is not a property every object has); the missing channel is
    logged and then read.  It throws nothing but this [TypeError]. *)
Theorem unknown_channel_breaks_the_listing (listing : list Release.t)
    (lib : list Game.t) :
  (listUpdateableGames testJson (Returned listing) lib = Raised "TypeError" <->
   exists val, val ∈ lib /\ tracks_unknown_channel val) /\
  (forall exn,
     listUpdateableGames testJson (Returned listing) lib = Raised exn ->
     exn = "TypeError").
Proof.
  unfold listUpdateableGames.
  destruct (updateable_fold (getHyperPlayReleaseMap testJson listing) lib [])
    as [[Hex Hr]|[Hnex Hr]]; rewrite Hr.
  - split; [|by intros exn [= <-]]. split; [|done]. intros _.
    by apply Exists_exists in Hex.
  - split; [|done]. split; [done|]. intros Hex. exfalso. apply Hnex.
    by apply Exists_exists.
Qed.






End LibraryFacts.

(** ** Instances *)

Lemma native_by_host_witness :
  isHpGameNative linux (Some sample_web) = Returned true /\
  isHpGameNative windows (Some (with_install no_install sample_native)) =
    Returned false /\
  isHpGameNative windows (Some sample_native) = Returned true.
Proof.
  split; [|split].
  - destruct (native_by_host linux sample_web) as [Hweb _].
    apply Hweb. vm_compute. reflexivity.
  - destruct (native_by_host windows (with_install no_install sample_native))
      as (_ & Hnone & _).
    apply Hnone. left. reflexivity.
  - destruct (native_by_host windows sample_native) as (_ & _ & Hplatform & _).
    destruct (Hplatform "windows_amd64") as [Hwindows _];
      [reflexivity | discriminate |].
    apply Hwindows. reflexivity.
Defined.

Lemma available_iff_web_or_executable_witness :
  isHpGameAvailable (fun _ => false) (Some sample_web) = Returned true.
Proof.
  destruct (available_iff_web_or_executable (fun _ => false) sample_web)
    as (_ & Hiff & _).
  apply Hiff. left. vm_compute. reflexivity.
Defined.

Lemma refreshHPGameInfo_frame_witness :
  refreshHPGameInfo "unknown-game" sample_testJson sample_library = None /\
  (forall lib',
     refreshHPGameInfo "native-game"
       (sample_release "native-game" "windows_amd64" "2.0") sample_library
     = Some lib' ->
     length lib' = length sample_library /\
     identity <$> lib' = identity <$> sample_library).
Proof.
  split.
  - destruct (refreshHPGameInfo_frame "unknown-game" sample_testJson
                sample_library) as [Habsent _].
    apply Habsent. compute_done.
  - destruct (refreshHPGameInfo_frame "native-game"
                (sample_release "native-game" "windows_amd64" "2.0")
                sample_library) as (_ & _ & Hkept).
    exact Hkept.
Defined.


Lemma addGameToLibrary_adds_once_witness :
  addGameToLibrary sample_testJson "web-game" (Raised "offline") sample_library =
    Returned None /\
  addGameToLibrary sample_testJson "new-game" (Returned []) sample_library =
    Raised "TypeError".
Proof.
  split.
  - destruct (addGameToLibrary_adds_once sample_testJson "web-game"
                sample_library) as [Hpresent _].
    apply Hpresent. compute_done.
  - destruct (addGameToLibrary_adds_once sample_testJson "new-game"
                sample_library) as (_ & Hnew & _).
    destruct Hnew as (_ & Hempty & _); [compute_done | discriminate | exact Hempty].
Defined.

Lemma added_game_availability_witness :
  Game.is_installed sample_web = true /\
  isHpGameAvailable (fun _ => false) (Some sample_web) = Returned true /\
  isHpGameNative linux (Some sample_web) = Returned true /\
  (forall map acc, updateable_game map sample_web acc = Returned acc).
Proof.
  destruct (added_game_availability (sample_release "web-game" "web" "1.0")
              (fun _ => false) linux) as [Hweb _].
  apply Hweb. apply (bool_decide_unpack _). vm_compute. exact I.
Defined.

Lemma release_map_lookup_witness :
  get (getHyperPlayReleaseMap sample_testJson sample_listing) "native-game" =
    own (sample_release "native-game" "windows_amd64" "2.0") /\
  get (getHyperPlayReleaseMap sample_testJson sample_listing) "constructor" =
    inherited /\
  get (getHyperPlayReleaseMap sample_testJson sample_listing) "web-game" =
    undefined.
Proof.
  split; [|split].
  - destruct (release_map_lookup sample_testJson sample_listing "native-game")
      as (_ & Hlisted & _).
    apply Hlisted; [discriminate | reflexivity].
  - destruct (release_map_lookup sample_testJson sample_listing "constructor")
      as (_ & _ & Habsent).
    destruct Habsent as [Hinherited _];
      [compute_done | discriminate | compute_done |].
    apply Hinherited. reflexivity.
  - destruct (release_map_lookup sample_testJson sample_listing "web-game")
      as (_ & _ & Habsent).
    destruct Habsent as [_ Hundefined];
      [compute_done | discriminate | compute_done |].
    destruct Hundefined as [Hget _]; [reflexivity | exact Hget].
Defined.

Lemma updateable_games_are_installed_witness :
  ["outdated-game"]
    `sublist_of` (Game.app_name <$>
                  filter update_candidate
                    [sample_web; sample_native; sample_outdated]).
Proof.
  destruct (updateable_games_are_installed sample_testJson sample_listing
              [sample_web; sample_native; sample_outdated] ["outdated-game"])
    as [Hsub _]; [vm_compute; reflexivity | exact Hsub].
Defined.

Lemma unknown_channel_breaks_the_listing_witness :
  listUpdateableGames sample_testJson (Returned sample_listing)
    [sample_web; sample_stray] = Raised "TypeError".
Proof.
  destruct (unknown_channel_breaks_the_listing sample_testJson sample_listing
              [sample_web; sample_stray]) as [Hiff _].
  apply Hiff. exists sample_stray. split; [by right; left|].
  split; [split; [discriminate | reflexivity]|].
  eexists _, "beta". split; [reflexivity|]. split; [reflexivity|].
  split; [discriminate|]. split; [|reflexivity]. vm_compute. reflexivity.
Defined.



End HyperPlayFacts.

(** * Instances of the further properties *)

Lemma sample_lookup_reachable :
  reachable_on_idle sample_getFileSize (process_start ∅ 0) sample_lookup.
Proof.
  eapply (reachable_on_idle_exec _ _ _ 16 (call_addToQueue (Some G1)));
    [apply reachable_on_idle_start | discriminate | vm_compute; reflexivity].
Qed.

Lemma sample_download_reachable :
  reachable_on_idle sample_getFileSize (process_start ∅ 0) sample_download.
Proof.
  eapply (reachable_on_idle_exec _ _ _ 16 (call_addToQueue (Some G2)));
    [apply reachable_on_idle_start | discriminate | vm_compute; reflexivity].
Qed.

Lemma sample_emptied_reachable :
  reachable_on_idle sample_getFileSize (process_start ∅ 0) sample_emptied.
Proof.
  eapply (reachable_on_idle_exec _ _ _ 16 (call_removeFromQueue "G2"));
    [apply sample_download_reachable | discriminate | vm_compute; reflexivity].
Qed.

Lemma one_activation_at_most_witness :
  ((length (loops sample_lookup) <= 1)%nat /\
   (queueState sample_lookup = idle -> loops sample_lookup = []) /\
   (loops sample_lookup <> [] -> queueState sample_lookup = running)) /\
  (exists m',
     initQueue 1 sample_download = Some (parked, m') /\
     length (loops m') = S (length (loops sample_download)) /\
     queueState m' = running).
Proof.
  split.
  - destruct (one_activation_at_most sample_getFileSize ∅ 0 sample_lookup
                sample_lookup_reachable) as [Hone _].
    exact Hone.
  - destruct (one_activation_at_most sample_getFileSize ∅ 0 sample_download
                sample_download_reachable) as [_ Hdirect].
    apply (Hdirect 0%nat
             (with_startTime 0 (with_params (with_size "?? MB" (params G2)) G2)));
      [reflexivity | right; reflexivity].
Defined.

Lemma idle_only_with_empty_queue_witness :
  (store_get "queue" sample_done = [] /\ loops sample_done = []) /\
  loops sample_orphaned = loops sample_emptied.
Proof.
  split.
  - destruct (idle_only_with_empty_queue sample_getFileSize ∅ 0 sample_download
                sample_done 16 (settle_operation 0 (Returned (Some done_))))
      as (Hqueue & Hloops & _);
      [apply sample_download_reachable | reflexivity | vm_compute; reflexivity
      | reflexivity |].
    split; [exact Hqueue | apply Hloops; discriminate].
  - destruct (idle_only_with_empty_queue sample_getFileSize ∅ 0 sample_emptied
                sample_orphaned 16 call_initQueue) as (_ & _ & Hdirect);
      [apply sample_emptied_reachable | reflexivity | vm_compute; reflexivity
      | reflexivity |].
    apply Hdirect. reflexivity.
Defined.

Lemma addToQueue_starts_loop_when_idle_witness :
  (exists rest,
     trace sample_lookup =
     trace (enqueue G1 (process_start ∅ 0)) ++
     changedDMQueueInformation
       (store_get "queue" (enqueue G1 (process_start ∅ 0))) :: rest) /\
  trace (enqueue G3 sample_running) = trace (enqueue G3 sample_running).
Proof.
  split.
  - destruct (addToQueue_starts_loop_when_idle 16 G1 (process_start ∅ 0)
                sample_lookup) as [Hidle _];
      [vm_compute; reflexivity|].
    apply Hidle. reflexivity.
  - destruct (addToQueue_starts_loop_when_idle 16 G3 sample_running
                (enqueue G3 sample_running)) as [_ Hrunning];
      [reflexivity|].
    apply Hrunning. reflexivity.
Defined.

Lemma finished_names_only_grow_witness :
  (appNames (store_get "finished" sample_download)
     `prefix_of` appNames (store_get "finished" sample_done)) /\
  (length (store_get "finished" sample_download)
   <= length (store_get "finished" sample_done))%nat.
Proof.
  apply (finished_names_only_grow sample_getFileSize 16
           (settle_operation 0 (Returned (Some done_)))).
  vm_compute. reflexivity.
Defined.

Lemma enqueue_round_trips_witness :
  store_get "queue" (removeFromQueue "G3" (enqueue G3 sample_running)) =
  store_get "queue" sample_running.
Proof.
  destruct (enqueue_round_trips sample_getFileSize 16 G3 sample_running
              (enqueue G3 sample_running)) as [_ Hremove];
    [reflexivity | reflexivity |].
  apply Hremove; [discriminate | compute_done | reflexivity].
Defined.

Lemma removeFromQueue_idempotent_witness :
  downloadManager (removeFromQueue "G1" (removeFromQueue "G1" sample_running)) =
    downloadManager (removeFromQueue "G1" sample_running) /\
  ("G1" <> "" ->
   "G1" ∉ appNames (store_get "queue" (removeFromQueue "G1" sample_running))).
Proof.
  apply (removeFromQueue_idempotent "G1" sample_running). compute_done.
Defined.

Lemma unsupported_task_is_retired_at_once_witness :
  let m := set_later [5] (process_start ∅ 2) in
  exists m',
    addToQueue 1 (Some G3) m = Some m' /\
    store_get "queue" m' = [] /\
    store_get "finished" m' =
      finished_with
        (with_endTime (clock (tick m))
           (with_startTime (clock m)
              (with_params (with_size "?? MB" (params G3)) G3)))
        (Some error) (store_get "finished" m) /\
    (exists e,
       e ∈ store_get "finished" m' /\ status e = Some error /\
       params e = with_size "?? MB" (params G3) /\ type e = type G3 /\
       startTime e = clock m /\ endTime e = clock (tick m)) /\
    queueState m' = idle /\ loops m' = loops m /\
    runnerCalls m' = runnerCalls m.
Proof.
  apply (unsupported_task_is_retired_at_once 0 G3
           (set_later [5] (process_start ∅ 2)));
    try reflexivity; discriminate.
Defined.

Lemma unnamed_unsupported_task_never_ends_witness :
  addToQueue 1000 (Some (task "" "sideload" "install")) (process_start ∅ 0) = None.
Proof.
  apply (unnamed_unsupported_task_never_ends (task "" "sideload" "install")
           (process_start ∅ 0)); try reflexivity; discriminate.
Defined.

Lemma size_lookup_writes_back_snapshot_witness :
  let started :=
    with_startTime (clock sample_lookup)
      (with_params
         (with_size (resolved_size sample_getFileSize None) (params G1)) G1) in
  store_get "queue" sample_install = assign_head started [G1] /\
  loops sample_install =
    delete 0%nat (loops sample_lookup) ++ [awaiting_operation started] /\
  store_get "finished" sample_install = store_get "finished" sample_lookup.
Proof.
  apply (size_lookup_writes_back_snapshot sample_getFileSize 16 0%nat G1 [G1] None
           sample_lookup sample_install).
  - vm_compute. reflexivity.
  - discriminate.
  - vm_compute. reflexivity.
Defined.

Lemma finished_timestamps_witness :
  (size_resolved G2 [G2] sample_running).2 =
    suspends (awaiting_operation (with_startTime (clock sample_running) G2)) /\
  exists e,
    e ∈ store_get "finished"
          (operation_result (with_startTime (clock sample_running) G2)
             (Returned (Some done_)) (set_clock 7 sample_running)).1 /\
    appName (params e) = appName (params G2) /\ status e = Some done_ /\
    startTime e = clock sample_running /\
    endTime e = clock (set_clock 7 sample_running) /\
    (clock sample_running <= clock (set_clock 7 sample_running) ->
     startTime e <= endTime e).
Proof.
  apply (finished_timestamps G2 [G2] (downloadGame "G2") done_ sample_running
           (set_clock 7 sample_running)). reflexivity.
Defined.

Lemma loop_is_first_in_first_out_witness :
  exists m',
    (snd <$> initQueue 3 sample_restart)
      ≫= settle_all sample_getFileSize (fun _ => None) (fun _ => Some done_) 3 6
      = Some m' /\
    store_get "queue" m' = [] /\ queueState m' = idle /\ loops m' = [] /\
    runnerCalls m' =
      runnerCalls sample_restart ++
      omap (fun el => dispatch (sized sample_getFileSize (fun _ => None) el))
        [G1; G2; G3] /\
    store_get "finished" m' =
      history_after sample_getFileSize (fun _ => None) (fun _ => Some done_)
        (clock sample_restart) (later sample_restart) [G1; G2; G3]
        (store_get "finished" sample_restart) /\
    Forall (fun el =>
              recorded_from sample_getFileSize (fun _ => None)
                (fun _ => Some done_) [G1; G2; G3]
                (store_get "finished" m') (appName (params el)))
      [G1; G2; G3].
Proof.
  apply (loop_is_first_in_first_out sample_getFileSize (fun _ => None)
           (fun _ => Some done_) sample_restart [G1; G2; G3]);
    [reflexivity | reflexivity |].
  repeat constructor; discriminate.
Defined.
